(** * Secret Burger: handshake codec, transfer protocol and session state machine

    A shallow embedding of the [App] component (its state, its event handlers
    and the file read loop) and of the browser built-ins the handlers call:
    [btoa], [atob], [JSON.stringify], [JSON.parse], [Blob.slice] and
    [Math.round].

    Conventions.
    - A JavaScript string is the list of its UTF-16 code units.
    - A fallible built-in returns [option]; [None] stands for a thrown
      exception.
    - The state variables of the component ([useState]) form a [Store].  A
      handler is a closure created by one render: it reads the state variables
      of that render (a [Store] snapshot, the argument [env] of the handlers
      below) and writes the store through the setters.  A setter does not
      change what a closure that already exists reads.  The handlers of the
      interface are those of the last render; the handlers assigned to a peer
      connection or a data channel stay the closures of the render that
      assigned them.  References ([useRef]) and [localStorage] are read and
      written in place.
    - An [async] handler runs to its end before the next event; what the
      transport answers to it is a parameter of the model. *)

From Stdlib Require Import ZArith NArith List Bool Lia Ascii String.
From Stdlib Require Import Strings.Byte.
From Stdlib Require Import PrimFloat FloatOps SpecFloat Uint63.
From stdpp Require Import gmap strings list.
Import ListNotations.

(** ** JavaScript strings *)

Abbreviation jsstring := (list N) (only parsing).

(** The string whose characters are the ASCII characters of a literal. *)
Definition js (s : string) : jsstring :=
  map N_of_ascii (list_ascii_of_string s).

Definition jsstring_eqb (a b : jsstring) : bool :=
  bool_decide (a = b).

(** A code unit is an unsigned 16-bit integer. *)
Definition code_units (s : jsstring) : Prop := Forall (fun c => (c < 65536)%N) s.

(** Characters of the Latin-1 range, the domain of [btoa]. *)
Definition latin1 (s : jsstring) : bool := forallb (fun c => (c <=? 255)%N) s.

(** ** [btoa] and [atob] (HTML standard, forgiving-base64) *)

Section Base64.
Local Open Scope N_scope.

(** The base64 alphabet: A-Z, a-z, 0-9, [+], [/]. *)
Definition b64_char (v : N) : N :=
  if v <? 26 then 65 + v
  else if v <? 52 then 71 + v
  else if v <? 62 then v - 4
  else if v =? 62 then 43
  else 47.

Definition b64_value (c : N) : option N :=
  if (65 <=? c) && (c <=? 90) then Some (c - 65)
  else if (97 <=? c) && (c <=? 122) then Some (c - 71)
  else if (48 <=? c) && (c <=? 57) then Some (c + 4)
  else if c =? 43 then Some 62
  else if c =? 47 then Some 63
  else None.

(** Three bytes become four characters; a final group of one or two bytes is
    padded with [=] (code unit 61). *)
Fixpoint b64_encode (s : jsstring) : jsstring :=
  match s with
  | [] => []
  | [a] => [b64_char (a / 4); b64_char ((a mod 4) * 16); 61; 61]
  | [a; b] =>
      [b64_char (a / 4); b64_char ((a mod 4) * 16 + b / 16);
       b64_char ((b mod 16) * 4); 61]
  | a :: b :: c :: r =>
      b64_char (a / 4) :: b64_char ((a mod 4) * 16 + b / 16)
      :: b64_char ((b mod 16) * 4 + c / 64) :: b64_char (c mod 64)
      :: b64_encode r
  end.

(** [btoa] throws InvalidCharacterError when a code unit exceeds 255. *)
Definition btoa (s : jsstring) : option jsstring :=
  if latin1 s then Some (b64_encode s) else None.

Definition is_ascii_whitespace (c : N) : bool :=
  (c =? 9) || (c =? 10) || (c =? 12) || (c =? 13) || (c =? 32).

(** Removes one or two trailing [=]. *)
Definition strip_padding (d : jsstring) : jsstring :=
  match rev d with
  | c1 :: c2 :: r =>
      if c1 =? 61 then (if c2 =? 61 then rev r else rev (c2 :: r)) else d
  | [c1] => if c1 =? 61 then [] else d
  | [] => d
  end.

Fixpoint sextets (d : jsstring) : option (list N) :=
  match d with
  | [] => Some []
  | c :: r =>
      match b64_value c, sextets r with
      | Some v, Some vs => Some (v :: vs)
      | _, _ => None
      end
  end.

(** Four sextets give three bytes; of a final group of two or three sextets
    the last four or two bits are discarded. *)
Fixpoint b64_decode (v : list N) : jsstring :=
  match v with
  | s1 :: s2 :: s3 :: s4 :: r =>
      (s1 * 4 + s2 / 16) :: ((s2 mod 16) * 16 + s3 / 4)
      :: ((s3 mod 4) * 64 + s4) :: b64_decode r
  | [s1; s2; s3] => [s1 * 4 + s2 / 16; (s2 mod 16) * 16 + s3 / 4]
  | [s1; s2] => [s1 * 4 + s2 / 16]
  | _ => []
  end.

(** [atob]: strip ASCII whitespace; when the length is a multiple of four
    drop the padding; a length of 1 modulo 4 or a character outside the
    alphabet throws InvalidCharacterError. *)
Definition atob (data : jsstring) : option jsstring :=
  let d := List.filter (fun c => negb (is_ascii_whitespace c)) data in
  let d := if (length d mod 4 =? 0)%nat then strip_padding d else d in
  if (length d mod 4 =? 1)%nat then None
  else option_map b64_decode (sextets d).

End Base64.


(** ** JSON values

    A number carries the exact decimal value of its literal,
    [(-1)^neg * mant * 10^exp10]; the rounding of [JSON.parse] to a binary64
    is the identity on the integers below 2^53, the only numbers the
    handshake carries, and is otherwise taken into account where a handler
    looks at the number ([rounds_to_zero] for ToBoolean). *)

Record decimal := Decimal { d_neg : bool; d_mant : N; d_exp : Z }.

#[local] Unset Elimination Schemes.

Inductive json :=
| JNull
| JBool (b : bool)
| JNumber (d : decimal)
| JString (s : jsstring)
| JArray (l : list json)
| JObject (props : list (jsstring * json)).

#[local] Set Elimination Schemes.

(** A JavaScript value read from a decoded payload: [None] is [undefined]. *)
Abbreviation jsvalue := (option json) (only parsing).

Definition number_of_N (n : N) : json := JNumber (Decimal false n 0).

Section JSONText.
Local Open Scope N_scope.

Definition is_digit (c : N) : bool := (48 <=? c) && (c <=? 57).

(** *** Decimal digits *)

Fixpoint digits_aux (fuel : nat) (n : N) (acc : jsstring) : jsstring :=
  match fuel with
  | O => acc
  | S fuel =>
      let acc := (48 + n mod 10) :: acc in
      if n <? 10 then acc else digits_aux fuel (n / 10) acc
  end.

Definition digits_of (n : N) : jsstring :=
  digits_aux (S (N.to_nat (N.log2 n))) n [].

Definition digits_value (ds : jsstring) : N :=
  fold_left (fun a c => 10 * a + (c - 48)) ds 0.

(** *** Number::toString, radix 10, on a decimal value *)

Fixpoint strip_zeros (fuel : nat) (m : N) (e : Z) : N * Z :=
  match fuel with
  | O => (m, e)
  | S fuel =>
      if (0 <? m) && (m mod 10 =? 0) then strip_zeros fuel (m / 10) (e + 1)%Z
      else (m, e)
  end.

Definition number_to_string (d : decimal) : jsstring :=
  if d_mant d =? 0 then [48]
  else
    let '(m, e) := strip_zeros (S (N.to_nat (N.log2 (d_mant d)))) (d_mant d) (d_exp d) in
    let ds := digits_of m in
    let k := Z.of_nat (length ds) in
    let n := (k + e)%Z in
    (if d_neg d then [45] else []) ++
    (if (k <=? n)%Z && (n <=? 21)%Z then
       ds ++ repeat 48 (Z.to_nat (n - k))
     else if (0 <? n)%Z && (n <=? 21)%Z then
       firstn (Z.to_nat n) ds ++ [46] ++ skipn (Z.to_nat n) ds
     else if (-6 <? n)%Z && (n <=? 0)%Z then
       [48; 46] ++ repeat 48 (Z.to_nat (- n)) ++ ds
     else
       let x := (n - 1)%Z in
       let xs := (if (x <? 0)%Z then [45] else [43]) ++ digits_of (Z.to_N (Z.abs x)) in
       match ds with
       | [c] => [c] ++ [101] ++ xs
       | _ => firstn 1 ds ++ [46] ++ skipn 1 ds ++ [101] ++ xs
       end).

(** *** QuoteJSONString *)

Definition hex_digit (v : N) : N := if v <? 10 then 48 + v else 87 + v.

Definition unicode_escape (c : N) : jsstring :=
  [92; 117; hex_digit (c / 4096); hex_digit ((c / 256) mod 16);
   hex_digit ((c / 16) mod 16); hex_digit (c mod 16)].

Definition is_high_surrogate (c : N) : bool := (55296 <=? c) && (c <=? 56319).
Definition is_low_surrogate (c : N) : bool := (56320 <=? c) && (c <=? 57343).

(** One code unit that is not half of a surrogate pair. *)
Definition quote_unit (c : N) : jsstring :=
  if c =? 8 then [92; 98]
  else if c =? 9 then [92; 116]
  else if c =? 10 then [92; 110]
  else if c =? 12 then [92; 102]
  else if c =? 13 then [92; 114]
  else if c =? 34 then [92; 34]
  else if c =? 92 then [92; 92]
  else if (c <? 32) || is_high_surrogate c || is_low_surrogate c
       then unicode_escape c
  else [c].

(** A well-formed surrogate pair is copied; every other code unit goes
    through [quote_unit], which escapes a lone surrogate. *)
Fixpoint quote_body (s : jsstring) : jsstring :=
  match s with
  | [] => []
  | c :: r =>
      match r with
      | d :: r' =>
          if is_high_surrogate c && is_low_surrogate d
          then c :: d :: quote_body r'
          else quote_unit c ++ quote_body r
      | [] => quote_unit c
      end
  end.

Definition quote (s : jsstring) : jsstring := [34] ++ quote_body s ++ [34].

(** *** JSON.stringify (no indentation, no replacer) *)

Fixpoint join (sep : jsstring) (l : list jsstring) : jsstring :=
  match l with
  | [] => []
  | [x] => x
  | x :: r => x ++ sep ++ join sep r
  end.

Fixpoint JSON_stringify (v : json) : jsstring :=
  match v with
  | JNull => js "null"
  | JBool true => js "true"
  | JBool false => js "false"
  | JNumber d => number_to_string d
  | JString s => quote s
  | JArray l => [91] ++ join [44] (map JSON_stringify l) ++ [93]
  | JObject props =>
      [123]
      ++ join [44] (map (fun kv => quote (fst kv) ++ [58] ++ JSON_stringify (snd kv)) props)
      ++ [125]
  end.

End JSONText.

(** ** JSON.parse *)

Section JSONParse.
Local Open Scope N_scope.

(** JSON white space: tab, line feed, carriage return, space. *)
Definition is_json_ws (c : N) : bool :=
  (c =? 9) || (c =? 10) || (c =? 13) || (c =? 32).

Fixpoint skip_ws (s : jsstring) : jsstring :=
  match s with
  | c :: r => if is_json_ws c then skip_ws r else s
  | [] => []
  end.

Definition hex_value (c : N) : option N :=
  if is_digit c then Some (c - 48)
  else if (97 <=? c) && (c <=? 102) then Some (c - 87)
  else if (65 <=? c) && (c <=? 70) then Some (c - 55)
  else None.

Definition hex4 (a b c d : N) : option N :=
  match hex_value a, hex_value b, hex_value c, hex_value d with
  | Some x, Some y, Some z, Some w => Some (x * 4096 + y * 256 + z * 16 + w)
  | _, _, _, _ => None
  end.

(** The character an escape letter stands for. *)
Definition simple_escape (e : N) : option N :=
  if e =? 34 then Some 34
  else if e =? 92 then Some 92
  else if e =? 47 then Some 47
  else if e =? 98 then Some 8
  else if e =? 102 then Some 12
  else if e =? 110 then Some 10
  else if e =? 114 then Some 13
  else if e =? 116 then Some 9
  else None.

(** The characters of a string literal after its opening quote, up to and
    including the closing quote. *)
Fixpoint parse_string_body (s : jsstring) : option (jsstring * jsstring) :=
  match s with
  | [] => None
  | c :: r =>
      if c =? 34 then Some ([], r)
      else if c =? 92 then
        match r with
        | [] => None
        | e :: r1 =>
            if e =? 117 then
              match r1 with
              | h1 :: h2 :: h3 :: h4 :: r2 =>
                  match hex4 h1 h2 h3 h4, parse_string_body r2 with
                  | Some u, Some (str, rest) => Some (u :: str, rest)
                  | _, _ => None
                  end
              | _ => None
              end
            else
              match simple_escape e, parse_string_body r1 with
              | Some u, Some (str, rest) => Some (u :: str, rest)
              | _, _ => None
              end
        end
      else if c <? 32 then None
      else
        match parse_string_body r with
        | Some (str, rest) => Some (c :: str, rest)
        | None => None
        end
  end.

(** The longest prefix of digits. *)
Fixpoint span_digits (s : jsstring) : jsstring * jsstring :=
  match s with
  | c :: r =>
      if is_digit c then let '(ds, rest) := span_digits r in (c :: ds, rest)
      else ([], s)
  | [] => ([], [])
  end.

(** int: [0], or a non-zero digit followed by digits. *)
Definition parse_int (s : jsstring) : option (jsstring * jsstring) :=
  match s with
  | c :: r =>
      if c =? 48 then Some ([48], r)
      else if is_digit c then let '(ds, rest) := span_digits r in Some (c :: ds, rest)
      else None
  | [] => None
  end.

(** frac: nothing, or [.] followed by at least one digit. *)
Definition parse_frac (s : jsstring) : option (jsstring * jsstring) :=
  match s with
  | c :: r =>
      if c =? 46 then
        match span_digits r with
        | ([], _) => None
        | (ds, rest) => Some (ds, rest)
        end
      else Some ([], s)
  | [] => Some ([], [])
  end.

(** exp: nothing, or [e] or [E], an optional sign and at least one digit. *)
Definition parse_exp (s : jsstring) : option (Z * jsstring) :=
  match s with
  | c :: r =>
      if (c =? 101) || (c =? 69) then
        let '(neg, r1) :=
          match r with
          | sg :: r' =>
              if sg =? 45 then (true, r')
              else if sg =? 43 then (false, r')
              else (false, r)
          | [] => (false, r)
          end in
        match span_digits r1 with
        | ([], _) => None
        | (ds, rest) =>
            let x := Z.of_N (digits_value ds) in
            Some (if neg then (- x)%Z else x, rest)
        end
      else Some (0%Z, s)
  | [] => Some (0%Z, [])
  end.

Definition parse_number (s : jsstring) : option (decimal * jsstring) :=
  let '(neg, s1) :=
    match s with
    | c :: r => if c =? 45 then (true, r) else (false, s)
    | [] => (false, s)
    end in
  match parse_int s1 with
  | None => None
  | Some (ip, s2) =>
      match parse_frac s2 with
      | None => None
      | Some (fp, s3) =>
          match parse_exp s3 with
          | None => None
          | Some (x, s4) =>
              Some (Decimal neg (digits_value (ip ++ fp))
                            (x - Z.of_nat (length fp))%Z, s4)
          end
      end
  end.

(** *** Property order of an object

    [JSON.parse] defines the members in source order with CreateDataProperty:
    a repeated key keeps its place and takes the later value; the keys that
    are array indices precede the others, in ascending order. *)

Definition array_index (k : jsstring) : option N :=
  match k with
  | [] => None
  | c :: r =>
      if forallb is_digit k && (negb (c =? 48) || bool_decide (r = []))
         && (digits_value k <? 4294967295)
      then Some (digits_value k) else None
  end.

Fixpoint obj_replace (k : jsstring) (v : json) (props : list (jsstring * json))
  : option (list (jsstring * json)) :=
  match props with
  | [] => None
  | (k', v') :: r =>
      if jsstring_eqb k k' then Some ((k, v) :: r)
      else option_map (cons (k', v')) (obj_replace k v r)
  end.

Fixpoint obj_insert_index (i : N) (k : jsstring) (v : json)
  (props : list (jsstring * json)) : list (jsstring * json) :=
  match props with
  | [] => [(k, v)]
  | (k', v') :: r =>
      match array_index k' with
      | Some j => if j <? i then (k', v') :: obj_insert_index i k v r
                  else (k, v) :: props
      | None => (k, v) :: props
      end
  end.

Definition obj_define (k : jsstring) (v : json) (props : list (jsstring * json))
  : list (jsstring * json) :=
  match obj_replace k v props with
  | Some props' => props'
  | None =>
      match array_index k with
      | Some i => obj_insert_index i k v props
      | None => props ++ [(k, v)]
      end
  end.

(** *** Values *)

Inductive parsed (A : Type) :=
| Parsed (a : A) (rest : jsstring)
| SyntaxError
| OutOfFuel.
#[global] Arguments Parsed {A} a rest.
#[global] Arguments SyntaxError {A}.
#[global] Arguments OutOfFuel {A}.

Definition literal (word : jsstring) (v : json) (s : jsstring) : parsed json :=
  if jsstring_eqb (firstn (length word) s) word
  then Parsed v (skipn (length word) s) else SyntaxError.

Fixpoint parse_value (fuel : nat) (s : jsstring) {struct fuel} : parsed json :=
  match fuel with
  | O => OutOfFuel
  | S fuel =>
      match skip_ws s with
      | [] => SyntaxError
      | c :: r =>
          if c =? 123 then
            match skip_ws r with
            | c' :: r' =>
                if c' =? 125 then Parsed (JObject []) r'
                else
                  match parse_members fuel [] (c' :: r') with
                  | Parsed props rest => Parsed (JObject props) rest
                  | SyntaxError => SyntaxError
                  | OutOfFuel => OutOfFuel
                  end
            | [] => SyntaxError
            end
          else if c =? 91 then
            match skip_ws r with
            | c' :: r' =>
                if c' =? 93 then Parsed (JArray []) r'
                else
                  match parse_elements fuel [] (c' :: r') with
                  | Parsed l rest => Parsed (JArray l) rest
                  | SyntaxError => SyntaxError
                  | OutOfFuel => OutOfFuel
                  end
            | [] => SyntaxError
            end
          else if c =? 34 then
            match parse_string_body r with
            | Some (str, rest) => Parsed (JString str) rest
            | None => SyntaxError
            end
          else if c =? 116 then literal (js "true") (JBool true) (c :: r)
          else if c =? 102 then literal (js "false") (JBool false) (c :: r)
          else if c =? 110 then literal (js "null") JNull (c :: r)
          else
            match parse_number (c :: r) with
            | Some (d, rest) => Parsed (JNumber d) rest
            | None => SyntaxError
            end
      end
  end

with parse_elements (fuel : nat) (acc : list json) (s : jsstring) {struct fuel}
  : parsed (list json) :=
  match fuel with
  | O => OutOfFuel
  | S fuel =>
      match parse_value fuel s with
      | Parsed v r =>
          match skip_ws r with
          | c :: r' =>
              if c =? 44 then parse_elements fuel (acc ++ [v]) r'
              else if c =? 93 then Parsed (acc ++ [v]) r'
              else SyntaxError
          | [] => SyntaxError
          end
      | SyntaxError => SyntaxError
      | OutOfFuel => OutOfFuel
      end
  end

with parse_members (fuel : nat) (acc : list (jsstring * json)) (s : jsstring)
  {struct fuel} : parsed (list (jsstring * json)) :=
  match fuel with
  | O => OutOfFuel
  | S fuel =>
      match skip_ws s with
      | c :: r =>
          if c =? 34 then
            match parse_string_body r with
            | Some (k, r1) =>
                match skip_ws r1 with
                | c1 :: r2 =>
                    if c1 =? 58 then
                      match parse_value fuel r2 with
                      | Parsed v r3 =>
                          match skip_ws r3 with
                          | c3 :: r4 =>
                              if c3 =? 44 then parse_members fuel (obj_define k v acc) r4
                              else if c3 =? 125 then Parsed (obj_define k v acc) r4
                              else SyntaxError
                          | [] => SyntaxError
                          end
                      | SyntaxError => SyntaxError
                      | OutOfFuel => OutOfFuel
                      end
                    else SyntaxError
                | [] => SyntaxError
                end
            | None => SyntaxError
            end
          else SyntaxError
      | [] => SyntaxError
      end
  end.

(** [JSON.parse]: one value between optional white space; [None] is a thrown
    SyntaxError.  Twice the length of the text bounds the depth of the calls
    (lemma [parse_value_fuel] below), so the parser never stops for lack of
    fuel. *)
Definition JSON_parse (s : jsstring) : option json :=
  match parse_value (S (2 * length s)) s with
  | Parsed v rest => match skip_ws rest with [] => Some v | _ => None end
  | _ => None
  end.

End JSONParse.

(** ** Numbers of the progress display *)

Definition Z2float (z : Z) : float :=
  if (0 <=? z)%Z then PrimFloat.of_uint63 (Uint63.of_Z z)
  else PrimFloat.opp (PrimFloat.of_uint63 (Uint63.of_Z (- z))).

(** [Math.round]: the nearest integer, a tie going towards positive
    infinity; NaN, the infinities, the zeros and the integers are returned
    unchanged, and a negative argument that rounds to zero gives -0.
    A finite float is [(-1)^s * m * 2^e]. *)
Definition Math_round (x : float) : float :=
  match Prim2SF x with
  | S754_finite s m e =>
      if (0 <=? e)%Z then x
      else
        let d := (2 ^ (- e))%Z in
        let sm := if s then Z.neg m else Z.pos m in
        let n := ((2 * sm + d) / (2 * d))%Z in
        if (n =? 0)%Z then (if s then PrimFloat.neg_zero else PrimFloat.zero)
        else Z2float n
  | _ => x
  end.

(** [Math.round((a / b) * 100)] *)
Definition percent (a b : float) : float :=
  Math_round (PrimFloat.mul (PrimFloat.div a b) (Z2float 100)).

(** ** The component state *)

Module AppState.
Inductive t :=
| idle | generatingOffer | awaitingAnswer | processingOffer
| awaitingPassword | generatingAnswer | connecting | transferring
| transferComplete | error.

Definition eqb (a b : t) : bool :=
  match a, b with
  | idle, idle | generatingOffer, generatingOffer
  | awaitingAnswer, awaitingAnswer | processingOffer, processingOffer
  | awaitingPassword, awaitingPassword | generatingAnswer, generatingAnswer
  | connecting, connecting | transferring, transferring
  | transferComplete, transferComplete | error, error => true
  | _, _ => false
  end.
End AppState.

(** A [File]: its name and contents; [size] is the number of bytes.  Two
    files with the same name and contents are not told apart. *)
Record File := { name : jsstring; bytes : list Byte.byte }.

Definition size (f : File) : Z := Z.of_nat (length (bytes f)).

(** [RTCSessionDescriptionInit] *)
Record RTCSessionDescription := { sd_type : jsstring; sd_sdp : jsstring }.

(** [OfferPayload] of the types module. *)
Record OfferPayload := {
  sdp : RTCSessionDescription;
  fileName : jsstring;
  fileSize : N;
  passwordHash : option jsstring
}.

(** The state variable [receivedFileInfo]; the two fields hold whatever the
    decoded payload has under [fileName] and [fileSize]. *)
Record FileInfo := { info_name : jsvalue; info_size : jsvalue }.

(** [event.data] of a channel message: a string or an [ArrayBuffer]. *)
Inductive MessageData :=
| Text (s : jsstring)
| Binary (b : list Byte.byte).

(** The [useState] variables of the component: the store the setters write,
    and the snapshot one render gives to the closures it creates. *)
Record Store := {
  appState : AppState.t;
  file : option File;
  password : jsstring;
  error : option jsstring;
  offer : option jsstring;
  isCopied : bool;
  progress : float;
  transferredBytes : Z;
  receivedFileInfo : option FileInfo;
  receivedFileChunks : list (list Byte.byte)
}.

(** A peer connection: the render whose [createPeerConnection] built its
    handlers, and its local description. *)
Record RTCPeerConnection := {
  pc_env : Store;
  localDescription : option RTCSessionDescription
}.

(** A data channel: the render whose [setupDataChannel] installed its
    handlers, whether [readyState] is open, and the messages sent on it. *)
Record RTCDataChannel := {
  dc_env : Store;
  dc_open : bool;
  dc_sent : list MessageData
}.

(** The [FileReader] of one [sendFileInChunks] call with the variables of
    that call: the file, the local [offset] and the slice being read. *)
Record FileReader := {
  fr_file : File;
  fr_offset : Z;
  fr_reading : option (list Byte.byte)
}.

(** The component instance and its surroundings.  [memo] is the render that
    created the memoised [createPeerConnection] and [processOffer];
    [downloadUrl] is the object URL, identified with the bytes of its Blob;
    [peerConnection] and [dataChannel] are the two references with the
    objects they point to. *)
Record World := {
  store : Store;
  memo : Store;
  downloadUrl : option (list Byte.byte);
  peerConnection : option RTCPeerConnection;
  dataChannel : option RTCDataChannel;
  fileReader : option FileReader;
  localStorage : gmap jsstring jsstring;
  location_hash : jsstring
}.

Definition CHUNK_SIZE : Z := 16384.

Section Setters.

Definition with_store (f : Store -> Store) (w : World) : World :=
  {| store := f (store w); memo := memo w; downloadUrl := downloadUrl w;
     peerConnection := peerConnection w; dataChannel := dataChannel w;
     fileReader := fileReader w; localStorage := localStorage w;
     location_hash := location_hash w |}.

Definition setAppState (v : AppState.t) : World -> World :=
  with_store (fun s =>
    {| appState := v; file := file s; password := password s; error := error s;
       offer := offer s; isCopied := isCopied s; progress := progress s;
       transferredBytes := transferredBytes s;
       receivedFileInfo := receivedFileInfo s;
       receivedFileChunks := receivedFileChunks s |}).

Definition setFile (v : option File) : World -> World :=
  with_store (fun s =>
    {| appState := appState s; file := v; password := password s; error := error s;
       offer := offer s; isCopied := isCopied s; progress := progress s;
       transferredBytes := transferredBytes s;
       receivedFileInfo := receivedFileInfo s;
       receivedFileChunks := receivedFileChunks s |}).

Definition setPassword (v : jsstring) : World -> World :=
  with_store (fun s =>
    {| appState := appState s; file := file s; password := v; error := error s;
       offer := offer s; isCopied := isCopied s; progress := progress s;
       transferredBytes := transferredBytes s;
       receivedFileInfo := receivedFileInfo s;
       receivedFileChunks := receivedFileChunks s |}).

Definition setError (v : option jsstring) : World -> World :=
  with_store (fun s =>
    {| appState := appState s; file := file s; password := password s; error := v;
       offer := offer s; isCopied := isCopied s; progress := progress s;
       transferredBytes := transferredBytes s;
       receivedFileInfo := receivedFileInfo s;
       receivedFileChunks := receivedFileChunks s |}).

Definition setOffer (v : option jsstring) : World -> World :=
  with_store (fun s =>
    {| appState := appState s; file := file s; password := password s; error := error s;
       offer := v; isCopied := isCopied s; progress := progress s;
       transferredBytes := transferredBytes s;
       receivedFileInfo := receivedFileInfo s;
       receivedFileChunks := receivedFileChunks s |}).

Definition setIsCopied (v : bool) : World -> World :=
  with_store (fun s =>
    {| appState := appState s; file := file s; password := password s; error := error s;
       offer := offer s; isCopied := v; progress := progress s;
       transferredBytes := transferredBytes s;
       receivedFileInfo := receivedFileInfo s;
       receivedFileChunks := receivedFileChunks s |}).

Definition setProgress (v : float) : World -> World :=
  with_store (fun s =>
    {| appState := appState s; file := file s; password := password s; error := error s;
       offer := offer s; isCopied := isCopied s; progress := v;
       transferredBytes := transferredBytes s;
       receivedFileInfo := receivedFileInfo s;
       receivedFileChunks := receivedFileChunks s |}).

Definition setTransferredBytes (v : Z) : World -> World :=
  with_store (fun s =>
    {| appState := appState s; file := file s; password := password s; error := error s;
       offer := offer s; isCopied := isCopied s; progress := progress s;
       transferredBytes := v;
       receivedFileInfo := receivedFileInfo s;
       receivedFileChunks := receivedFileChunks s |}).

Definition setReceivedFileInfo (v : option FileInfo) : World -> World :=
  with_store (fun s =>
    {| appState := appState s; file := file s; password := password s; error := error s;
       offer := offer s; isCopied := isCopied s; progress := progress s;
       transferredBytes := transferredBytes s;
       receivedFileInfo := v;
       receivedFileChunks := receivedFileChunks s |}).

(** The functional form of the setter, [setReceivedFileChunks(prev => f(prev))],
    applies [f] to the value in the store. *)
Definition updateReceivedFileChunks
  (f : list (list Byte.byte) -> list (list Byte.byte)) : World -> World :=
  with_store (fun s =>
    {| appState := appState s; file := file s; password := password s; error := error s;
       offer := offer s; isCopied := isCopied s; progress := progress s;
       transferredBytes := transferredBytes s;
       receivedFileInfo := receivedFileInfo s;
       receivedFileChunks := f (receivedFileChunks s) |}).

Definition setReceivedFileChunks (v : list (list Byte.byte)) : World -> World :=
  updateReceivedFileChunks (fun _ => v).

Definition set_downloadUrl (v : option (list Byte.byte)) (w : World) : World :=
  {| store := store w; memo := memo w; downloadUrl := v;
     peerConnection := peerConnection w; dataChannel := dataChannel w;
     fileReader := fileReader w; localStorage := localStorage w;
     location_hash := location_hash w |}.

Definition set_peerConnection (v : option RTCPeerConnection) (w : World) : World :=
  {| store := store w; memo := memo w; downloadUrl := downloadUrl w;
     peerConnection := v; dataChannel := dataChannel w;
     fileReader := fileReader w; localStorage := localStorage w;
     location_hash := location_hash w |}.

Definition set_dataChannel (v : option RTCDataChannel) (w : World) : World :=
  {| store := store w; memo := memo w; downloadUrl := downloadUrl w;
     peerConnection := peerConnection w; dataChannel := v;
     fileReader := fileReader w; localStorage := localStorage w;
     location_hash := location_hash w |}.

Definition set_fileReader (v : option FileReader) (w : World) : World :=
  {| store := store w; memo := memo w; downloadUrl := downloadUrl w;
     peerConnection := peerConnection w; dataChannel := dataChannel w;
     fileReader := v; localStorage := localStorage w;
     location_hash := location_hash w |}.

Definition set_localStorage (v : gmap jsstring jsstring) (w : World) : World :=
  {| store := store w; memo := memo w; downloadUrl := downloadUrl w;
     peerConnection := peerConnection w; dataChannel := dataChannel w;
     fileReader := fileReader w; localStorage := v;
     location_hash := location_hash w |}.

Definition set_location_hash (v : jsstring) (w : World) : World :=
  {| store := store w; memo := memo w; downloadUrl := downloadUrl w;
     peerConnection := peerConnection w; dataChannel := dataChannel w;
     fileReader := fileReader w; localStorage := localStorage w;
     location_hash := v |}.

Definition set_memo (v : Store) (w : World) : World :=
  {| store := store w; memo := v; downloadUrl := downloadUrl w;
     peerConnection := peerConnection w; dataChannel := dataChannel w;
     fileReader := fileReader w; localStorage := localStorage w;
     location_hash := location_hash w |}.

End Setters.

(** Statements of a handler run in sequence. *)
Definition andThen (f g : World -> World) : World -> World := fun w => g (f w).
Infix ";>" := andThen (at level 61, left associativity).

(** ** Values of a decoded payload *)

#[global] Instance byte_eq_decision : EqDecision Byte.byte := Byte.byte_eq_dec.
#[global] Instance File_eq_decision : EqDecision File.
Proof. solve_decision. Defined.

(** An own property of an object. *)
Fixpoint assoc (k : jsstring) (props : list (jsstring * json)) : jsvalue :=
  match props with
  | [] => None
  | (k', v) :: r => if jsstring_eqb k k' then Some v else assoc k r
  end.

(** The property read [v.k] for the names the handlers read ([type], [sdp],
    [fileName], [fileSize], [passwordHash]), none of which a prototype
    defines: [null] throws a TypeError (the outer [None]), an object gives
    its own property, every other value gives [undefined]. *)
Definition get_prop (v : json) (k : jsstring) : option jsvalue :=
  match v with
  | JNull => None
  | JObject props => Some (assoc k props)
  | _ => Some None
  end.

(** Whether the binary64 that [JSON.parse] makes of a literal is a zero: the
    literal is zero, or its magnitude is at most 2^-1075, half of the least
    subnormal (the tie goes to the even neighbour, which is zero). *)
Definition rounds_to_zero (d : decimal) : bool :=
  (d_mant d =? 0)%N
  || match d_exp d with
     | Z.neg p => (d_mant d * 2 ^ 1075 <=? 10 ^ N.pos p)%N
     | _ => false
     end.

(** ToBoolean; a number is falsy when it is a zero (no literal gives NaN). *)
Definition truthy (v : jsvalue) : bool :=
  match v with
  | None | Some JNull => false
  | Some (JBool b) => b
  | Some (JNumber d) => negb (rounds_to_zero d)
  | Some (JString s) => negb (bool_decide (s = []))
  | Some (JArray _) | Some (JObject _) => true
  end.

(** [v === s] for a string [s] *)
Definition strict_eq_string (v : jsvalue) (s : jsstring) : bool :=
  match v with
  | Some (JString t) => jsstring_eqb t s
  | _ => false
  end.

(** [Blob.slice(start, end)] of the File API *)
Definition slice (l : list Byte.byte) (s e : Z) : list Byte.byte :=
  let len := Z.of_nat (length l) in
  let rs := if (s <? 0)%Z then Z.max (len + s) 0 else Z.min s len in
  let re := if (e <? 0)%Z then Z.max (len + e) 0 else Z.min e len in
  let span := Z.max (re - rs) 0 in
  firstn (Z.to_nat span) (skipn (Z.to_nat rs) l).

Definition byteLength (b : list Byte.byte) : Z := Z.of_nat (length b).

(** ** The handshake codec *)

(** What [JSON.stringify] sees of a session description (its [toJSON]). *)
Definition description_json (d : RTCSessionDescription) : json :=
  JObject [(js "type", JString (sd_type d)); (js "sdp", JString (sd_sdp d))].

(** The object literal of the offer payload; [passwordHash] is assigned
    after the other three properties, and only for a non-empty password. *)
Definition OfferPayload_json (p : OfferPayload) : json :=
  JObject
    ([(js "sdp", description_json (sdp p));
      (js "fileName", JString (fileName p));
      (js "fileSize", number_of_N (fileSize p))]
     ++ match passwordHash p with
        | Some h => [(js "passwordHash", JString h)]
        | None => []
        end).

(** [btoa(JSON.stringify(v))] *)
Definition encode (v : json) : option jsstring := btoa (JSON_stringify v).

(** [JSON.parse(atob(s))] *)
Definition decode (s : jsstring) : option json :=
  match atob s with
  | Some t => JSON_parse t
  | None => None
  end.

Definition done_message : jsstring :=
  JSON_stringify (JObject [(js "type", JString (js "done"))]).

Inductive RTCPeerConnectionState :=
| cs_new | cs_connecting | cs_connected | cs_disconnected | cs_failed | cs_closed.

(** ** The handlers *)

Section App.

(** [hashPassword] of the helpers module: the fingerprint of a secret. *)
Variable hashPassword : jsstring -> jsstring.

(** The transport, as far as the handlers observe it.
    [createOffer]: the description [createOffer] and [setLocalDescription]
    leave as local description; [None] when one of them throws.
    [answerOffer sdp]: the local description after
    [setRemoteDescription(new RTCSessionDescription(sdp))], [createAnswer] and
    [setLocalDescription]; [None] when one of them throws.
    [acceptAnswer answer]: whether
    [setRemoteDescription(new RTCSessionDescription(answer))] succeeds. *)
Variable createOffer : option RTCSessionDescription.
Variable answerOffer : jsvalue -> option RTCSessionDescription.
Variable acceptAnswer : json -> bool.

(** ToNumber of ECMAScript on a value of a decoded payload. *)
Variable ToNumber : jsvalue -> float.

Definition resetState : World -> World :=
  setAppState AppState.idle
  ;> setFile None
  ;> setPassword []
  ;> setError None
  ;> setOffer None
  ;> setIsCopied false
  ;> setProgress (Z2float 0)
  ;> setTransferredBytes 0
  ;> setReceivedFileInfo None
  ;> setReceivedFileChunks []
  ;> set_downloadUrl None
  ;> set_peerConnection None
  ;> set_dataChannel None
  ;> set_location_hash [].

Definition handleFileChange (selectedFile : option File) : World -> World :=
  match selectedFile with
  | Some f => setFile (Some f) ;> setError None
  | None => fun w => w
  end.

(** [createPeerConnection] is memoised on [appState], [file] and [password]:
    the handlers of the connection it returns are closures of the render
    [memo] that created it. *)
Definition createPeerConnection (w : World) : World :=
  set_peerConnection (Some {| pc_env := memo w; localDescription := None |}) w.

Definition setLocalDescription (d : RTCSessionDescription) (w : World) : World :=
  match peerConnection w with
  | Some pc => set_peerConnection (Some {| pc_env := pc_env pc; localDescription := Some d |}) w
  | None => w
  end.

(** [pc.onicecandidate] for the event whose candidate is [null]. *)
Definition onicecandidate (w : World) : World :=
  match peerConnection w with
  | None => w
  | Some pc =>
      match localDescription pc with
      | None => w
      | Some d =>
          let env := pc_env pc in
          if AppState.eqb (appState env) AppState.generatingOffer then
            match file env with
            | None => w
            | Some f =>
                let payload :=
                  {| sdp := d; fileName := name f; fileSize := Z.to_N (size f);
                     passwordHash :=
                       match password env with
                       | [] => None
                       | _ => Some (hashPassword (password env))
                       end |} in
                match encode (OfferPayload_json payload) with
                | Some encodedOffer =>
                    (setOffer (Some encodedOffer)
                     ;> setAppState AppState.awaitingAnswer) w
                | None => w
                end
            end
          else if AppState.eqb (appState env) AppState.generatingAnswer then
            match encode (description_json d) with
            | Some encodedAnswer => setOffer (Some encodedAnswer) w
            | None => w
            end
          else w
      end
  end.

Definition onconnectionstatechange (st : RTCPeerConnectionState) : World -> World :=
  match st with
  | cs_connected => setAppState AppState.transferring
  | cs_failed | cs_disconnected =>
      setError (Some (js "Connection failed. Please try again."))
      ;> setAppState AppState.error
  | _ => fun w => w
  end.

Definition send (m : MessageData) (w : World) : World :=
  match dataChannel w with
  | Some ch =>
      set_dataChannel
        (Some {| dc_env := dc_env ch; dc_open := dc_open ch;
                 dc_sent := dc_sent ch ++ [m] |}) w
  | None => w
  end.

(** [readSlice(o)]: the slice is taken and its read is started. *)
Definition readSlice (f : File) (offset o : Z) : World -> World :=
  set_fileReader
    (Some {| fr_file := f; fr_offset := offset;
             fr_reading := Some (slice (bytes f) o (o + CHUNK_SIZE)) |}).

(** [fileReader.onload]: the read of the slice has completed. *)
Definition onload (w : World) : World :=
  match fileReader w with
  | Some fr =>
      match fr_reading fr with
      | Some chunk =>
          let f := fr_file fr in
          let w := set_fileReader
                     (Some {| fr_file := f; fr_offset := fr_offset fr;
                              fr_reading := None |}) w in
          match dataChannel w with
          | Some ch =>
              if dc_open ch then
                let offset := (fr_offset fr + byteLength chunk)%Z in
                let w :=
                  (send (Binary chunk)
                   ;> set_fileReader
                        (Some {| fr_file := f; fr_offset := offset;
                                 fr_reading := None |})
                   ;> setTransferredBytes offset
                   ;> setProgress (percent (Z2float offset) (Z2float (size f)))) w in
                if (offset <? size f)%Z then readSlice f offset offset w
                else
                  (send (Text done_message)
                   ;> setAppState AppState.transferComplete) w
              else w
          | None => w
          end
      | None => w
      end
  | None => w
  end.

Definition sendFileInChunks (env : Store) (w : World) : World :=
  match file env, dataChannel w with
  | Some f, Some _ => readSlice f 0 0 w
  | _, _ => w
  end.

(** [channel.onopen] as installed by the [setupDataChannel] of render [env]. *)
Definition onopen (env : Store) : World -> World :=
  match file env with
  | Some _ => setAppState AppState.transferring ;> sendFileInChunks env
  | None => fun w => w
  end.

(** [channel.onmessage] as installed by the [setupDataChannel] of render
    [env]: [receivedFileChunks], [transferredBytes] and [receivedFileInfo]
    are the variables of that render. *)
Definition onmessage (env : Store) (data : MessageData) (w : World) : World :=
  match data with
  | Text s =>
      match JSON_parse s with
      | Some msg =>
          match get_prop msg (js "type") with
          | Some t =>
              if strict_eq_string t (js "done") then
                (set_downloadUrl (Some (concat (receivedFileChunks env)))
                 ;> setAppState AppState.transferComplete) w
              else w
          | None => w
          end
      | None => w
      end
  | Binary b =>
      let newTransferred := (transferredBytes env + byteLength b)%Z in
      let w :=
        (updateReceivedFileChunks (fun prev => prev ++ [b])
         ;> setTransferredBytes newTransferred) w in
      match receivedFileInfo env with
      | Some info =>
          setProgress (percent (Z2float newTransferred) (ToNumber (info_size info))) w
      | None => w
      end
  end.

(** [setupDataChannel(channel)] of render [env]. *)
Definition setupDataChannel (env : Store) (w : World) : World :=
  match dataChannel w with
  | Some ch =>
      set_dataChannel
        (Some {| dc_env := env; dc_open := dc_open ch; dc_sent := dc_sent ch |}) w
  | None => w
  end.

(** [pc.ondatachannel]: the channel the remote peer created. *)
Definition ondatachannel (is_open : bool) (w : World) : World :=
  match peerConnection w with
  | Some pc =>
      (set_dataChannel
         (Some {| dc_env := pc_env pc; dc_open := is_open; dc_sent := [] |})
       ;> setupDataChannel (pc_env pc)) w
  | None => w
  end.

Definition handleCreateLink (env : Store) (w : World) : World :=
  match file env with
  | None => setError (Some (js "Please select a file first.")) w
  | Some _ =>
      let w :=
        (setAppState AppState.generatingOffer
         ;> createPeerConnection
         ;> set_dataChannel
              (Some {| dc_env := env; dc_open := false; dc_sent := [] |})
         ;> setupDataChannel env) w in
      match createOffer with
      | Some d => setLocalDescription d w
      | None => w
      end
  end.

Definition handleConnect (answerStr : jsstring) (w : World) : World :=
  match decode answerStr with
  | Some answer =>
      match peerConnection w with
      | Some _ =>
          if acceptAnswer answer then setAppState AppState.connecting w
          else setError (Some (js "Invalid counter-signal format. Please try again.")) w
      | None => w
      end
  | None => setError (Some (js "Invalid counter-signal format. Please try again.")) w
  end.

Definition processOffer_failed : World -> World :=
  setError (Some (js "Failed to process transmission. The link might be invalid."))
  ;> setAppState AppState.error.

Definition processOffer (payload : json) (w : World) : World :=
  match get_prop payload (js "fileName"), get_prop payload (js "fileSize"),
        get_prop payload (js "sdp") with
  | Some fileName, Some fileSize, Some sdp =>
      let w :=
        (setReceivedFileInfo (Some {| info_name := fileName; info_size := fileSize |})
         ;> createPeerConnection) w in
      match answerOffer sdp with
      | Some answer =>
          (setLocalDescription answer ;> setAppState AppState.generatingAnswer) w
      | None => processOffer_failed w
      end
  | _, _, _ => processOffer_failed w
  end.

Definition offerPayload_key : jsstring := js "offerPayload".

Definition invalid_link : World -> World :=
  setError (Some (js "Invalid transmission link.")) ;> setAppState AppState.error.

(** The body of the effect, as the closure of render [env]. *)
Definition useEffect (env : Store) (w : World) : World :=
  let hash := skipn 1 (location_hash w) in
  if negb (bool_decide (hash = [])) && AppState.eqb (appState env) AppState.idle then
    match decode hash with
    | Some payload =>
        let w := setAppState AppState.processingOffer w in
        match get_prop payload (js "passwordHash") with
        | Some h =>
            if truthy h then
              (set_localStorage
                 (<[offerPayload_key := JSON_stringify payload]> (localStorage w))
               ;> setAppState AppState.awaitingPassword) w
            else processOffer payload w
        | None => invalid_link w
        end
    | None => invalid_link w
    end
  else w.

Definition handlePasswordSubmit (pass : jsstring) (w : World) : World :=
  match localStorage w !! offerPayload_key with
  | None | Some [] =>
      (setError (Some (js "Transmission data not found. Please use the original link."))
       ;> setAppState AppState.error) w
  | Some payloadStr =>
      match JSON_parse payloadStr with
      | Some payload =>
          let hashedPass := hashPassword pass in
          match get_prop payload (js "passwordHash") with
          | Some h =>
              if strict_eq_string h hashedPass then
                (set_localStorage (delete offerPayload_key (localStorage w))
                 ;> processOffer payload) w
              else setError (Some (js "Incorrect secret code.")) w
          | None => w
          end
      | None => w
      end
  end.

(** ** Renders and events *)

(** A render gives the closures it creates the values in the store; the
    memoised callbacks are replaced when [appState], [file] or [password]
    differ from those of the render that created them. *)
Definition render (w : World) : World :=
  if AppState.eqb (appState (memo w)) (appState (store w))
     && bool_decide (file (memo w) = file (store w))
     && bool_decide (password (memo w) = password (store w))
  then w else set_memo (store w) w.

Inductive Event :=
| Effect
| FileChange (selectedFile : option File)
| PasswordChange (value : jsstring)
| CreateLink
| Connect (answerStr : jsstring)
| PasswordSubmit (pass : jsstring)
| Reset
| IceGatheringComplete
| ConnectionStateChange (st : RTCPeerConnectionState)
| DataChannel (is_open : bool)
| ChannelOpen
| ChannelClose
| ChannelMessage (data : MessageData)
| FileReaderLoad.

Definition set_dc_open (b : bool) (w : World) : World :=
  match dataChannel w with
  | Some ch =>
      set_dataChannel
        (Some {| dc_env := dc_env ch; dc_open := b; dc_sent := dc_sent ch |}) w
  | None => w
  end.

(** The handler an event reaches.  A handler of the interface is the one of
    the last render; the handlers of a connection or a channel are those
    installed on it; the events of a connection or channel that no reference
    holds any more are not followed. *)
Definition handle (ev : Event) (w : World) : World :=
  match ev with
  | Effect => useEffect (store w) w
  | FileChange f => handleFileChange f w
  | PasswordChange v => setPassword v w
  | CreateLink => handleCreateLink (store w) w
  | Connect s => handleConnect s w
  | PasswordSubmit p => handlePasswordSubmit p w
  | Reset => resetState w
  | IceGatheringComplete => onicecandidate w
  | ConnectionStateChange st =>
      match peerConnection w with
      | Some _ => onconnectionstatechange st w
      | None => w
      end
  | DataChannel is_open => ondatachannel is_open w
  | ChannelOpen =>
      match dataChannel w with
      | Some ch => onopen (dc_env ch) (set_dc_open true w)
      | None => w
      end
  | ChannelClose => set_dc_open false w
  | ChannelMessage data =>
      match dataChannel w with
      | Some ch => onmessage (dc_env ch) data w
      | None => w
      end
  | FileReaderLoad => onload w
  end.

Definition step (ev : Event) (w : World) : World := render (handle ev w).

Definition run (evs : list Event) (w : World) : World :=
  fold_left (fun w ev => step ev w) evs w.

(** The file reader is driven until no read is pending. *)
Fixpoint run_reader (fuel : nat) (w : World) : World :=
  match fuel with
  | O => w
  | S fuel =>
      match fileReader w with
      | Some fr =>
          match fr_reading fr with
          | Some _ => run_reader fuel (step FileReaderLoad w)
          | None => w
          end
      | None => w
      end
  end.

End App.

(** The store of a freshly mounted component. *)
Definition initial_store : Store :=
  {| appState := AppState.idle; file := None; password := []; error := None;
     offer := None; isCopied := false; progress := Z2float 0;
     transferredBytes := 0; receivedFileInfo := None; receivedFileChunks := [] |}.

(** The page just loaded at a URL with fragment [hash], the first render
    done, with whatever an earlier visit left in [localStorage]. *)
Definition page_load (hash : jsstring) (ls : gmap jsstring jsstring) : World :=
  {| store := initial_store; memo := initial_store; downloadUrl := None;
     peerConnection := None; dataChannel := None; fileReader := None;
     localStorage := ls; location_hash := hash |}.

(** ** A platform for the worked scenarios *)

(** A stand-in fingerprint (it only has to be a function of the secret). *)
Definition example_hashPassword (s : jsstring) : jsstring := js "digest-of-" ++ s.

Definition example_offer : RTCSessionDescription :=
  {| sd_type := js "offer"; sd_sdp := js "v=0" |}.

Definition example_answer : RTCSessionDescription :=
  {| sd_type := js "answer"; sd_sdp := js "v=0" |}.

(** A transport that accepts every descriptor that is an object. *)
Definition accepting_answerOffer (v : jsvalue) : option RTCSessionDescription :=
  match v with
  | Some (JObject _) => Some example_answer
  | _ => None
  end.

(** A transport that throws on every descriptor. *)
Definition rejecting_answerOffer (v : jsvalue) : option RTCSessionDescription := None.

Definition accepting_acceptAnswer (v : json) : bool :=
  match v with JObject _ => true | _ => false end.

(** ToNumber on the integers; NaN elsewhere. *)
Definition integer_ToNumber (v : jsvalue) : float :=
  match v with
  | Some (JNumber (Decimal neg m 0%Z)) =>
      Z2float (if neg then - Z.of_N m else Z.of_N m)
  | _ => PrimFloat.nan
  end.

Definition example_run (answerOffer : jsvalue -> option RTCSessionDescription)
  : list Event -> World -> World :=
  run example_hashPassword (Some example_offer) answerOffer
      accepting_acceptAnswer integer_ToNumber.

(** The link a sender makes for a file, with the fragment mark. *)
Definition link_for (f : File) (secret : jsstring) : jsstring :=
  match encode (OfferPayload_json
                  {| sdp := example_offer; fileName := name f;
                     fileSize := Z.to_N (size f);
                     passwordHash :=
                       match secret with
                       | [] => None
                       | _ => Some (example_hashPassword secret)
                       end |}) with
  | Some token => 35%N :: token
  | None => []
  end.

(** A sender has selected a file and asked for a link; its channel has
    just become open and [onopen] has not run yet. *)
Definition sender_ready (f : File) : World :=
  set_dc_open true
    (example_run accepting_answerOffer [FileChange (Some f); CreateLink]
       (page_load [] ∅)).

(** The sender once the channel has opened and the reads have completed one
    after the other. *)
Definition sender_session (f : File) : World :=
  example_run accepting_answerOffer
    ([FileChange (Some f); CreateLink; ChannelOpen]
     ++ repeat FileReaderLoad (Z.to_nat (size f / CHUNK_SIZE + 1)))
    (page_load [] ∅).

(** The messages the sender has put on the channel. *)
Definition sender_messages (f : File) : list MessageData :=
  match dataChannel (sender_session f) with
  | Some ch => dc_sent ch
  | None => []
  end.

(** A responder opens a link, with [ls] in the local storage, and receives
    the messages of the channel the initiator created. *)
Definition receiver_session (hash : jsstring) (ls : gmap jsstring jsstring)
  (msgs : list MessageData) : World :=
  example_run accepting_answerOffer
    ([Effect; DataChannel true] ++ map ChannelMessage msgs)
    (page_load hash ls).

(** Files of the scenarios. *)
Definition recipe : File :=
  {| name := js "recipe.txt"; bytes := [Byte.x62; Byte.x75; Byte.x6e] |}.

Definition empty_file : File := {| name := js "empty.txt"; bytes := [] |}.

Definition two_frame_file : File :=
  {| name := js "menu.bin"; bytes := repeat Byte.x2a (Z.to_nat 16385) |}.


(** A file whose name starts with the Cyrillic letter Zhe (U+0416). *)
Definition cyrillic_named : File :=
  {| name := 1046%N :: js ".txt"; bytes := [Byte.x62; Byte.x75; Byte.x6e] |}.

(** A token that decodes to an object with a digest and nothing else. *)
Definition digest_only : json := JObject [(js "passwordHash", JString (js "x"))].

(** An object that holds the digest of the secret a and nothing else. *)
Definition digest_of_a : json :=
  JObject [(js "passwordHash", JString (example_hashPassword (js "a")))].

Definition link_of_json (v : json) : jsstring :=
  match encode v with
  | Some token => 35%N :: token
  | None => []
  end.

(** A responder has opened the link of [recipe] protected by the secret
    swordfish: the effect has run. *)
Definition gated_world : World :=
  example_run accepting_answerOffer [Effect]
    (page_load (link_for recipe (js "swordfish")) ∅).

Definition gated_payload : json :=
  OfferPayload_json
    {| sdp := example_offer; fileName := name recipe;
       fileSize := Z.to_N (size recipe);
       passwordHash := Some (example_hashPassword (js "swordfish")) |}.

(** ** The groups of the base64 encoding *)

Section Base64Groups.
Local Open Scope N_scope.

(** The sextets of the groups of three bytes, and the padding. *)
Fixpoint b64_groups (s : jsstring) : list N :=
  match s with
  | [] => []
  | [a] => [a / 4; (a mod 4) * 16]
  | [a; b] => [a / 4; (a mod 4) * 16 + b / 16; (b mod 16) * 4]
  | a :: b :: c :: r =>
      a / 4 :: (a mod 4) * 16 + b / 16 :: (b mod 16) * 4 + c / 64 :: c mod 64
      :: b64_groups r
  end.

Fixpoint b64_padding (s : jsstring) : jsstring :=
  match s with
  | [] => []
  | [_] => [61; 61]
  | [_; _] => [61]
  | _ :: _ :: _ :: r => b64_padding r
  end.

End Base64Groups.

(** ** Notions of the round trip *)

Section RoundTripNotions.
Local Open Scope N_scope.

(** Fuel [f] is enough for [n] when [n] has at most [f] digits. *)
Definition enough (f : nat) (n : N) : Prop := (1 <= f)%nat /\ n < 10 ^ N.of_nat f.

(** A character that ends a number in the text of an object or array. *)
Definition ends_number (rest : jsstring) : Prop :=
  match rest with
  | c :: _ => c = 44 \/ c = 125 \/ c = 93
  | [] => True
  end.

(** The text of one member of an object. *)
Definition member_text (kv : jsstring * json) : jsstring :=
  quote (fst kv) ++ [58] ++ JSON_stringify (snd kv).

(** [v] is read back from its text, followed by the end of the text or by a
    character that closes or continues an object or array, with any fuel
    from [f0] on. *)
Definition reads (f0 : nat) (v : json) : Prop :=
  forall (f : nat) (rest : jsstring),
  (f0 <= f)%nat -> ends_number rest ->
  parse_value f (JSON_stringify v ++ rest) = Parsed v rest.

(** The strings of a payload are in Latin-1 and its size is an integer a
    number holds exactly. *)
Definition latin1_payload (p : OfferPayload) : Prop :=
  latin1 (sd_type (sdp p)) = true
  /\ latin1 (sd_sdp (sdp p)) = true
  /\ latin1 (fileName p) = true
  /\ match passwordHash p with Some h => latin1 h = true | None => True end
  /\ fileSize p < 2 ^ 53.

End RoundTripNotions.

(** ** Notions of the specification *)

(** A text message is a control message when its structured decode succeeds
    and the decoded value carries the recognised tag. *)
Definition is_control (s : jsstring) : bool :=
  match JSON_parse s with
  | Some msg =>
      match get_prop msg (js "type") with
      | Some t => strict_eq_string t (js "done")
      | None => false
      end
  | None => false
  end.

(** The first [k] frames of a file, each of [CHUNK_SIZE] bytes, in file
    order. *)
Definition full_frames (f : File) (k : nat) : list (list Byte.byte) :=
  map (fun i => slice (bytes f) (CHUNK_SIZE * Z.of_nat i)
                      (CHUNK_SIZE * Z.of_nat i + CHUNK_SIZE))
      (seq 0 k).

(** ** Tokens *)

(** A token without its padding characters. *)
Definition unpadded (token : jsstring) : jsstring :=
  List.filter (fun c => negb (c =? 61)%N) token.

(** The characters of a token: the base64 alphabet and the padding. *)
Definition is_token_char (c : N) : bool :=
  match b64_value c with
  | Some _ => true
  | None => (c =? 61)%N
  end.

(** ** The controls of the views *)

(** What [renderContent] offers the user in the view of a render: the file
    input, the password input and the link button (disabled without a file)
    in [idle]; the counter-signal form in [awaitingAnswer] and the secret
    form in [awaitingPassword], each with a required field; the reset button
    in [transferComplete] and [error].  The effect, the transport, the
    channel and the file reader raise their events in every state. *)
Definition offered (ev : Event) (s : Store) : bool :=
  match ev with
  | FileChange _ | PasswordChange _ => AppState.eqb (appState s) AppState.idle
  | CreateLink =>
      AppState.eqb (appState s) AppState.idle && negb (bool_decide (file s = None))
  | Connect answerStr =>
      AppState.eqb (appState s) AppState.awaitingAnswer
      && negb (bool_decide (answerStr = []))
  | PasswordSubmit pass =>
      AppState.eqb (appState s) AppState.awaitingPassword
      && negb (bool_decide (pass = []))
  | Reset =>
      AppState.eqb (appState s) AppState.transferComplete
      || AppState.eqb (appState s) AppState.error
  | _ => true
  end.

Section Sessions.

Variable hashPassword : jsstring -> jsstring.
Variable createOffer : option RTCSessionDescription.
Variable answerOffer : jsvalue -> option RTCSessionDescription.
Variable acceptAnswer : json -> bool.
Variable ToNumber : jsvalue -> float.

(** A run in which every event of the user is one the view of the last
    render offers; [None] when an event is not offered. *)
Fixpoint session (evs : list Event) (w : World) : option World :=
  match evs with
  | [] => Some w
  | ev :: evs =>
      if offered ev (store w)
      then session evs (step hashPassword createOffer answerOffer acceptAnswer
                             ToNumber ev w)
      else None
  end.

End Sessions.

(** No handshake token has been produced, and every connection was created
    by a render in [idle] or [awaitingPassword]. *)
Definition no_token (w : World) : Prop :=
  offer (store w) = None
  /\ appState (store w) <> AppState.awaitingAnswer
  /\ appState (store w) <> AppState.connecting
  /\ match peerConnection w with
     | Some pc =>
         appState (pc_env pc) = AppState.idle
         \/ appState (pc_env pc) = AppState.awaitingPassword
     | None => True
     end.

(** ** States of the two peers *)

(** The render of a responder waiting for the secret. *)
Definition awaiting_store (e : option jsstring) : Store :=
  {| appState := AppState.awaitingPassword; file := None; password := [];
     error := e; offer := None; isCopied := false; progress := Z2float 0;
     transferredBytes := 0; receivedFileInfo := None; receivedFileChunks := [] |}.

(** The responder of a protected link once the effect has stored the pending
    payload, with the message [e] on display. *)
Definition awaiting_world (e : option jsstring) (hash : jsstring)
  (ls : gmap jsstring jsstring) : World :=
  {| store := awaiting_store e; memo := awaiting_store None; downloadUrl := None;
     peerConnection := None; dataChannel := None; fileReader := None;
     localStorage := ls; location_hash := hash |}.

(** The file metadata [processOffer] takes from a payload. *)
Definition info_of (p : OfferPayload) : FileInfo :=
  {| info_name := Some (JString (fileName p));
     info_size := Some (number_of_N (fileSize p)) |}.

(** ** Sequences of messages and reads *)

(** The binary messages of a sequence, in order. *)
Definition binary_payloads (msgs : list MessageData) : list (list Byte.byte) :=
  flat_map (fun m => match m with Binary b => [b] | Text _ => [] end) msgs.

(** Whether a sequence of messages holds a control message. *)
Definition has_control (msgs : list MessageData) : bool :=
  existsb (fun m => match m with Text s => is_control s | Binary _ => false end) msgs.

(** The store of a sender that has selected [f]. *)
Definition selected_store (f : File) : Store :=
  {| appState := AppState.idle; file := Some f; password := []; error := None;
     offer := None; isCopied := false; progress := Z2float 0;
     transferredBytes := 0; receivedFileInfo := None; receivedFileChunks := [] |}.

(** [renderProgress] shows the download link when the transfer is complete,
    no file is selected and a download URL exists. *)
Definition download_offered (w : World) : bool :=
  AppState.eqb (appState (store w)) AppState.transferComplete
  && bool_decide (file (store w) = None)
  && negb (bool_decide (downloadUrl w = None)).

(** The sender's loop after [n] completed reads, with more of the file
    left: the slice at offset [n * CHUNK_SIZE] is being read on an open
    channel. *)
Definition reading_frame (f : File) (n : nat) (w : World) : Prop :=
  fileReader w
  = Some {| fr_file := f; fr_offset := CHUNK_SIZE * Z.of_nat n;
            fr_reading := Some (slice (bytes f) (CHUNK_SIZE * Z.of_nat n)
                                      (CHUNK_SIZE * Z.of_nat n + CHUNK_SIZE)) |}
  /\ (exists ch, dataChannel w = Some ch /\ dc_open ch = true)
  /\ (CHUNK_SIZE * Z.of_nat n < size f \/ n = 0%nat)%Z
  /\ (n <> 0%nat -> transferredBytes (store w) = CHUNK_SIZE * Z.of_nat n)%Z.

(** After [n] reads, the last of which reached the end of the file. *)
Definition reading_done (f : File) (n : nat) (w : World) : Prop :=
  fileReader w = Some {| fr_file := f; fr_offset := size f; fr_reading := None |}
  /\ (size f <= CHUNK_SIZE * Z.of_nat n)%Z
  /\ n <> 0%nat
  /\ transferredBytes (store w) = size f.

(** ** Worlds of the worked examples *)

(** The payload of [recipe] protected by the secret swordfish, and the
    payload of [recipe] without secret. *)
Definition protected_payload : OfferPayload :=
  {| sdp := example_offer; fileName := name recipe;
     fileSize := Z.to_N (size recipe);
     passwordHash := Some (example_hashPassword (js "swordfish")) |}.

Definition open_payload : OfferPayload :=
  {| sdp := example_offer; fileName := name recipe;
     fileSize := Z.to_N (size recipe); passwordHash := None |}.

(** The connection and the channel of a responder that opened a link
    without secret. *)
Definition responder_connection : RTCPeerConnection :=
  {| pc_env := initial_store; localDescription := Some example_answer |}.

Definition responder_channel : RTCDataChannel :=
  {| dc_env := initial_store; dc_open := true; dc_sent := [] |}.

(** A responder that opened the link of [recipe]; the initiator's channel
    has arrived. *)
Definition responder_ready : World :=
  example_run accepting_answerOffer [Effect; DataChannel true]
    (page_load (link_for recipe []) ∅).

(** A sender that selected [recipe] and typed a secret. *)
Definition sender_idle : World :=
  example_run accepting_answerOffer
    [FileChange (Some recipe); PasswordChange (js "swordfish")]
    (page_load [] ∅).

(** A sender whose channel closed while the first slice was being read. *)
Definition sender_cut_off : World :=
  example_run accepting_answerOffer
    [FileChange (Some recipe); CreateLink; ChannelOpen; ChannelClose]
    (page_load [] ∅).

(** A responder that has received [recipe] and the control message. *)
Definition responder_complete : World :=
  example_run accepting_answerOffer
    (map ChannelMessage [Binary (bytes recipe); Text done_message])
    responder_ready.

(** * Properties *)

(** ** Tactics *)

Ltac divlia := zify; Z.to_euclidean_division_equations; lia.

Ltac case_cmp :=
  repeat match goal with
         | |- context [(?a <? ?b)%N] => destruct (N.ltb_spec a b)
         | |- context [(?a <=? ?b)%N] => destruct (N.leb_spec a b)
         | |- context [(?a =? ?b)%N] => destruct (N.eqb_spec a b)
         end.

(** ** [atob] inverts [btoa] *)

Section Base64Facts.
Local Open Scope N_scope.

Lemma list_ind3 {A : Type} (P : list A -> Prop) :
  P [] -> (forall a, P [a]) -> (forall a b, P [a; b]) ->
  (forall a b c r, P r -> P (a :: b :: c :: r)) ->
  forall l, P l.
Proof.
  intros H0 H1 H2 H3.
  fix IH 1. intros [|a [|b [|c r]]];
    [exact H0 | exact (H1 a) | exact (H2 a b) | exact (H3 a b c r (IH r))].
Qed.

Lemma b64_value_char (v : N) : v < 64 -> b64_value (b64_char v) = Some v.
Proof.
  intros H. unfold b64_char. case_cmp; unfold b64_value; case_cmp;
    cbn [andb]; try lia; f_equal; lia.
Qed.

Lemma b64_char_plain (v : N) :
  v < 64 -> is_ascii_whitespace (b64_char v) = false /\ b64_char v <> 61.
Proof.
  intros H. unfold b64_char, is_ascii_whitespace.
  case_cmp; cbn [orb]; split; try reflexivity; try lia.
Qed.

Lemma b64_encode_groups (s : jsstring) :
  b64_encode s = map b64_char (b64_groups s) ++ b64_padding s.
Proof.
  induction s as [|a|a b|a b c r IH] using list_ind3; try reflexivity.
  cbn [b64_encode b64_groups b64_padding map app]. rewrite IH. reflexivity.
Qed.

Lemma b64_groups_bound (s : jsstring) :
  latin1 s = true -> Forall (fun v => v < 64) (b64_groups s).
Proof.
  unfold latin1.
  induction s as [|a|a b|a b c r IH] using list_ind3; cbn [forallb b64_groups];
    rewrite ?andb_true_iff, ?N.leb_le; intros H.
  - constructor.
  - repeat (apply List.Forall_cons; [divlia|]).
    constructor.
  - repeat (apply List.Forall_cons; [divlia|]).
    constructor.
  - destruct H as (Ha & Hb & Hc & Hr).
    repeat (apply List.Forall_cons; [divlia|]).
    apply IH. exact Hr.
Qed.

Lemma b64_decode_groups (s : jsstring) :
  latin1 s = true -> b64_decode (b64_groups s) = s.
Proof.
  unfold latin1.
  induction s as [|a|a b|a b c r IH] using list_ind3; cbn [forallb b64_groups b64_decode];
    rewrite ?andb_true_iff, ?N.leb_le; intros H.
  - reflexivity.
  - f_equal. divlia.
  - f_equal; [|f_equal]; divlia.
  - destruct H as (Ha & Hb & Hc & Hr). rewrite (IH Hr).
    f_equal; [|f_equal; [|f_equal]]; divlia.
Qed.

Lemma sextets_chars (vs : list N) :
  Forall (fun v => v < 64) vs -> sextets (map b64_char vs) = Some vs.
Proof.
  induction 1 as [|v vs Hv _ IH]; [reflexivity|].
  cbn [map sextets]. rewrite (b64_value_char v Hv), IH. reflexivity.
Qed.

Lemma b64_lengths (s : jsstring) :
  exists q r : nat,
    length (b64_groups s) = (4 * q + r)%nat
    /\ (r = 0 \/ r = 2 \/ r = 3)%nat
    /\ (length (b64_groups s) + length (b64_padding s) = 4 * (q + Nat.min r 1))%nat.
Proof.
  induction s as [|a|a b|a b c r IH] using list_ind3.
  - exists 0%nat, 0%nat. simpl. lia.
  - exists 0%nat, 2%nat. simpl. lia.
  - exists 0%nat, 3%nat. simpl. lia.
  - destruct IH as (q & r' & H1 & H2 & H3). exists (S q), r'.
    cbn [b64_groups b64_padding length]. lia.
Qed.

Lemma strip_padding_encoded (l pad : jsstring) :
  Forall (fun c => c <> 61) l ->
  pad = [] \/ pad = [61] \/ pad = [61; 61] ->
  strip_padding (l ++ pad) = l.
Proof.
  intros Hl Hpad. unfold strip_padding. rewrite rev_app_distr.
  assert (Hrev : Forall (fun c => c <> 61) (rev l)).
  { apply Forall_forall. intros c Hc. apply list_elem_of_In, in_rev in Hc.
    rewrite Forall_forall in Hl. apply Hl, list_elem_of_In, Hc. }
  destruct Hpad as [->|[->| ->]]; cbn [rev app].
  - rewrite app_nil_r.
    destruct (rev l) as [|c1 [|c2 r]] eqn:E; [reflexivity| |].
    + apply Forall_cons in Hrev as [H1 _].
      destruct (N.eqb_spec c1 61); [contradiction|reflexivity].
    + apply Forall_cons in Hrev as [H1 _].
      destruct (N.eqb_spec c1 61); [contradiction|reflexivity].
  - destruct (rev l) as [|c2 r] eqn:E.
    + cbn. apply (f_equal (@rev N)) in E. rewrite rev_involutive in E. auto.
    + apply Forall_cons in Hrev as [H2 _].
      cbn [N.eqb Pos.eqb]. destruct (N.eqb_spec c2 61); [contradiction|].
      rewrite <- (rev_involutive l), E. reflexivity.
  - cbn. apply rev_involutive.
Qed.

Lemma filter_all {A : Type} (p : A -> bool) (l : list A) :
  Forall (fun x => p x = true) l -> List.filter p l = l.
Proof.
  induction 1 as [|x l Hx _ IH]; [reflexivity|].
  cbn [List.filter]. rewrite Hx, IH. reflexivity.
Qed.

(** [atob(btoa(s))] is [s] for every string [btoa] accepts. *)
Lemma atob_btoa (s t : jsstring) : btoa s = Some t -> atob t = Some s.
Proof.
  unfold btoa. destruct (latin1 s) eqn:Hs; [|discriminate].
  intros H. inversion H; subst t; clear H.
  pose proof (b64_groups_bound s Hs) as Hb.
  destruct (b64_lengths s) as (q & r & Hg & Hr & Hall).
  assert (Hpad : b64_padding s = [] \/ b64_padding s = [61] \/ b64_padding s = [61; 61]).
  { clear. induction s as [|a|a b|a b c r IH] using list_ind3; cbn; auto. }
  assert (Hplain : Forall (fun c => c <> 61) (map b64_char (b64_groups s))).
  { apply Forall_map. eapply Forall_impl; [exact Hb|].
    intros v Hv. apply (b64_char_plain v Hv). }
  unfold atob. rewrite b64_encode_groups.
  rewrite filter_all.
  2:{ apply Forall_app. split.
      - apply Forall_map. eapply Forall_impl; [exact Hb|].
        intros v Hv. cbn. destruct (b64_char_plain v Hv) as [-> _]. reflexivity.
      - destruct Hpad as [->|[->| ->]]; repeat constructor. }
  rewrite length_app, length_map, Hall.
  replace (4 * (q + Nat.min r 1) mod 4)%nat with 0%nat
    by (rewrite Nat.mul_comm, Nat.Div0.mod_mul; reflexivity).
  cbn [Nat.eqb]. rewrite (strip_padding_encoded _ _ Hplain Hpad).
  rewrite length_map, Hg.
  replace ((4 * q + r) mod 4)%nat with r.
  2:{ rewrite Nat.add_comm, Nat.mul_comm, Nat.Div0.mod_add.
      destruct Hr as [->|[->| ->]]; reflexivity. }
  replace (r =? 1)%nat with false
    by (destruct Hr as [->|[->| ->]]; reflexivity).
  rewrite (sextets_chars _ Hb). cbn [option_map].
  rewrite (b64_decode_groups s Hs). reflexivity.
Qed.

End Base64Facts.

(** ** The parser consumes its input *)

Section ParserFuel.
Local Open Scope nat_scope.

Lemma skip_ws_length (s : jsstring) : length (skip_ws s) <= length s.
Proof.
  induction s as [|c r IH]; simpl; [lia|].
  destruct (is_json_ws c); simpl; lia.
Qed.

Lemma parse_string_body_length (n : nat) :
  forall (s str rest : jsstring),
  length s <= n ->
  parse_string_body s = Some (str, rest) -> length rest < length s.
Proof.
  induction n as [|n IH]; intros s str rest Hn H.
  - destruct s; [discriminate|simpl in Hn; lia].
  - destruct s as [|c r]; [discriminate|]. simpl in H, Hn.
    destruct (c =? 34)%N.
    { inversion H; subst. simpl. lia. }
    destruct (c =? 92)%N.
    { destruct r as [|e r1]; [discriminate|].
      destruct (e =? 117)%N.
      - destruct r1 as [|h1 [|h2 [|h3 [|h4 r2]]]]; try discriminate.
        destruct (hex4 h1 h2 h3 h4); [|discriminate].
        destruct (parse_string_body r2) as [[str' rest']|] eqn:E; [|discriminate].
        inversion H; subst. apply IH in E; simpl in *; lia.
      - destruct (simple_escape e); [|discriminate].
        destruct (parse_string_body r1) as [[str' rest']|] eqn:E; [|discriminate].
        inversion H; subst. apply IH in E; simpl in *; lia. }
    destruct (c <? 32)%N; [discriminate|].
    destruct (parse_string_body r) as [[str' rest']|] eqn:E; [|discriminate].
    inversion H; subst. apply IH in E; simpl in *; lia.
Qed.

Lemma span_digits_length (s : jsstring) :
  length (snd (span_digits s)) <= length s.
Proof.
  induction s as [|c r IH]; simpl; [lia|].
  destruct (is_digit c); simpl; [|lia].
  destruct (span_digits r); simpl in *. lia.
Qed.

Lemma parse_number_length (s : jsstring) (d : decimal) (rest : jsstring) :
  parse_number s = Some (d, rest) -> length rest < length s.
Proof.
  unfold parse_number. intros H.
  set (p := match s with
            | c :: r => if (c =? 45)%N then (true, r) else (false, s)
            | [] => (false, s)
            end) in H.
  assert (Hp : length (snd p) <= length s).
  { unfold p. destruct s as [|c r]; simpl; [lia|].
    destruct (c =? 45)%N; simpl; lia. }
  destruct p as [neg s1]. simpl in Hp.
  destruct (parse_int s1) as [[ip s2]|] eqn:Ei; [|discriminate].
  assert (H2 : length s2 < length s1).
  { unfold parse_int in Ei. destruct s1 as [|c r]; [discriminate|].
    destruct (c =? 48)%N; [inversion Ei; subst; simpl; lia|].
    destruct (is_digit c); [|discriminate].
    pose proof (span_digits_length r) as Hs.
    destruct (span_digits r) as [ds rr]. inversion Ei; subst. simpl in *. lia. }
  destruct (parse_frac s2) as [[fp s3]|] eqn:Ef; [|discriminate].
  assert (H3 : length s3 <= length s2).
  { unfold parse_frac in Ef. destruct s2 as [|c r]; [inversion Ef; subst; simpl; lia|].
    destruct (c =? 46)%N.
    - pose proof (span_digits_length r) as Hs.
      destruct (span_digits r) as [[|d0 ds] rr]; [discriminate|].
      inversion Ef; subst. simpl in *. lia.
    - inversion Ef; subst. lia. }
  destruct (parse_exp s3) as [[x s4]|] eqn:Ee; [|discriminate].
  assert (H4 : length s4 <= length s3).
  { unfold parse_exp in Ee. destruct s3 as [|c r]; [inversion Ee; subst; simpl; lia|].
    destruct ((c =? 101)%N || (c =? 69)%N).
    - set (q := match r with
                | sg :: r' =>
                    if (sg =? 45)%N then (true, r')
                    else if (sg =? 43)%N then (false, r') else (false, r)
                | [] => (false, r)
                end) in Ee.
      assert (Hq : length (snd q) <= length r).
      { unfold q. destruct r as [|sg r']; simpl; [lia|].
        destruct (sg =? 45)%N; simpl; [lia|]. destruct (sg =? 43)%N; simpl; lia. }
      destruct q as [ng r1]. simpl in Hq.
      pose proof (span_digits_length r1) as Hs.
      destruct (span_digits r1) as [[|d0 ds] rr]; [discriminate|].
      inversion Ee; subst. simpl in *. lia.
    - inversion Ee; subst. lia. }
  inversion H; subst. lia.
Qed.

Lemma literal_length (word : jsstring) (v v' : json) (s rest : jsstring) :
  word <> [] ->
  literal word v s = Parsed v' rest -> length rest < length s.
Proof.
  unfold literal, jsstring_eqb. intros Hw H.
  case_bool_decide as E; [|discriminate].
  inversion H; subst.
  assert (length (firstn (length word) s) = length word) by (rewrite E; reflexivity).
  rewrite length_take in *. rewrite length_drop.
  destruct word; [contradiction|]. cbn [length] in *. lia.
Qed.

Ltac parse_case H :=
  match type of H with
  | context [match skip_ws ?x with _ => _ end] =>
      let E := fresh "Ews" in
      let L := fresh "Lws" in
      pose proof (skip_ws_length x) as L;
      destruct (skip_ws x) eqn:E; cbn [length] in L
  | context [match parse_string_body ?x with _ => _ end] =>
      let E := fresh "Estr" in
      destruct (parse_string_body x) as [[? ?]|] eqn:E;
      [apply (parse_string_body_length _ _ _ _ (le_n _)) in E|]
  | context [match parse_number ?x with _ => _ end] =>
      let E := fresh "Enum" in
      destruct (parse_number x) as [[? ?]|] eqn:E;
      [apply parse_number_length in E|]
  | context [match parse_value ?f ?x with _ => _ end] =>
      let E := fresh "Eval" in destruct (parse_value f x) eqn:E
  | context [match parse_elements ?f ?a ?x with _ => _ end] =>
      let E := fresh "Eelt" in destruct (parse_elements f a x) eqn:E
  | context [match parse_members ?f ?a ?x with _ => _ end] =>
      let E := fresh "Emem" in destruct (parse_members f a x) eqn:E
  | context [if ?b then _ else _] => destruct b
  end.

Lemma parse_consumes (fuel : nat) :
  (forall s v r, parse_value fuel s = Parsed v r -> length r < length s)
  /\ (forall acc s l r, parse_elements fuel acc s = Parsed l r -> length r < length s)
  /\ (forall acc s p r, parse_members fuel acc s = Parsed p r -> length r < length s).
Proof.
  induction fuel as [|fuel (IHv & IHe & IHm)].
  - repeat split; intros; discriminate.
  - repeat split.
    + intros s v r H. cbn [parse_value] in H.
      repeat parse_case H; try discriminate;
        try (apply literal_length in H; [|discriminate]);
        try match type of H with Parsed _ _ = Parsed _ _ => inversion H; subst; clear H end;
        repeat match goal with
               | E : parse_elements _ _ _ = Parsed _ _ |- _ => apply IHe in E
               | E : parse_members _ _ _ = Parsed _ _ |- _ => apply IHm in E
               end;
        cbn [length] in *; lia.
    + intros acc s l r H. cbn [parse_elements] in H.
      repeat parse_case H; try discriminate;
        try match type of H with
            | Parsed _ _ = Parsed _ _ => inversion H; subst; clear H
            | parse_elements _ _ _ = Parsed _ _ => apply IHe in H
            end;
        repeat match goal with
               | E : parse_value _ _ = Parsed _ _ |- _ => apply IHv in E
               end;
        cbn [length] in *; lia.
    + intros acc s p r H. cbn [parse_members] in H.
      repeat parse_case H; try discriminate;
        try match type of H with
            | Parsed _ _ = Parsed _ _ => inversion H; subst; clear H
            | parse_members _ _ _ = Parsed _ _ => apply IHm in H
            end;
        repeat match goal with
               | E : parse_value _ _ = Parsed _ _ |- _ => apply IHv in E
               end;
        cbn [length] in *; lia.
Qed.

(** With fuel above twice the length of the text the parser never stops for
    lack of fuel: [None] from [JSON_parse] is a syntax error. *)
Lemma parse_fuel (fuel : nat) :
  (forall s, 2 * length s < fuel -> parse_value fuel s <> OutOfFuel)
  /\ (forall acc s, 2 * length s + 1 < fuel -> parse_elements fuel acc s <> OutOfFuel)
  /\ (forall acc s, 2 * length s < fuel -> parse_members fuel acc s <> OutOfFuel).
Proof.
  induction fuel as [|fuel (IHv & IHe & IHm)].
  - repeat split; intros; lia.
  - destruct (parse_consumes fuel) as (Cv & Ce & Cm).
    repeat split.
    + intros s Hf H. cbn [parse_value] in H.
      repeat parse_case H; try discriminate;
        try (unfold literal in H; destruct (jsstring_eqb _ _); discriminate);
        try match goal with
            | E : parse_elements _ _ _ = OutOfFuel |- _ => apply IHe in E; [contradiction|]
            | E : parse_members _ _ _ = OutOfFuel |- _ => apply IHm in E; [contradiction|]
            end;
        cbn [length] in *; lia.
    + intros acc s Hf H. cbn [parse_elements] in H.
      repeat parse_case H; try discriminate;
        repeat match goal with
               | E : parse_value _ _ = Parsed _ _ |- _ => apply Cv in E
               end;
        try match goal with
            | E : parse_value _ _ = OutOfFuel |- _ => apply IHv in E; [contradiction|]
            end;
        try (apply IHe in H; [contradiction|]);
        cbn [length] in *; lia.
    + intros acc s Hf H. cbn [parse_members] in H.
      repeat parse_case H; try discriminate;
        repeat match goal with
               | E : parse_value _ _ = Parsed _ _ |- _ => apply Cv in E
               end;
        try match goal with
            | E : parse_value _ _ = OutOfFuel |- _ => apply IHv in E; [contradiction|]
            end;
        try (apply IHm in H; [contradiction|]);
        cbn [length] in *; lia.
Qed.

Lemma JSON_parse_fuel (s : jsstring) :
  parse_value (S (2 * length s)) s <> OutOfFuel.
Proof. apply (parse_fuel (S (2 * length s))). lia. Qed.

End ParserFuel.


(** ** [JSON.parse] reads what [JSON.stringify] writes *)

Section StringRoundTrip.
Local Open Scope N_scope.

Lemma hex_value_digit (v : N) : v < 16 -> hex_value (hex_digit v) = Some v.
Proof.
  intros H. unfold hex_digit. case_cmp; unfold hex_value, is_digit; case_cmp;
    cbn [andb]; try lia; f_equal; lia.
Qed.

Lemma hex4_escape (c : N) :
  c < 65536 ->
  hex4 (hex_digit (c / 4096)) (hex_digit ((c / 256) mod 16))
       (hex_digit ((c / 16) mod 16)) (hex_digit (c mod 16)) = Some c.
Proof.
  intros H. unfold hex4.
  rewrite !hex_value_digit by divlia. f_equal. divlia.
Qed.

Lemma parse_quote_unit (c : N) (rest str rest' : jsstring) :
  c < 65536 ->
  parse_string_body rest = Some (str, rest') ->
  parse_string_body (quote_unit c ++ rest) = Some (c :: str, rest').
Proof.
  intros Hc H. unfold quote_unit.
  repeat match goal with
         | |- context [if (c =? ?k) then _ else _] =>
             destruct (N.eqb_spec c k); [subst c; simpl; rewrite H; reflexivity|]
         end.
  destruct ((c <? 32) || is_high_surrogate c || is_low_surrogate c) eqn:E.
  - unfold unicode_escape. cbn [app parse_string_body].
    change (92 =? 34) with false. change (92 =? 92) with true.
    change (117 =? 117) with true. cbv iota.
    rewrite (hex4_escape c Hc), H. reflexivity.
  - apply orb_false_iff in E as [E _]. apply orb_false_iff in E as [E _].
    cbn [app parse_string_body].
    destruct (N.eqb_spec c 34); [contradiction|].
    destruct (N.eqb_spec c 92); [contradiction|].
    rewrite E, H. reflexivity.
Qed.

Lemma parse_surrogate (c : N) (rest str rest' : jsstring) :
  (is_high_surrogate c || is_low_surrogate c) = true ->
  parse_string_body rest = Some (str, rest') ->
  parse_string_body (c :: rest) = Some (c :: str, rest').
Proof.
  intros Hs H. cbn [parse_string_body].
  unfold is_high_surrogate, is_low_surrogate in Hs.
  destruct (N.eqb_spec c 34); [subst; discriminate|].
  destruct (N.eqb_spec c 92); [subst; discriminate|].
  destruct (N.ltb_spec c 32).
  - exfalso. revert Hs. case_cmp; cbn; intros; try discriminate; lia.
  - rewrite H. reflexivity.
Qed.

Lemma parse_quote_body (n : nat) :
  forall (s rest : jsstring),
  (length s <= n)%nat ->
  code_units s ->
  parse_string_body (quote_body s ++ 34 :: rest) = Some (s, rest).
Proof.
  induction n as [|n IH]; intros s rest Hn Hs.
  - destruct s; [reflexivity|simpl in Hn; lia].
  - destruct s as [|c r]; [reflexivity|].
    apply Forall_cons in Hs as [Hc Hr]. cbn [length] in Hn.
    cbn [quote_body]. destruct r as [|d r'].
    + rewrite (parse_quote_unit c (34 :: rest) [] rest Hc); reflexivity.
    + destruct (is_high_surrogate c && is_low_surrogate d) eqn:E.
      * apply andb_true_iff in E as [E1 E2].
        apply Forall_cons in Hr as [Hd Hr']. cbn [length] in Hn.
        cbn [app].
        apply parse_surrogate; [rewrite E1; reflexivity|].
        apply parse_surrogate; [rewrite E2; apply orb_true_r|].
        apply IH; [lia|assumption].
      * rewrite <- app_assoc. apply parse_quote_unit; [assumption|].
        apply IH; [lia|assumption].
Qed.

(** A string literal is read back as the string it quotes. *)
Lemma parse_quote (s rest : jsstring) :
  code_units s ->
  parse_string_body (quote_body s ++ 34 :: rest) = Some (s, rest).
Proof. intros H. apply (parse_quote_body (length s)); [lia|assumption]. Qed.

End StringRoundTrip.

Section NumberRoundTrip.
Local Open Scope N_scope.

Lemma digits_aux_app (fuel : nat) :
  forall (n : N) (acc : jsstring),
  digits_aux fuel n acc = digits_aux fuel n [] ++ acc.
Proof.
  induction fuel as [|fuel IH]; intros n acc; [reflexivity|].
  cbn [digits_aux]. destruct (n <? 10); [reflexivity|].
  rewrite (IH _ (_ :: acc)), (IH _ [_]), <- app_assoc. reflexivity.
Qed.

Lemma digits_aux_S (fuel : nat) (n : N) (acc : jsstring) :
  digits_aux (S fuel) n acc =
  if n <? 10 then (48 + n mod 10) :: acc
  else digits_aux fuel (n / 10) ((48 + n mod 10) :: acc).
Proof. reflexivity. Qed.

Lemma enough_div (f : nat) (n : N) :
  enough (S f) n -> 10 <= n -> enough f (n / 10).
Proof.
  intros [_ H] Hn. rewrite Nat2N.inj_succ, N.pow_succ_r' in H.
  assert (Hq : n / 10 < 10 ^ N.of_nat f) by (apply N.Div0.div_lt_upper_bound; lia).
  split; [|exact Hq].
  destruct f; [|lia]. cbn in Hq. assert (1 <= n / 10) by divlia. lia.
Qed.

Lemma enough_log2 (n : N) : enough (S (N.to_nat (N.log2 n))) n.
Proof.
  split; [lia|]. rewrite Nat2N.inj_succ, N2Nat.id.
  destruct (N.eq_dec n 0) as [->|Hn]; [reflexivity|].
  destruct (N.log2_spec n) as [_ H]; [lia|].
  eapply N.lt_le_trans; [exact H|].
  apply N.pow_le_mono_l. lia.
Qed.

Lemma digits_aux_fuel (f1 : nat) :
  forall (f2 : nat) (n : N) (acc : jsstring),
  enough f1 n -> enough f2 n -> digits_aux f1 n acc = digits_aux f2 n acc.
Proof.
  induction f1 as [|f1 IH]; intros f2 n acc H1 H2.
  - destruct H1; lia.
  - destruct f2 as [|f2]; [destruct H2; lia|].
    cbn [digits_aux]. destruct (N.ltb_spec n 10); [reflexivity|].
    apply IH; apply enough_div; assumption.
Qed.

Lemma digits_of_eq (f : nat) (n : N) : enough f n -> digits_of n = digits_aux f n [].
Proof. intros H. apply digits_aux_fuel; [apply enough_log2|exact H]. Qed.

Lemma digits_aux_digits (fuel : nat) :
  forall (n : N) (acc : jsstring),
  Forall (fun c => is_digit c = true) acc ->
  Forall (fun c => is_digit c = true) (digits_aux fuel n acc).
Proof.
  induction fuel as [|fuel IH]; intros n acc Hacc; [exact Hacc|].
  cbn [digits_aux].
  assert (Hd : is_digit (48 + n mod 10) = true).
  { unfold is_digit. apply andb_true_iff. rewrite !N.leb_le. divlia. }
  destruct (n <? 10); [|apply IH]; constructor; assumption.
Qed.

Lemma digits_aux_value (fuel : nat) :
  forall n : N, enough fuel n -> digits_value (digits_aux fuel n []) = n.
Proof.
  unfold digits_value.
  induction fuel as [|fuel IH]; intros n Hn; [destruct Hn; lia|].
  cbn [digits_aux]. destruct (N.ltb_spec n 10) as [Hlt|Hge].
  - cbn [fold_left]. rewrite N.mod_small by assumption. lia.
  - rewrite digits_aux_app, fold_left_app. cbn [fold_left].
    rewrite (IH (n / 10)) by (apply enough_div; assumption). divlia.
Qed.

Lemma digits_aux_head (fuel : nat) :
  forall n : N, enough fuel n -> 0 < n ->
  exists c r, digits_aux fuel n [] = c :: r /\ c <> 48 /\ is_digit c = true.
Proof.
  induction fuel as [|fuel IH]; intros n Hn Hpos; [destruct Hn; lia|].
  cbn [digits_aux]. destruct (N.ltb_spec n 10) as [Hlt|Hge].
  - exists (48 + n mod 10), []. rewrite N.mod_small by assumption.
    repeat split; [lia|]. unfold is_digit. apply andb_true_iff.
    rewrite !N.leb_le. lia.
  - rewrite digits_aux_app.
    destruct (IH (n / 10)) as (c & r & E & Hc); [apply enough_div; assumption|divlia|].
    rewrite E. exists c, (r ++ [48 + n mod 10]). split; [reflexivity|exact Hc].
Qed.

Lemma digits_aux_length (fuel : nat) :
  forall (n : N) (acc : jsstring) (j : nat),
  (1 <= j)%nat -> n < 10 ^ N.of_nat j ->
  (length (digits_aux fuel n acc) <= j + length acc)%nat.
Proof.
  induction fuel as [|fuel IH]; intros n acc j Hj Hn; [simpl; lia|].
  cbn [digits_aux]. destruct (N.ltb_spec n 10) as [Hlt|Hge].
  - cbn [length]. lia.
  - destruct j as [|[|j]]; [lia|cbn in Hn; lia|].
    rewrite (IH (n / 10) _ (S j)).
    + cbn [length]. lia.
    + lia.
    + rewrite (Nat2N.inj_succ (S j)), N.pow_succ_r' in Hn.
      apply N.Div0.div_lt_upper_bound. lia.
Qed.

Lemma digits_of_times_ten (m : N) :
  0 < m -> digits_of (10 * m) = digits_of m ++ [48].
Proof.
  intros Hm.
  assert (He : enough (S (S (N.to_nat (N.log2 m)))) (10 * m)).
  { destruct (enough_log2 m) as [_ H]. split; [lia|].
    rewrite Nat2N.inj_succ, N.pow_succ_r'. lia. }
  rewrite (digits_of_eq _ _ He), digits_aux_S.
  destruct (N.ltb_spec (10 * m) 10); [lia|].
  rewrite digits_aux_app.
  replace (10 * m / 10) with m by divlia.
  replace ((10 * m) mod 10) with 0 by divlia.
  reflexivity.
Qed.

Lemma strip_zeros_digits (fuel : nat) :
  forall (m : N) (e : Z),
  0 < m ->
  let '(m', e') := strip_zeros fuel m e in
  (e <= e')%Z /\ 0 < m'
  /\ digits_of m' ++ repeat 48 (Z.to_nat (e' - e)) = digits_of m.
Proof.
  induction fuel as [|fuel IH]; intros m e Hm.
  - cbn. rewrite Z.sub_diag. cbn. rewrite app_nil_r. repeat split; [lia|assumption].
  - cbn [strip_zeros].
    destruct (N.ltb_spec 0 m); [|lia]. cbn [andb].
    destruct (N.eqb_spec (m mod 10) 0) as [E|E].
    + assert (Hq : 0 < m / 10) by divlia.
      specialize (IH (m / 10) (e + 1)%Z Hq).
      destruct (strip_zeros fuel (m / 10) (e + 1)%Z) as [m' e'].
      destruct IH as (He & Hm' & Hd). repeat split; [lia|assumption|].
      transitivity (digits_of (10 * (m / 10))); [|f_equal; divlia].
      rewrite digits_of_times_ten by assumption. rewrite <- Hd, <- app_assoc.
      f_equal.
      replace (Z.to_nat (e' - e)) with (S (Z.to_nat (e' - (e + 1)))) by lia.
      cbn [repeat]. rewrite repeat_cons. reflexivity.
    + rewrite Z.sub_diag. cbn. rewrite app_nil_r. repeat split; [lia|assumption].
Qed.

(** The text of a non-negative integer below 10^21 is its decimal
    expansion. *)
Lemma number_to_string_integer (n : N) :
  n < 10 ^ 21 -> number_to_string (Decimal false n 0) = digits_of n.
Proof.
  intros Hn. unfold number_to_string. cbn [d_mant d_exp d_neg].
  destruct (N.eqb_spec n 0) as [->|Hz]; [reflexivity|].
  pose proof (strip_zeros_digits (S (N.to_nat (N.log2 n))) n 0%Z) as H.
  destruct (strip_zeros (S (N.to_nat (N.log2 n))) n 0) as [m e].
  destruct H as (He & Hm & Hd); [lia|].
  rewrite Z.sub_0_r in Hd.
  assert (Hlen : (length (digits_of m) + Z.to_nat e <= 21)%nat).
  { assert (L := digits_aux_length (S (N.to_nat (N.log2 n))) n [] 21).
    fold (digits_of n) in L. rewrite <- Hd, length_app, repeat_length in L.
    cbn [length] in L. apply L; [lia|exact Hn]. }
  cbn [app].
  destruct (Z.leb_spec (Z.of_nat (length (digits_of m)))
                       (Z.of_nat (length (digits_of m)) + e)); [|lia].
  destruct (Z.leb_spec (Z.of_nat (length (digits_of m)) + e) 21); [|lia].
  cbn [andb]. rewrite <- Hd. do 2 f_equal. lia.
Qed.

Lemma span_digits_app (ds rest : jsstring) :
  Forall (fun c => is_digit c = true) ds ->
  match rest with [] => True | c :: _ => is_digit c = false end ->
  span_digits (ds ++ rest) = (ds, rest).
Proof.
  intros Hds Hrest. induction Hds as [|c ds Hc _ IH].
  - cbn [app]. destruct rest as [|c r]; [reflexivity|].
    cbn [span_digits]. rewrite Hrest. reflexivity.
  - cbn [app span_digits]. rewrite Hc, IH. reflexivity.
Qed.

Lemma parse_number_digits (n : N) (rest : jsstring) :
  ends_number rest ->
  parse_number (digits_of n ++ rest) = Some (Decimal false n 0, rest).
Proof.
  intros Hrest.
  assert (Hnd : match rest with [] => True | c :: _ => is_digit c = false end).
  { destruct rest as [|c r]; [exact I|].
    destruct Hrest as [->|[->| ->]]; reflexivity. }
  pose proof (digits_aux_digits (S (N.to_nat (N.log2 n))) n [] (List.Forall_nil _)) as Hds.
  pose proof (digits_aux_value _ n (enough_log2 n)) as Hv.
  fold (digits_of n) in Hds, Hv.
  assert (Htail : parse_frac rest = Some ([], rest) /\ parse_exp rest = Some (0%Z, rest)).
  { destruct rest as [|c r]; [split; reflexivity|].
    destruct Hrest as [->|[->| ->]]; split; reflexivity. }
  destruct Htail as [Hfrac Hexp].
  destruct (N.eq_dec n 0) as [->|Hz].
  - change (digits_of 0) with [48]. unfold parse_number. cbn [app].
    change (48 =? 45) with false. cbv iota. unfold parse_int.
    change (48 =? 48) with true. cbv iota.
    rewrite Hfrac, Hexp. reflexivity.
  - destruct (digits_aux_head _ n (enough_log2 n)) as (c & r & E & Hc & Hdc); [lia|].
    fold (digits_of n) in E. rewrite E in *. cbn [app].
    apply Forall_cons in Hds as [_ Hr].
    unfold parse_number.
    assert ((c =? 45) = false) as ->.
    { unfold is_digit in Hdc. apply andb_true_iff in Hdc. rewrite !N.leb_le in Hdc.
      apply N.eqb_neq. lia. }
    unfold parse_int.
    assert ((c =? 48) = false) as -> by (apply N.eqb_neq; exact Hc).
    rewrite Hdc, (span_digits_app r rest Hr Hnd), Hfrac, Hexp.
    rewrite app_nil_r, Hv. reflexivity.
Qed.

End NumberRoundTrip.

Section ObjectRoundTrip.
Local Open Scope N_scope.

Lemma reads_string (s : jsstring) : code_units s -> reads 1 (JString s).
Proof.
  intros Hs f rest Hf _. destruct f as [|f]; [lia|].
  cbn [JSON_stringify]. unfold quote. rewrite <- !app_assoc.
  cbn [app parse_value skip_ws].
  change (is_json_ws 34) with false. cbv iota.
  change (34 =? 123) with false. change (34 =? 91) with false.
  change (34 =? 34) with true. cbv iota.
  rewrite (parse_quote s rest Hs). reflexivity.
Qed.

Lemma reads_number (n : N) : n < 10 ^ 21 -> reads 1 (number_of_N n).
Proof.
  intros Hn f rest Hf Hrest. destruct f as [|f]; [lia|].
  unfold number_of_N. cbn [JSON_stringify].
  rewrite (number_to_string_integer n Hn).
  pose proof (parse_number_digits n rest Hrest) as Hp.
  assert (Hne : exists c r, digits_of n = c :: r /\ is_digit c = true).
  { destruct (N.eq_dec n 0) as [->|Hz].
    - exists 48, []. split; reflexivity.
    - destruct (digits_aux_head _ n (enough_log2 n)) as (c & r & E & _ & Hc); [lia|].
      exists c, r. split; assumption. }
  destruct Hne as (c & r & E & Hc). rewrite E in *. cbn [app] in *.
  unfold is_digit in Hc. apply andb_true_iff in Hc. rewrite !N.leb_le in Hc.
  cbn [parse_value skip_ws].
  assert (is_json_ws c = false) as ->.
  { unfold is_json_ws. case_cmp; cbn; try reflexivity; lia. }
  repeat match goal with
         | |- context [if (c =? ?k) then _ else _] =>
             destruct (N.eqb_spec c k); [lia|]
         end.
  rewrite Hp. reflexivity.
Qed.

Lemma parse_members_step (f : nat) (acc : list (jsstring * json))
  (k body : jsstring) :
  code_units k ->
  parse_members (S f) acc (quote k ++ 58 :: body) =
  match parse_value f body with
  | Parsed v r3 =>
      match skip_ws r3 with
      | c3 :: r4 =>
          if c3 =? 44 then parse_members f (obj_define k v acc) r4
          else if c3 =? 125 then Parsed (obj_define k v acc) r4
          else SyntaxError
      | [] => SyntaxError
      end
  | SyntaxError => SyntaxError
  | OutOfFuel => OutOfFuel
  end.
Proof.
  intros Hk. unfold quote. rewrite <- !app_assoc.
  cbn [app parse_members skip_ws].
  change (is_json_ws 34) with false. cbv iota.
  change (34 =? 34) with true. cbv iota.
  rewrite (parse_quote k _ Hk). cbn [skip_ws].
  change (is_json_ws 58) with false. cbv iota.
  change (58 =? 58) with true. cbv iota. reflexivity.
Qed.

Lemma parse_members_props (f0 : nat) :
  forall (props acc : list (jsstring * json)) (f : nat) (rest : jsstring),
  props <> [] ->
  Forall (fun kv => code_units (fst kv) /\ reads f0 (snd kv)) props ->
  (f0 + length props <= f)%nat ->
  parse_members f acc (join [44] (map member_text props) ++ 125 :: rest) =
  Parsed (fold_left (fun a kv => obj_define (fst kv) (snd kv) a) props acc) rest.
Proof.
  induction props as [|[k v] props IH]; intros acc f rest Hne Hall Hf;
    [contradiction|].
  apply Forall_cons in Hall as [[Hk Hv] Hall]. cbn [fst snd] in Hk, Hv.
  destruct f as [|f]; [cbn [length] in Hf; lia|]. cbn [length] in Hf.
  destruct props as [|kv2 props].
  - cbn [map join]. unfold member_text. cbn [fst snd].
    rewrite <- !app_assoc. cbn [app].
    rewrite (parse_members_step f acc k _ Hk).
    rewrite (Hv f (125 :: rest)) by (cbn; auto; lia).
    cbn [skip_ws]. change (is_json_ws 125) with false. cbv iota.
    change (125 =? 44) with false. change (125 =? 125) with true.
    reflexivity.
  - cbn [map join]. unfold member_text at 1. cbn [fst snd].
    rewrite <- !app_assoc. cbn [app].
    rewrite (parse_members_step f acc k _ Hk).
    rewrite (Hv f (44 :: _)) by (cbn; auto; lia).
    cbn [skip_ws]. change (is_json_ws 44) with false. cbv iota.
    change (44 =? 44) with true. cbv iota.
    cbn [fold_left fst snd].
    apply (IH (obj_define k v acc) f rest); [discriminate|assumption|].
    cbn [length] in *. lia.
Qed.

(** An object with at least one member, whose keys and values are read
    back, is read back as the object the members define in order. *)
Lemma reads_object (f0 : nat) (props : list (jsstring * json)) :
  props <> [] ->
  Forall (fun kv => code_units (fst kv) /\ reads f0 (snd kv)) props ->
  fold_left (fun a kv => obj_define (fst kv) (snd kv) a) props [] = props ->
  reads (S (f0 + length props)) (JObject props).
Proof.
  intros Hne Hall Hnorm f rest Hf _. destruct f as [|f]; [lia|].
  cbn [JSON_stringify]. fold (member_text).
  change (fun kv : jsstring * json => quote (fst kv) ++ [58] ++ JSON_stringify (snd kv))
    with member_text.
  rewrite <- !app_assoc. cbn [app].
  assert (Hstart : exists body, join [44] (map member_text props) ++ 125 :: rest
                                = 34 :: body).
  { destruct props as [|[k v] props]; [contradiction|].
    cbn [map join]. unfold member_text at 1, quote. cbn [fst].
    destruct props; rewrite <- ?app_assoc; cbn [app]; eauto. }
  destruct Hstart as [body Hbody].
  cbn [parse_value skip_ws]. change (is_json_ws 123) with false. cbv iota.
  change (123 =? 123) with true. cbv iota.
  rewrite Hbody. cbn [skip_ws]. change (is_json_ws 34) with false. cbv iota.
  change (34 =? 125) with false. cbv iota. rewrite <- Hbody.
  cbn [app].
  rewrite (parse_members_props f0 props [] f rest Hne Hall) by lia.
  rewrite Hnorm. reflexivity.
Qed.

End ObjectRoundTrip.

Section PayloadRoundTrip.
Local Open Scope N_scope.

Lemma latin1_code_units (s : jsstring) : latin1 s = true -> code_units s.
Proof.
  unfold latin1, code_units. rewrite forallb_forall, Forall_forall.
  intros H c Hc. apply list_elem_of_In, H, N.leb_le in Hc. lia.
Qed.

Lemma latin1_cons (c : N) (s : jsstring) : latin1 (c :: s) = (c <=? 255) && latin1 s.
Proof. reflexivity. Qed.

Lemma latin1_app (a b : jsstring) : latin1 (a ++ b) = latin1 a && latin1 b.
Proof. apply forallb_app. Qed.

Lemma latin1_quote_unit (c : N) : c <= 255 -> latin1 (quote_unit c) = true.
Proof.
  intros Hc. unfold quote_unit.
  repeat match goal with
         | |- context [if (c =? ?k) then _ else _] =>
             destruct (N.eqb_spec c k); [reflexivity|]
         end.
  destruct ((c <? 32) || is_high_surrogate c || is_low_surrogate c).
  - unfold unicode_escape, latin1, hex_digit. cbn [forallb].
    rewrite !andb_true_iff, !N.leb_le. repeat split; try lia; case_cmp; divlia.
  - cbn. rewrite andb_true_r. apply N.leb_le. exact Hc.
Qed.

Lemma latin1_quote_body (n : nat) :
  forall s : jsstring,
  (length s <= n)%nat -> latin1 s = true -> latin1 (quote_body s) = true.
Proof.
  induction n as [|n IH]; intros s Hn Hs.
  - destruct s; [reflexivity|simpl in Hn; lia].
  - destruct s as [|c r]; [reflexivity|].
    cbn [length] in Hn. unfold latin1 in Hs. cbn [forallb] in Hs.
    apply andb_true_iff in Hs as [Hc Hr]. apply N.leb_le in Hc.
    cbn [quote_body]. destruct r as [|d r'].
    + apply latin1_quote_unit. exact Hc.
    + assert (is_high_surrogate c = false) as ->.
      { unfold is_high_surrogate. case_cmp; cbn; try reflexivity; lia. }
      cbn [andb]. rewrite latin1_app, latin1_quote_unit by exact Hc.
      apply IH; [lia|exact Hr].
Qed.

Lemma latin1_quote (s : jsstring) : latin1 s = true -> latin1 (quote s) = true.
Proof.
  intros Hs. unfold quote. rewrite !latin1_app.
  rewrite (latin1_quote_body (length s) s (le_n _) Hs). reflexivity.
Qed.

Lemma latin1_digits (n : N) : latin1 (digits_of n) = true.
Proof.
  pose proof (digits_aux_digits (S (N.to_nat (N.log2 n))) n [] (List.Forall_nil _)) as H.
  fold (digits_of n) in H. unfold latin1. apply forallb_forall.
  rewrite Forall_forall in H. intros c Hc. apply list_elem_of_In, H in Hc.
  unfold is_digit in Hc. apply andb_true_iff in Hc as [_ Hc].
  rewrite N.leb_le in *. lia.
Qed.

Lemma reads_mono (f0 f1 : nat) (v : json) :
  (f0 <= f1)%nat -> reads f0 v -> reads f1 v.
Proof. intros H Hv f rest Hf Hr. apply Hv; [lia|exact Hr]. Qed.

Lemma reads_description (d : RTCSessionDescription) :
  code_units (sd_type d) -> code_units (sd_sdp d) -> reads 4 (description_json d).
Proof.
  intros Ht Hs. unfold description_json.
  apply (reads_object 1
           [(js "type", JString (sd_type d)); (js "sdp", JString (sd_sdp d))]).
  - discriminate.
  - apply List.Forall_cons; [split; [apply latin1_code_units; reflexivity|]|].
    { apply reads_string. exact Ht. }
    apply List.Forall_cons; [split; [apply latin1_code_units; reflexivity|]|].
    { apply reads_string. exact Hs. }
    constructor.
  - reflexivity.
Qed.

Lemma fileSize_bound (n : N) : n < 2 ^ 53 -> n < 10 ^ 21.
Proof. intros H. eapply N.lt_trans; [exact H|reflexivity]. Qed.

Lemma reads_payload (p : OfferPayload) :
  latin1_payload p -> reads 9 (OfferPayload_json p).
Proof.
  intros (Ht & Hs & Hn & Hh & Hz).
  apply latin1_code_units in Ht, Hs, Hn. apply fileSize_bound in Hz.
  pose proof (reads_description (sdp p) Ht Hs) as Hd.
  pose proof (reads_mono 1 4 _ ltac:(lia) (reads_string _ Hn)) as Hname.
  pose proof (reads_mono 1 4 _ ltac:(lia) (reads_number _ Hz)) as Hsize.
  unfold OfferPayload_json. destruct (passwordHash p) as [h|].
  - apply latin1_code_units in Hh.
    pose proof (reads_mono 1 4 _ ltac:(lia) (reads_string _ Hh)) as Hhash.
    cbn [app]. eapply reads_mono; [|apply (reads_object 4)].
    + cbn [length]. lia.
    + discriminate.
    + apply List.Forall_cons; [split; [apply latin1_code_units; reflexivity|exact Hd]|].
      apply List.Forall_cons; [split; [apply latin1_code_units; reflexivity|exact Hname]|].
      apply List.Forall_cons; [split; [apply latin1_code_units; reflexivity|exact Hsize]|].
      apply List.Forall_cons; [split; [apply latin1_code_units; reflexivity|exact Hhash]|].
      constructor.
    + reflexivity.
  - cbn [app]. eapply reads_mono; [|apply (reads_object 4)].
    + cbn [length]. lia.
    + discriminate.
    + apply List.Forall_cons; [split; [apply latin1_code_units; reflexivity|exact Hd]|].
      apply List.Forall_cons; [split; [apply latin1_code_units; reflexivity|exact Hname]|].
      apply List.Forall_cons; [split; [apply latin1_code_units; reflexivity|exact Hsize]|].
      constructor.
    + reflexivity.
Qed.

(** [JSON.parse(JSON.stringify(payload))] is the payload. *)
Lemma JSON_parse_stringify_payload (p : OfferPayload) :
  latin1_payload p ->
  JSON_parse (JSON_stringify (OfferPayload_json p)) = Some (OfferPayload_json p).
Proof.
  intros Hp. unfold JSON_parse.
  set (text := JSON_stringify (OfferPayload_json p)).
  assert (Hlen : (4 <= length text)%nat).
  { unfold text, OfferPayload_json. cbn [JSON_stringify map join app fst snd].
    unfold quote. cbn [length app]. rewrite !length_app. cbn [length]. lia. }
  rewrite <- (app_nil_r text) at 2.
  rewrite (reads_payload p Hp); [reflexivity|lia|exact I].
Qed.

Lemma latin1_stringify_payload (p : OfferPayload) :
  latin1_payload p -> latin1 (JSON_stringify (OfferPayload_json p)) = true.
Proof.
  intros (Ht & Hs & Hn & Hh & Hz). apply fileSize_bound in Hz.
  unfold OfferPayload_json, description_json, number_of_N.
  destruct (passwordHash p) as [h|];
    cbn [JSON_stringify map join app fst snd];
    rewrite (number_to_string_integer _ Hz);
    repeat (rewrite latin1_cons || rewrite latin1_app
            || (rewrite latin1_quote by first [assumption | reflexivity])
            || rewrite latin1_digits);
    reflexivity.
Qed.

(** The handshake codec on Latin-1 payloads: the token exists and decodes
    to the payload that was encoded. *)
Lemma decode_encode_latin1 (p : OfferPayload) :
  latin1_payload p ->
  exists token,
    encode (OfferPayload_json p) = Some token
    /\ decode token = Some (OfferPayload_json p).
Proof.
  intros Hp. unfold encode, decode, btoa.
  rewrite (latin1_stringify_payload p Hp). eexists. split; [reflexivity|].
  rewrite (atob_btoa (JSON_stringify (OfferPayload_json p)) _).
  - apply JSON_parse_stringify_payload. exact Hp.
  - unfold btoa. rewrite (latin1_stringify_payload p Hp). reflexivity.
Qed.

End PayloadRoundTrip.

(** ** Property reads *)

Lemma get_prop_defined (v : json) (k k' : jsstring) (x : jsvalue) :
  get_prop v k = Some x -> exists y, get_prop v k' = Some y.
Proof.
  destruct v; simpl; intros H; try discriminate; eauto.
Qed.

Lemma JSON_parse_empty : JSON_parse [] = None.
Proof. reflexivity. Qed.

Section HandlerProperties.

Variable hashPassword : jsstring -> jsstring.
Variable createOffer : option RTCSessionDescription.
Variable answerOffer : jsvalue -> option RTCSessionDescription.
Variable acceptAnswer : json -> bool.
Variable ToNumber : jsvalue -> float.

(** ** [resetState] *)

(** C7 (as amended).  From every state [resetState] returns the machine to
    idle, drops the transport and the channel (both references are null
    afterwards), clears the URL fragment and discards every piece of session
    data held in the component: selected file, password, error message, offer
    token, progress, byte counter, received metadata, received frames and the
    download URL.  The [localStorage] slot is left as it was. *)
Theorem resetState_effect (w : World) :
  resetState w =
  {| store := initial_store; memo := memo w; downloadUrl := None;
     peerConnection := None; dataChannel := None; fileReader := fileReader w;
     localStorage := localStorage w; location_hash := [] |}.
Proof. reflexivity. Qed.

(** ** [processOffer] *)

Lemma processOffer_accepted (payload : json) (w : World) (nm sz sd : jsvalue)
  (answer : RTCSessionDescription) :
  get_prop payload (js "fileName") = Some nm ->
  get_prop payload (js "fileSize") = Some sz ->
  get_prop payload (js "sdp") = Some sd ->
  answerOffer sd = Some answer ->
  processOffer answerOffer payload w =
  (setReceivedFileInfo (Some {| info_name := nm; info_size := sz |})
   ;> createPeerConnection
   ;> setLocalDescription answer
   ;> setAppState AppState.generatingAnswer) w.
Proof.
  intros Hn Hs Hd Ha. unfold processOffer. rewrite Hn, Hs, Hd, Ha. reflexivity.
Qed.

(** C9 (as amended).  When accepting the remote descriptor (or producing the
    answer) throws, [processOffer] records the error message and enters the
    error state; what it did before the failure stays in place: the received
    file metadata is stored and the reference holds the connection just
    created.  Nothing else changes. *)
Theorem processOffer_failure (payload : json) (w : World) (nm sz sd : jsvalue) :
  get_prop payload (js "fileName") = Some nm ->
  get_prop payload (js "fileSize") = Some sz ->
  get_prop payload (js "sdp") = Some sd ->
  answerOffer sd = None ->
  let w' := processOffer answerOffer payload w in
  appState (store w') = AppState.error
  /\ error (store w') =
       Some (js "Failed to process transmission. The link might be invalid.")
  /\ receivedFileInfo (store w') = Some {| info_name := nm; info_size := sz |}
  /\ peerConnection w' = Some {| pc_env := memo w; localDescription := None |}
  /\ w' = (setReceivedFileInfo (Some {| info_name := nm; info_size := sz |})
           ;> createPeerConnection
           ;> processOffer_failed) w.
Proof.
  intros Hn Hs Hd Ha. unfold processOffer. rewrite Hn, Hs, Hd, Ha.
  repeat split.
Qed.

(** ** [handlePasswordSubmit] *)

Lemma strict_eq_string_spec (v : jsvalue) (t : jsstring) :
  strict_eq_string v t = true <-> v = Some (JString t).
Proof.
  destruct v as [[| | |u| |]|]; cbn; try (split; [discriminate|congruence]).
  unfold jsstring_eqb. rewrite bool_decide_eq_true. split; congruence.
Qed.

(** C6 (as amended).  In [awaitingPassword], with the pending payload in the
    local slot.  A secret whose digest is not the payload's digest surfaces
    the incorrect-secret message, leaves the state at [awaitingPassword] and
    keeps the stored payload: the message is all that changes.  The secret
    whose digest is the payload's digest removes the stored payload and hands
    the payload to [processOffer]: the responder proceeds to
    [generatingAnswer] when the transport accepts the descriptor of the
    payload, and enters [error] with the failure message when it throws, as
    it does on a payload that carries no descriptor. *)
Theorem handlePasswordSubmit_gate (w : World) (pass payloadStr : jsstring)
  (payload : json) (h : jsvalue) :
  appState (store w) = AppState.awaitingPassword ->
  localStorage w !! offerPayload_key = Some payloadStr ->
  JSON_parse payloadStr = Some payload ->
  get_prop payload (js "passwordHash") = Some h ->
  let w' := handlePasswordSubmit hashPassword answerOffer pass w in
  (h <> Some (JString (hashPassword pass)) ->
   w' = setError (Some (js "Incorrect secret code.")) w
   /\ error (store w') = Some (js "Incorrect secret code.")
   /\ appState (store w') = AppState.awaitingPassword
   /\ localStorage w' = localStorage w)
  /\ (h = Some (JString (hashPassword pass)) ->
      localStorage w' = delete offerPayload_key (localStorage w)
      /\ localStorage w' !! offerPayload_key = None
      /\ exists sd,
           get_prop payload (js "sdp") = Some sd
           /\ match answerOffer sd with
              | Some answer =>
                  appState (store w') = AppState.generatingAnswer
                  /\ error (store w') = error (store w)
              | None =>
                  appState (store w') = AppState.error
                  /\ error (store w')
                     = Some (js "Failed to process transmission. The link might be invalid.")
              end).
Proof.
  intros Hst Hls Hparse Hh. unfold handlePasswordSubmit.
  rewrite Hls.
  destruct payloadStr as [|c r]; [rewrite JSON_parse_empty in Hparse; discriminate|].
  rewrite Hparse, Hh. split; intros Hcmp.
  - destruct (strict_eq_string h (hashPassword pass)) eqn:E.
    { apply strict_eq_string_spec in E. contradiction. }
    split; [reflexivity|]. split; [reflexivity|]. split; [exact Hst|reflexivity].
  - rewrite (proj2 (strict_eq_string_spec h (hashPassword pass)) Hcmp).
    destruct (get_prop_defined _ _ (js "fileName") _ Hh) as [nm Hn].
    destruct (get_prop_defined _ _ (js "fileSize") _ Hh) as [sz Hs].
    destruct (get_prop_defined _ _ (js "sdp") _ Hh) as [sd Hsd].
    unfold andThen, processOffer. rewrite Hn, Hs, Hsd.
    assert (Hl : forall x : World,
              localStorage
                (match answerOffer sd with
                 | Some answer =>
                     (setLocalDescription answer
                      ;> setAppState AppState.generatingAnswer) x
                 | None => processOffer_failed x
                 end) = localStorage x).
    { intros x. destruct (answerOffer sd); [|reflexivity].
      unfold andThen, setLocalDescription. destruct (peerConnection x); reflexivity. }
    split; [rewrite Hl; reflexivity|].
    split; [rewrite Hl; cbn; apply lookup_delete_eq|].
    exists sd. split; [reflexivity|].
    destruct (answerOffer sd); split; reflexivity.
Qed.

End HandlerProperties.

(** ** Slices of a file *)

Section Slices.
Local Open Scope Z_scope.

Lemma slice_eq (l : list Byte.byte) (s e : Z) :
  0 <= s <= e ->
  slice l s e =
  take (Z.to_nat (Z.min e (byteLength l) - Z.min s (byteLength l)))
       (drop (Z.to_nat (Z.min s (byteLength l))) l).
Proof.
  intros H. unfold slice, byteLength.
  destruct (Z.ltb_spec s 0); [lia|]. destruct (Z.ltb_spec e 0); [lia|].
  f_equal. lia.
Qed.

Lemma slice_length (l : list Byte.byte) (s e : Z) :
  0 <= s <= e ->
  byteLength (slice l s e) = Z.min e (byteLength l) - Z.min s (byteLength l).
Proof.
  intros H. rewrite slice_eq by assumption. unfold byteLength.
  rewrite length_take, length_drop. lia.
Qed.

Lemma take_slice (l : list Byte.byte) (s e : Z) :
  0 <= s <= e ->
  take (Z.to_nat s) l ++ slice l s e = take (Z.to_nat e) l.
Proof.
  intros H. rewrite slice_eq by assumption. unfold byteLength.
  set (n := length l).
  destruct (Z.le_gt_cases s (Z.of_nat n)) as [Hs|Hs].
  - rewrite (Z.min_l s) by lia. rewrite take_take_drop.
    destruct (Z.le_gt_cases e (Z.of_nat n)) as [He|He].
    + rewrite (Z.min_l e) by lia. f_equal. lia.
    + rewrite (Z.min_r e) by lia.
      rewrite (take_ge l (Z.to_nat e)) by (fold n; lia).
      apply take_ge. fold n. lia.
  - rewrite (Z.min_r s), (Z.min_r e) by lia. rewrite Z.sub_diag. simpl.
    rewrite app_nil_r. rewrite !take_ge by (fold n; lia). reflexivity.
Qed.


Lemma full_frames_succ (f : File) (k : nat) :
  full_frames f (S k) =
  full_frames f k
  ++ [slice (bytes f) (CHUNK_SIZE * Z.of_nat k) (CHUNK_SIZE * Z.of_nat k + CHUNK_SIZE)].
Proof.
  unfold full_frames. rewrite seq_S, map_app. reflexivity.
Qed.

Lemma full_frames_concat (f : File) (k : nat) :
  concat (full_frames f k) = take (Z.to_nat (CHUNK_SIZE * Z.of_nat k)) (bytes f).
Proof.
  induction k as [|k IH].
  - reflexivity.
  - rewrite full_frames_succ, concat_app, IH. simpl. rewrite app_nil_r.
    rewrite take_slice by (unfold CHUNK_SIZE; lia).
    f_equal. lia.
Qed.


End Slices.

(** ** The sender's read loop *)

Section SenderProperties.
Local Open Scope Z_scope.

Variable hashPassword : jsstring -> jsstring.
Variable createOffer : option RTCSessionDescription.
Variable answerOffer : jsvalue -> option RTCSessionDescription.
Variable acceptAnswer : json -> bool.
Variable ToNumber : jsvalue -> float.

Local Abbreviation run_reader' :=
  (run_reader hashPassword createOffer answerOffer acceptAnswer ToNumber).

(** A render changes nothing but the memoised callbacks. *)
Lemma render_fields (w : World) :
  store (render w) = store w
  /\ downloadUrl (render w) = downloadUrl w
  /\ peerConnection (render w) = peerConnection w
  /\ dataChannel (render w) = dataChannel w
  /\ fileReader (render w) = fileReader w
  /\ localStorage (render w) = localStorage w
  /\ location_hash (render w) = location_hash w.
Proof.
  unfold render.
  destruct (AppState.eqb _ _ && bool_decide _ && bool_decide _); repeat split.
Qed.

(** One completed read while the channel is open and more of the file is
    left: the slice is sent, the offset advances by its length and the next
    slice is requested. *)
Lemma onload_next (w : World) (f : File) (o : Z) (chunk : list Byte.byte)
  (ch : RTCDataChannel) :
  fileReader w = Some {| fr_file := f; fr_offset := o; fr_reading := Some chunk |} ->
  dataChannel w = Some ch ->
  dc_open ch = true ->
  o + byteLength chunk < size f ->
  let o' := o + byteLength chunk in
  let w' := onload w in
  fileReader w' =
    Some {| fr_file := f; fr_offset := o';
            fr_reading := Some (slice (bytes f) o' (o' + CHUNK_SIZE)) |}
  /\ dataChannel w' =
       Some {| dc_env := dc_env ch; dc_open := true;
               dc_sent := dc_sent ch ++ [Binary chunk] |}
  /\ transferredBytes (store w') = o'
  /\ appState (store w') = appState (store w).
Proof.
  intros Hfr Hdc Hopen Hlt. unfold onload. rewrite Hfr. cbn.
  rewrite Hdc, Hopen.
  destruct (Z.ltb_spec (o + byteLength chunk) (size f)); [|lia].
  unfold readSlice, andThen, send. cbn. rewrite Hdc. cbn. rewrite Hopen.
  repeat split.
Qed.

(** The read that reaches the end of the file: the slice is sent, then the
    control message, and the sender is done. *)
Lemma onload_last (w : World) (f : File) (o : Z) (chunk : list Byte.byte)
  (ch : RTCDataChannel) :
  fileReader w = Some {| fr_file := f; fr_offset := o; fr_reading := Some chunk |} ->
  dataChannel w = Some ch ->
  dc_open ch = true ->
  size f <= o + byteLength chunk ->
  let o' := o + byteLength chunk in
  let w' := onload w in
  fileReader w' = Some {| fr_file := f; fr_offset := o'; fr_reading := None |}
  /\ dataChannel w' =
       Some {| dc_env := dc_env ch; dc_open := true;
               dc_sent := (dc_sent ch ++ [Binary chunk]) ++ [Text done_message] |}
  /\ transferredBytes (store w') = o'
  /\ appState (store w') = AppState.transferComplete.
Proof.
  intros Hfr Hdc Hopen Hge. unfold onload. rewrite Hfr. cbn.
  rewrite Hdc, Hopen.
  destruct (Z.ltb_spec (o + byteLength chunk) (size f)); [lia|].
  unfold andThen, send. cbn. rewrite Hdc. cbn. rewrite Hopen.
  repeat split.
Qed.

(** The sender's counter: each completed read adds the length of its slice
    to the offset, and the counter is the offset, which never passes the size
    of the file. *)
Lemma onload_counter (w : World) (f : File) (o : Z) (ch : RTCDataChannel) :
  fileReader w =
    Some {| fr_file := f; fr_offset := o;
            fr_reading := Some (slice (bytes f) o (o + CHUNK_SIZE)) |} ->
  dataChannel w = Some ch ->
  dc_open ch = true ->
  0 <= o <= size f ->
  let chunk := slice (bytes f) o (o + CHUNK_SIZE) in
  let w' := onload w in
  transferredBytes (store w') = o + byteLength chunk
  /\ o <= transferredBytes (store w') <= size f
  /\ option_map fr_offset (fileReader w') = Some (transferredBytes (store w')).
Proof.
  intros Hfr Hdc Hopen Ho chunk w'.
  assert (Hlen : byteLength chunk
                 = Z.min (o + CHUNK_SIZE) (size f) - Z.min o (size f)).
  { unfold chunk. apply slice_length. unfold CHUNK_SIZE. lia. }
  destruct (Z.lt_ge_cases (o + byteLength chunk) (size f)) as [Hlt|Hge].
  - destruct (onload_next w f o chunk ch Hfr Hdc Hopen Hlt) as (Efr & _ & Etb & _).
    subst w'. cbv zeta in Efr, Etb. rewrite Efr, Etb. cbn [option_map fr_offset].
    repeat split; unfold CHUNK_SIZE, size in *; lia.
  - destruct (onload_last w f o chunk ch Hfr Hdc Hopen Hge) as (Efr & _ & Etb & _).
    subst w'. cbv zeta in Efr, Etb. rewrite Efr, Etb. cbn [option_map fr_offset].
    repeat split; unfold CHUNK_SIZE, size in *; lia.
Qed.

Lemma run_reader_idle (fuel : nat) (w : World) (f : File) (o : Z) :
  fileReader w = Some {| fr_file := f; fr_offset := o; fr_reading := None |} ->
  run_reader' fuel w = w.
Proof.
  intros H. destruct fuel; simpl; [reflexivity|]. rewrite H. reflexivity.
Qed.

(** The loop from the [k]-th frame on: with enough fuel for the frames that
    are left it ends with no read pending, the whole frames of the file, its
    last slice and one control message on the channel. *)
Lemma run_reader_frames (f : File) (sent0 : list MessageData) (fuel : nat) :
  forall (k : nat) (w : World) (ch : RTCDataChannel),
  fileReader w =
    Some {| fr_file := f; fr_offset := CHUNK_SIZE * Z.of_nat k;
            fr_reading := Some (slice (bytes f) (CHUNK_SIZE * Z.of_nat k)
                                      (CHUNK_SIZE * Z.of_nat k + CHUNK_SIZE)) |} ->
  dataChannel w = Some ch ->
  dc_open ch = true ->
  dc_sent ch = sent0 ++ map Binary (full_frames f k) ->
  (CHUNK_SIZE * Z.of_nat k < size f \/ k = 0%nat) ->
  (size f - CHUNK_SIZE * Z.of_nat k) / CHUNK_SIZE < Z.of_nat fuel ->
  exists (k' : nat) (ch' : RTCDataChannel),
    dataChannel (run_reader' fuel w) = Some ch'
    /\ dc_sent ch' =
         sent0
         ++ map Binary
              (full_frames f k'
               ++ [slice (bytes f) (CHUNK_SIZE * Z.of_nat k')
                         (CHUNK_SIZE * Z.of_nat k' + CHUNK_SIZE)])
         ++ [Text done_message]
    /\ (CHUNK_SIZE * Z.of_nat k' < size f \/ k' = 0%nat)
    /\ size f <= CHUNK_SIZE * Z.of_nat k' + CHUNK_SIZE
    /\ fileReader (run_reader' fuel w) =
         Some {| fr_file := f; fr_offset := size f; fr_reading := None |}
    /\ appState (store (run_reader' fuel w)) = AppState.transferComplete
    /\ transferredBytes (store (run_reader' fuel w)) = size f.
Proof.
  induction fuel as [|fuel IH]; intros k w ch Hfr Hdc Hopen Hsent Hk Hfuel.
  - exfalso.
    assert (0 <= (size f - CHUNK_SIZE * Z.of_nat k) / CHUNK_SIZE).
    { apply Z.div_pos; unfold CHUNK_SIZE, size in *; lia. }
    lia.
  - simpl. rewrite Hfr. cbn [fr_reading].
    set (o := CHUNK_SIZE * Z.of_nat k) in *.
    set (chunk := slice (bytes f) o (o + CHUNK_SIZE)) in *.
    assert (Hlen : byteLength chunk
                   = Z.min (o + CHUNK_SIZE) (size f) - Z.min o (size f)).
    { unfold chunk. apply slice_length. unfold o, CHUNK_SIZE. lia. }
    unfold step. cbn [handle].
    destruct (render_fields (onload w)) as (Rs & _ & _ & Rdc & Rfr & _ & _).
    destruct (Z.lt_ge_cases (o + byteLength chunk) (size f)) as [Hlt|Hge].
    + assert (Hfull : byteLength chunk = CHUNK_SIZE).
      { unfold o, CHUNK_SIZE, size in *. lia. }
      destruct (onload_next w f o chunk ch Hfr Hdc Hopen Hlt) as (Efr & Edc & _ & _).
      assert (Ho : o + byteLength chunk = CHUNK_SIZE * Z.of_nat (S k)).
      { rewrite Hfull. unfold o. lia. }
      cbv zeta in Efr. rewrite Ho in Efr.
      eapply (IH (S k) (render (onload w))).
      * rewrite Rfr. exact Efr.
      * rewrite Rdc. exact Edc.
      * reflexivity.
      * cbn [dc_sent]. rewrite Hsent, full_frames_succ, map_app, <- app_assoc.
        reflexivity.
      * left. lia.
      * unfold o, CHUNK_SIZE, size in *.
        revert Hfuel Hlt Hfull. generalize (Z.of_nat (length (bytes f))).
        intros z Hfuel Hlt Hfull.
        rewrite !Nat2Z.inj_succ in *. Z.div_mod_to_equations. lia.
    + destruct (onload_last w f o chunk ch Hfr Hdc Hopen Hge) as (Efr & Edc & Etb & Est).
      assert (Ho : o + byteLength chunk = size f).
      { unfold o, CHUNK_SIZE, size in *. lia. }
      cbv zeta in Efr, Etb. rewrite Ho in Efr, Etb.
      rewrite (run_reader_idle fuel (render (onload w)) f (size f))
        by (rewrite Rfr; exact Efr).
      exists k. eexists. split; [rewrite Rdc; exact Edc|].
      cbn [dc_sent]. rewrite Hsent, Rfr, Rs.
      repeat split; try assumption.
      * rewrite map_app, <- !app_assoc. reflexivity.
      * unfold o, CHUNK_SIZE, size in *. lia.
Qed.

End SenderProperties.

Section ChunkingFidelity.
Local Open Scope Z_scope.

Variable hashPassword : jsstring -> jsstring.
Variable createOffer : option RTCSessionDescription.
Variable answerOffer : jsvalue -> option RTCSessionDescription.
Variable acceptAnswer : json -> bool.
Variable ToNumber : jsvalue -> float.


End ChunkingFidelity.

(** ** The receiver's message handler *)

Section ReceiverProperties.
Local Open Scope Z_scope.

Variable ToNumber : jsvalue -> float.

Lemma is_control_done : is_control done_message = true.
Proof. reflexivity. Qed.

Lemma onmessage_text (env : Store) (s : jsstring) (w : World) :
  onmessage ToNumber env (Text s) w =
  if is_control s
  then (set_downloadUrl (Some (concat (receivedFileChunks env)))
        ;> setAppState AppState.transferComplete) w
  else w.
Proof.
  unfold onmessage, is_control.
  destruct (JSON_parse s) as [msg|]; [|reflexivity].
  destruct (get_prop msg (js "type")) as [t|]; reflexivity.
Qed.

(** A binary frame is appended to the sequence in the store; the counter
    becomes the counter of the handler's render plus the length of the frame;
    no frame completes the transfer. *)
Lemma onmessage_binary (env : Store) (b : list Byte.byte) (w : World) :
  let w' := onmessage ToNumber env (Binary b) w in
  receivedFileChunks (store w') = receivedFileChunks (store w) ++ [b]
  /\ transferredBytes (store w') = transferredBytes env + byteLength b
  /\ appState (store w') = appState (store w)
  /\ error (store w') = error (store w)
  /\ downloadUrl w' = downloadUrl w
  /\ dataChannel w' = dataChannel w.
Proof.
  unfold onmessage. destruct (receivedFileInfo env); repeat split.
Qed.

(** C5 (as amended).  An inbound message is treated as a control message if
    and only if it is a text message whose structured decode succeeds and
    whose value carries the done tag: then the receiver enters
    [transferComplete] and the message is not stored.  Every binary message
    is appended to the received sequence and completes nothing.  A text
    message that fails the decode or lacks the tag is ignored: the state is
    left as it was, and no error is raised. *)
Theorem onmessage_classification (env : Store) (data : MessageData) (w : World) :
  let w' := onmessage ToNumber env data w in
  match data with
  | Text s =>
      if is_control s
      then appState (store w') = AppState.transferComplete
           /\ receivedFileChunks (store w') = receivedFileChunks (store w)
           /\ error (store w') = error (store w)
      else w' = w
  | Binary b =>
      receivedFileChunks (store w') = receivedFileChunks (store w) ++ [b]
      /\ appState (store w') = appState (store w)
      /\ error (store w') = error (store w)
      /\ downloadUrl w' = downloadUrl w
  end.
Proof.
  destruct data as [s|b].
  - cbv zeta. rewrite onmessage_text. destruct (is_control s); repeat split.
  - destruct (onmessage_binary env b w) as (H1 & _ & H2 & H3 & H4 & _).
    repeat split; assumption.
Qed.

(** Completion gating: the handler moves to [transferComplete] on a control
    message only, whatever the byte count. *)
Lemma onmessage_completes_on_control (env : Store) (data : MessageData) (w : World) :
  appState (store w) <> AppState.transferComplete ->
  appState (store (onmessage ToNumber env data w)) = AppState.transferComplete ->
  exists s, data = Text s /\ is_control s = true.
Proof.
  intros Hne Hdone. destruct data as [s|b].
  - exists s. split; [reflexivity|].
    rewrite onmessage_text in Hdone. destruct (is_control s); [reflexivity|].
    contradiction.
  - destruct (onmessage_binary env b w) as (_ & _ & H & _).
    cbv zeta in H. rewrite H in Hdone. contradiction.
Qed.

(** The finalised blob is the concatenation of the frames the handler's
    render holds, not of the frames in the store. *)
Lemma onmessage_done_blob (env : Store) (w : World) :
  downloadUrl (onmessage ToNumber env (Text done_message) w)
  = Some (concat (receivedFileChunks env)).
Proof. rewrite onmessage_text, is_control_done. reflexivity. Qed.

End ReceiverProperties.

(** ** A responder's session *)

Section ResponderSession.
Local Open Scope Z_scope.

Variable hashPassword : jsstring -> jsstring.
Variable createOffer : option RTCSessionDescription.
Variable answerOffer : jsvalue -> option RTCSessionDescription.
Variable acceptAnswer : json -> bool.
Variable ToNumber : jsvalue -> float.

Local Abbreviation run' :=
  (run hashPassword createOffer answerOffer acceptAnswer ToNumber).
Local Abbreviation step' :=
  (step hashPassword createOffer answerOffer acceptAnswer ToNumber).

Lemma run_app (evs1 evs2 : list Event) (w : World) :
  run' (evs1 ++ evs2) w = run' evs2 (run' evs1 w).
Proof. unfold run. apply fold_left_app. Qed.

(** Binary frames delivered to a channel whose handler was installed by a
    render without file metadata: the frames accumulate in the store, the
    counter is the counter of that render plus the length of the last
    frame, and nothing else moves. *)
Lemma run_binary_frames (frames : list (list Byte.byte)) :
  forall (w : World) (ch : RTCDataChannel),
  dataChannel w = Some ch ->
  receivedFileInfo (dc_env ch) = None ->
  let w' := run' (map (fun b => ChannelMessage (Binary b)) frames) w in
  dataChannel w' = Some ch
  /\ receivedFileChunks (store w') = receivedFileChunks (store w) ++ frames
  /\ transferredBytes (store w') =
       match frames with
       | [] => transferredBytes (store w)
       | _ => transferredBytes (dc_env ch) + byteLength (List.last frames [])
       end
  /\ appState (store w') = appState (store w)
  /\ progress (store w') = progress (store w)
  /\ downloadUrl w' = downloadUrl w.
Proof.
  induction frames as [|b frames IH]; intros w ch Hdc Hinfo.
  - cbn. rewrite app_nil_r. repeat split; assumption.
  - cbn [map]. change (run' (?e :: ?evs) w) with (run' evs (step' e w)).
    unfold step. cbn [handle]. rewrite Hdc.
    set (w1 := render (onmessage ToNumber (dc_env ch) (Binary b) w)).
    assert (Hw1 : receivedFileChunks (store w1) = receivedFileChunks (store w) ++ [b]
                  /\ transferredBytes (store w1) = transferredBytes (dc_env ch) + byteLength b
                  /\ appState (store w1) = appState (store w)
                  /\ progress (store w1) = progress (store w)
                  /\ dataChannel w1 = Some ch
                  /\ downloadUrl w1 = downloadUrl w).
    { destruct (render_fields (onmessage ToNumber (dc_env ch) (Binary b) w))
        as (Rs & Rurl & _ & Rdc & _).
      unfold w1. rewrite Rs, Rurl, Rdc. unfold onmessage. rewrite Hinfo.
      repeat split. exact Hdc. }
    destruct Hw1 as (H1 & H2 & H3 & H4 & H5 & H6).
    destruct (IH w1 ch H5 Hinfo) as (E1 & E2 & E3 & E4 & E5 & E6).
    cbv zeta in *.
    rewrite E1, E2, E3, E4, E5, E6, H1, H2, H3, H4, H6, <- app_assoc.
    repeat split. destruct frames; reflexivity.
Qed.

(** A responder opens a link without digest whose descriptor the transport
    accepts, the initiator's channel arrives, and binary frames and then the
    control message are received.  Whatever the frames, the responder reports
    completion with all of them in its store, an empty blob behind the
    download URL, the progress it started with, and the length of the last
    frame as byte counter. *)
Lemma responder_session (hash : jsstring) (ls : gmap jsstring jsstring)
  (payload : json) (h sd : jsvalue) (answer : RTCSessionDescription)
  (frames : list (list Byte.byte)) :
  skipn 1 hash <> [] ->
  decode (skipn 1 hash) = Some payload ->
  get_prop payload (js "passwordHash") = Some h ->
  truthy h = false ->
  get_prop payload (js "sdp") = Some sd ->
  answerOffer sd = Some answer ->
  let w := run' ([Effect; DataChannel true]
                 ++ map (fun b => ChannelMessage (Binary b)) frames
                 ++ [ChannelMessage (Text done_message)])
                (page_load hash ls) in
  appState (store w) = AppState.transferComplete
  /\ receivedFileChunks (store w) = frames
  /\ downloadUrl w = Some []
  /\ progress (store w) = Z2float 0
  /\ transferredBytes (store w) =
       match frames with
       | [] => 0
       | _ => byteLength (List.last frames [])
       end.
Proof.
  intros Hne Hdec Hh Htr Hsd Hans w.
  destruct (get_prop_defined _ _ (js "fileName") _ Hh) as [nm Hn].
  destruct (get_prop_defined _ _ (js "fileSize") _ Hh) as [sz Hs].
  set (w2 := run' [Effect; DataChannel true] (page_load hash ls)).
  assert (H2 : dataChannel w2
               = Some {| dc_env := initial_store; dc_open := true; dc_sent := [] |}
               /\ receivedFileChunks (store w2) = []
               /\ downloadUrl w2 = None
               /\ progress (store w2) = Z2float 0
               /\ transferredBytes (store w2) = 0).
  { unfold w2, run. cbn [fold_left].
    set (wa := step' Effect (page_load hash ls)).
    assert (Ha : peerConnection wa
                 = Some {| pc_env := initial_store; localDescription := Some answer |}
                 /\ receivedFileChunks (store wa) = []
                 /\ downloadUrl wa = None
                 /\ progress (store wa) = Z2float 0
                 /\ transferredBytes (store wa) = 0).
    { unfold wa, step.
      destruct (render_fields
                  (handle hashPassword createOffer answerOffer acceptAnswer ToNumber
                          Effect (page_load hash ls)))
        as (Rs & Rurl & Rpc & _).
      rewrite Rs, Rurl, Rpc. cbn [handle]. unfold useEffect.
      cbn [page_load location_hash store appState initial_store].
      rewrite (bool_decide_eq_false_2 _ Hne). cbn [negb andb AppState.eqb].
      rewrite Hdec, Hh, Htr.
      rewrite (processOffer_accepted answerOffer payload _ nm sz sd answer Hn Hs Hsd Hans).
      repeat split. }
    destruct Ha as (Hpc & Hc & Hu & Hp & Ht).
    unfold step.
    destruct (render_fields
                (handle hashPassword createOffer answerOffer acceptAnswer ToNumber
                        (DataChannel true) wa))
      as (Rs & Rurl & _ & Rdc & _).
    rewrite Rs, Rurl, Rdc. cbn [handle]. unfold ondatachannel. rewrite Hpc.
    cbn. rewrite Hc, Hu, Hp, Ht. repeat split. }
  destruct H2 as (Hdc & Hch & Hurl & Hpr & Htb).
  subst w. rewrite run_app. fold w2. rewrite run_app.
  destruct (run_binary_frames frames w2 _ Hdc eq_refl) as (E1 & E2 & E3 & E4 & E5 & E6).
  cbv zeta in *. rewrite Hch in E2. rewrite Hurl in E6. rewrite Hpr in E5.
  set (w3 := run' (map (fun b => ChannelMessage (Binary b)) frames) w2) in *.
  unfold run. cbn [fold_left]. unfold step. cbn [handle]. rewrite E1.
  cbn [dc_env].
  destruct (render_fields (onmessage ToNumber initial_store (Text done_message) w3))
    as (Rs & Rurl & _).
  rewrite Rs, Rurl, onmessage_text, is_control_done.
  cbn. rewrite E2, E5, E3, Htb. repeat split.
Qed.

End ResponderSession.

(** ** Rejection of malformed tokens *)

Section TokenProperties.

Variable answerOffer : jsvalue -> option RTCSessionDescription.
Variable acceptAnswer : json -> bool.

Lemma decode_None_iff (s : jsstring) :
  decode s = None <->
  atob s = None \/ exists t, atob s = Some t /\ JSON_parse t = None.
Proof.
  unfold decode. destruct (atob s) as [t|].
  - split.
    + intros H. right. exists t. auto.
    + intros [H|(t' & Ht & Hp)]; [discriminate|]. congruence.
  - split; auto.
Qed.

(** C4 (as amended).  A token whose base64 transform is malformed, or whose
    decoded text is not well-formed JSON, is rejected on both paths.  As the
    fragment of the URL of an idle page it leads to the error state with the
    invalid-link message, and nothing is stored: the local slot, the received
    metadata and the connection reference are untouched.  As a pasted
    counter-signal it surfaces the invalid-counter-signal message and leaves
    the state and the connection as they were. *)
Theorem malformed_token_rejected (s : jsstring) (w1 w2 : World) :
  (atob s = None \/ exists t, atob s = Some t /\ JSON_parse t = None) ->
  s <> [] ->
  appState (store w1) = AppState.idle ->
  location_hash w1 = 35%N :: s ->
  let w1' := useEffect answerOffer (store w1) w1 in
  let w2' := handleConnect acceptAnswer s w2 in
  (appState (store w1') = AppState.error
   /\ error (store w1') = Some (js "Invalid transmission link.")
   /\ localStorage w1' = localStorage w1
   /\ receivedFileInfo (store w1') = receivedFileInfo (store w1)
   /\ peerConnection w1' = peerConnection w1)
  /\ (error (store w2') = Some (js "Invalid counter-signal format. Please try again.")
      /\ appState (store w2') = appState (store w2)
      /\ peerConnection w2' = peerConnection w2).
Proof.
  intros Hbad Hne Hidle Hhash. apply decode_None_iff in Hbad.
  unfold useEffect, handleConnect. rewrite Hhash, Hidle.
  change (skipn 1 (35%N :: s)) with s.
  rewrite Hbad. rewrite bool_decide_eq_false_2 by assumption.
  repeat split.
Qed.

(** What decodes is not checked further: a decoded value with a truthy
    digest is stored as pending payload, whatever else it holds. *)
Lemma useEffect_stores_decoded (s : jsstring) (w : World) (payload : json)
  (h : jsvalue) :
  s <> [] ->
  appState (store w) = AppState.idle ->
  location_hash w = 35%N :: s ->
  decode s = Some payload ->
  get_prop payload (js "passwordHash") = Some h ->
  truthy h = true ->
  useEffect answerOffer (store w) w =
  (setAppState AppState.processingOffer
   ;> set_localStorage (<[offerPayload_key := JSON_stringify payload]> (localStorage w))
   ;> setAppState AppState.awaitingPassword) w.
Proof.
  intros Hne Hidle Hhash Hdec Hh Htr. unfold useEffect. rewrite Hhash, Hidle.
  change (skipn 1 (35%N :: s)) with s.
  rewrite Hdec, Hh, Htr. rewrite bool_decide_eq_false_2 by assumption.
  reflexivity.
Qed.

End TokenProperties.

(** * Scenarios *)

(** C1.  The payload of a file whose name has a character outside Latin-1
    has no token: [JSON.stringify] copies the character and [btoa] throws on
    it, so there is nothing to decode. *)
Theorem encode_throws_outside_latin1 :
  encode (OfferPayload_json
            {| sdp := example_offer; fileName := name cyrillic_named;
               fileSize := Z.to_N (size cyrillic_named); passwordHash := None |})
  = None.
Proof. reflexivity. Qed.


(** C3.  A responder opens the link of [recipe] and receives what the sender
    puts on the channel, one frame and the control message.  It reports
    completion, the frames in its store are the file, and the blob behind
    the download URL is empty: the handler builds it from the frames of the
    render that installed it. *)
Theorem receiver_blob_misses_frames :
  let w := receiver_session (link_for recipe []) ∅ (sender_messages recipe) in
  sender_messages recipe = [Binary (bytes recipe); Text done_message]
  /\ appState (store w) = AppState.transferComplete
  /\ concat (receivedFileChunks (store w)) = bytes recipe
  /\ downloadUrl w = Some [].
Proof. vm_compute. repeat split. Qed.

(** The same on the gated path: the responder of [gated_world] enters the
    secret, the channel arrives and the sender's messages are received. *)
Lemma gated_receiver_blob_empty :
  let w := example_run accepting_answerOffer
             ([PasswordSubmit (js "swordfish"); DataChannel true]
              ++ map ChannelMessage (sender_messages recipe))
             gated_world in
  appState (store w) = AppState.transferComplete
  /\ concat (receivedFileChunks (store w)) = bytes recipe
  /\ downloadUrl w = Some []
  /\ localStorage w !! offerPayload_key = None.
Proof. vm_compute. repeat split. Qed.

(** C4: a token that decodes to an object with a digest and none of the
    required fields is taken as a payload: it is stored and the secret is
    asked for. *)
Lemma incomplete_payload_accepted :
  let w := example_run accepting_answerOffer [Effect]
             (page_load (link_of_json digest_only) ∅) in
  decode (skipn 1 (link_of_json digest_only)) = Some digest_only
  /\ appState (store w) = AppState.awaitingPassword
  /\ error (store w) = None
  /\ localStorage w !! offerPayload_key = Some (JSON_stringify digest_only).
Proof. vm_compute. repeat split. Qed.

(** C4, on a token that is not base64. *)
Lemma malformed_token_rejected_witness :
  let s := js "%%%" in
  let w1 := page_load (35%N :: s) ∅ in
  let w2 := sender_ready recipe in
  let w1' := useEffect accepting_answerOffer (store w1) w1 in
  let w2' := handleConnect accepting_acceptAnswer s w2 in
  (appState (store w1') = AppState.error
   /\ error (store w1') = Some (js "Invalid transmission link.")
   /\ localStorage w1' = localStorage w1
   /\ receivedFileInfo (store w1') = receivedFileInfo (store w1)
   /\ peerConnection w1' = peerConnection w1)
  /\ (error (store w2') = Some (js "Invalid counter-signal format. Please try again.")
      /\ appState (store w2') = appState (store w2)
      /\ peerConnection w2' = peerConnection w2).
Proof.
  apply (malformed_token_rejected accepting_answerOffer accepting_acceptAnswer
           (js "%%%") (page_load (35%N :: js "%%%") ∅) (sender_ready recipe)).
  - left. reflexivity.
  - discriminate.
  - reflexivity.
  - reflexivity.
Defined.

(** C5: a text message that is not JSON, and one that is JSON without the
    tag, are dropped, not appended. *)
Lemma text_frame_not_appended :
  let w := receiver_session (link_for recipe []) ∅ [] in
  let untagged := JSON_stringify (JObject [(js "type", JString (js "data"))]) in
  receivedFileChunks
    (store (onmessage integer_ToNumber initial_store (Text (js "bun")) w)) = []
  /\ receivedFileChunks
       (store (onmessage integer_ToNumber initial_store (Text untagged) w)) = []
  /\ transferredBytes
       (store (onmessage integer_ToNumber initial_store (Text (js "bun")) w)) = 0%Z.
Proof. vm_compute. repeat split. Qed.

(** C6: the link of an object that holds a digest and nothing else, and
    then the secret of that digest.  The secret form is on offer, the digest
    matches, the stored payload is removed, and the responder ends in
    [error] with the failure message, not in [generatingAnswer], although
    the transport accepts every descriptor that is an object. *)
Lemma matching_secret_ends_in_error :
  let w1 := example_run accepting_answerOffer [Effect]
              (page_load (link_of_json digest_of_a) ∅) in
  let w2 := example_run accepting_answerOffer [PasswordSubmit (js "a")] w1 in
  appState (store w1) = AppState.awaitingPassword
  /\ localStorage w1 !! offerPayload_key = Some (JSON_stringify digest_of_a)
  /\ offered (PasswordSubmit (js "a")) (store w1) = true
  /\ get_prop digest_of_a (js "passwordHash")
     = Some (Some (JString (example_hashPassword (js "a"))))
  /\ localStorage w2 !! offerPayload_key = None
  /\ appState (store w2) = AppState.error
  /\ error (store w2)
     = Some (js "Failed to process transmission. The link might be invalid.").
Proof. vm_compute. repeat split. Qed.

(** C6, on the link of [recipe] protected by the secret swordfish: the
    secret wrong is refused and the payload kept, the secret swordfish
    removes the payload and leads to [generatingAnswer]. *)
Lemma handlePasswordSubmit_gate_witness :
  (let w' := handlePasswordSubmit example_hashPassword accepting_answerOffer
               (js "wrong") gated_world in
   error (store w') = Some (js "Incorrect secret code.")
   /\ appState (store w') = AppState.awaitingPassword
   /\ localStorage w' = localStorage gated_world)
  /\ (let w' := handlePasswordSubmit example_hashPassword accepting_answerOffer
                  (js "swordfish") gated_world in
      localStorage w' !! offerPayload_key = None
      /\ appState (store w') = AppState.generatingAnswer).
Proof.
  split.
  - destruct (handlePasswordSubmit_gate example_hashPassword accepting_answerOffer
                gated_world (js "wrong") (JSON_stringify gated_payload) gated_payload
                (Some (JString (example_hashPassword (js "swordfish")))))
      as [Hwrong _]; [vm_compute; reflexivity..|].
    destruct Hwrong as (_ & H1 & H2 & H3); [vm_compute; discriminate|].
    split; [exact H1|]. split; [exact H2|exact H3].
  - destruct (handlePasswordSubmit_gate example_hashPassword accepting_answerOffer
                gated_world (js "swordfish") (JSON_stringify gated_payload)
                gated_payload
                (Some (JString (example_hashPassword (js "swordfish")))))
      as [_ Hright]; [vm_compute; reflexivity..|].
    destruct Hright as (_ & H1 & sd & Hsd & Hans); [reflexivity|].
    split; [exact H1|].
    assert (Hd : sd = Some (description_json example_offer)).
    { vm_compute in Hsd. inversion Hsd. reflexivity. }
    rewrite Hd in Hans. exact (proj1 Hans).
Defined.

(** C7: a payload left in the local slot by an earlier visit is still there
    after a transfer has completed and the user has reset. *)
Lemma resetState_keeps_slot :
  let ls := {[ offerPayload_key := JSON_stringify gated_payload ]} in
  let w := receiver_session (link_for recipe []) ls (sender_messages recipe) in
  appState (store w) = AppState.transferComplete
  /\ localStorage (resetState w) !! offerPayload_key
     = Some (JSON_stringify gated_payload).
Proof. vm_compute. repeat split. Qed.

(** C8.  A responder receives the two frames of a file of 16385 bytes: its
    counter is 16384 after the first and 1 after the second. *)
Theorem receiver_counter_decreases :
  let msgs := sender_messages two_frame_file in
  let counter_after n :=
    transferredBytes
      (store (receiver_session (link_for two_frame_file []) ∅ (firstn n msgs))) in
  map (fun m => match m with Binary b => byteLength b | Text _ => (-1)%Z end) msgs
  = [16384; 1; -1]%Z
  /\ map counter_after [0; 1; 2]%nat = [0; 16384; 1]%Z.
Proof. vm_compute. repeat split. Qed.

(** C9: with a transport that rejects the descriptor the responder is in
    the error state with the metadata of the file stored and the connection
    it created in the reference. *)
Lemma processOffer_failure_keeps_effects :
  let w := example_run rejecting_answerOffer [Effect]
             (page_load (link_for recipe []) ∅) in
  appState (store w) = AppState.error
  /\ receivedFileInfo (store w)
     = Some {| info_name := Some (JString (name recipe));
               info_size := Some (number_of_N 3) |}
  /\ peerConnection w = Some {| pc_env := initial_store; localDescription := None |}.
Proof. vm_compute. repeat split. Qed.

(** C9, on the payload of [recipe]. *)
Lemma processOffer_failure_witness :
  let payload := OfferPayload_json
                   {| sdp := example_offer; fileName := name recipe;
                      fileSize := 3; passwordHash := None |} in
  let w := page_load (link_for recipe []) ∅ in
  let nm := Some (JString (name recipe)) in
  let sz := Some (number_of_N 3) in
  let w' := processOffer rejecting_answerOffer payload w in
  appState (store w') = AppState.error
  /\ error (store w') =
       Some (js "Failed to process transmission. The link might be invalid.")
  /\ receivedFileInfo (store w') = Some {| info_name := nm; info_size := sz |}
  /\ peerConnection w' = Some {| pc_env := memo w; localDescription := None |}
  /\ w' = (setReceivedFileInfo (Some {| info_name := nm; info_size := sz |})
           ;> createPeerConnection
           ;> processOffer_failed) w.
Proof.
  apply (processOffer_failure rejecting_answerOffer
           (OfferPayload_json
              {| sdp := example_offer; fileName := name recipe;
                 fileSize := 3; passwordHash := None |})
           (page_load (link_for recipe []) ∅)
           (Some (JString (name recipe))) (Some (number_of_N 3))
           (Some (description_json example_offer)));
    reflexivity.
Defined.

(** C10.  For a file of no bytes the sender's progress is NaN after its one
    read.  The responder has the declared size 0 in its store and receives
    the empty frame, and its progress is still the initial 0: the handler
    tests the [receivedFileInfo] of the render that installed it, which is
    null, and computes nothing. *)
Theorem receiver_progress_not_recomputed :
  let w := receiver_session (link_for empty_file []) ∅ [Binary []] in
  sender_messages empty_file = [Binary []; Text done_message]
  /\ progress (store (sender_session empty_file)) = PrimFloat.nan
  /\ receivedFileInfo (store w)
     = Some {| info_name := Some (JString (name empty_file));
               info_size := Some (number_of_N 0) |}
  /\ receivedFileChunks (store w) = [[]]
  /\ progress (store w) = Z2float 0.
Proof. vm_compute. repeat split. Qed.

(** * Further properties *)

Local Abbreviation example_session :=
  (session example_hashPassword (Some example_offer) accepting_answerOffer
           accepting_acceptAnswer integer_ToNumber).
Local Abbreviation example_step :=
  (step example_hashPassword (Some example_offer) accepting_answerOffer
        accepting_acceptAnswer integer_ToNumber).

(** ** The handshake tokens *)

Section CodecProperties.
Local Open Scope N_scope.

Lemma OfferPayload_fields (p : OfferPayload) :
  get_prop (OfferPayload_json p) (js "sdp") = Some (Some (description_json (sdp p)))
  /\ get_prop (OfferPayload_json p) (js "fileName") = Some (Some (JString (fileName p)))
  /\ get_prop (OfferPayload_json p) (js "fileSize") = Some (Some (number_of_N (fileSize p)))
  /\ get_prop (OfferPayload_json p) (js "passwordHash")
     = Some (option_map JString (passwordHash p)).
Proof.
  unfold OfferPayload_json. destruct (passwordHash p); repeat split; reflexivity.
Qed.

Lemma b64_encode_nil (s : jsstring) : b64_encode s = [] -> s = [].
Proof. destruct s as [|a [|b [|c r]]]; [reflexivity|discriminate..]. Qed.

Lemma stringify_payload_cons (p : OfferPayload) :
  exists r, JSON_stringify (OfferPayload_json p) = 123 :: r.
Proof.
  unfold OfferPayload_json. cbn [JSON_stringify app]. eexists. reflexivity.
Qed.

(** The token of a Latin-1 payload: it exists, is not empty, and [atob] and
    [JSON.parse] give back the text and the payload. *)
Lemma payload_token (p : OfferPayload) :
  latin1_payload p ->
  exists token,
    encode (OfferPayload_json p) = Some token
    /\ token <> []
    /\ decode token = Some (OfferPayload_json p).
Proof.
  intros Hp. unfold encode, decode, btoa.
  rewrite (latin1_stringify_payload p Hp). eexists. split; [reflexivity|]. split.
  - intros H. apply b64_encode_nil in H.
    destruct (stringify_payload_cons p) as [r Hr]. congruence.
  - rewrite (atob_btoa (JSON_stringify (OfferPayload_json p)) _).
    + apply JSON_parse_stringify_payload. exact Hp.
    + unfold btoa. rewrite (latin1_stringify_payload p Hp). reflexivity.
Qed.

(** X1.  The offer token of a payload whose strings are Latin-1 and whose
    size is below 2^53: [btoa(JSON.stringify(payload))] yields a token, and
    [JSON.parse(atob(token))] yields a value equal to the payload, whose
    properties [sdp], [fileName], [fileSize] and [passwordHash] read back as
    the descriptor, the name, the size and the digest that were encoded
    ([undefined] when no digest was set). *)
Theorem offer_token_round_trip (p : OfferPayload) :
  latin1_payload p ->
  exists token payload,
    encode (OfferPayload_json p) = Some token
    /\ decode token = Some payload
    /\ payload = OfferPayload_json p
    /\ get_prop payload (js "sdp") = Some (Some (description_json (sdp p)))
    /\ get_prop payload (js "fileName") = Some (Some (JString (fileName p)))
    /\ get_prop payload (js "fileSize") = Some (Some (number_of_N (fileSize p)))
    /\ get_prop payload (js "passwordHash")
       = Some (option_map JString (passwordHash p)).
Proof.
  intros Hp. destruct (payload_token p Hp) as (token & He & _ & Hd).
  exists token, (OfferPayload_json p).
  destruct (OfferPayload_fields p) as (H1 & H2 & H3 & H4).
  repeat split; assumption.
Qed.

Lemma JSON_parse_stringify_description (d : RTCSessionDescription) :
  latin1 (sd_type d) = true -> latin1 (sd_sdp d) = true ->
  JSON_parse (JSON_stringify (description_json d)) = Some (description_json d).
Proof.
  intros Ht Hs. unfold JSON_parse.
  set (text := JSON_stringify (description_json d)).
  assert (Hlen : (4 <= length text)%nat).
  { unfold text, description_json. cbn [JSON_stringify map join app fst snd].
    unfold quote. cbn [length app]. rewrite !length_app. cbn [length]. lia. }
  rewrite <- (app_nil_r text) at 2.
  rewrite (reads_description d (latin1_code_units _ Ht) (latin1_code_units _ Hs));
    [reflexivity|lia|exact I].
Qed.

Lemma latin1_stringify_description (d : RTCSessionDescription) :
  latin1 (sd_type d) = true -> latin1 (sd_sdp d) = true ->
  latin1 (JSON_stringify (description_json d)) = true.
Proof.
  intros Ht Hs. unfold description_json.
  cbn [JSON_stringify map join app fst snd].
  repeat (rewrite latin1_cons || rewrite latin1_app
          || (rewrite latin1_quote by first [assumption | reflexivity]));
    reflexivity.
Qed.

Lemma description_token (d : RTCSessionDescription) :
  latin1 (sd_type d) = true -> latin1 (sd_sdp d) = true ->
  exists token,
    encode (description_json d) = Some token
    /\ decode token = Some (description_json d).
Proof.
  intros Ht Hs. unfold encode, decode, btoa.
  rewrite (latin1_stringify_description d Ht Hs). eexists. split; [reflexivity|].
  rewrite (atob_btoa (JSON_stringify (description_json d)) _).
  - apply JSON_parse_stringify_description; assumption.
  - unfold btoa. rewrite (latin1_stringify_description d Ht Hs). reflexivity.
Qed.

(** [atob] drops ASCII white space before it decodes. *)
Lemma decode_ignores_whitespace (a b : jsstring) (c : N) :
  is_ascii_whitespace c = true ->
  decode (a ++ c :: b) = decode (a ++ b).
Proof.
  intros Hc. unfold decode, atob.
  rewrite !List.filter_app. cbn [List.filter]. rewrite Hc. reflexivity.
Qed.

Lemma unpadded_app (a b : jsstring) : unpadded (a ++ b) = unpadded a ++ unpadded b.
Proof. apply List.filter_app. Qed.

Lemma encoded_shape (s : jsstring) :
  latin1 s = true ->
  let body := map b64_char (b64_groups s) in
  Forall (fun v => v < 64) (b64_groups s)
  /\ Forall (fun c => c <> 61) body
  /\ Forall (fun c => is_ascii_whitespace c = false) body
  /\ (b64_padding s = [] \/ b64_padding s = [61] \/ b64_padding s = [61; 61]).
Proof.
  intros Hs body. pose proof (b64_groups_bound s Hs) as Hb.
  split; [exact Hb|]. split; [|split].
  - apply Forall_map. eapply Forall_impl; [exact Hb|].
    intros v Hv. apply (b64_char_plain v Hv).
  - apply Forall_map. eapply Forall_impl; [exact Hb|].
    intros v Hv. apply (b64_char_plain v Hv).
  - clear. induction s as [|a|a b|a b c r IH] using list_ind3; cbn; auto.
Qed.

(** [atob] of the characters of an encoding without its padding. *)
Lemma atob_unpadded (s : jsstring) :
  latin1 s = true -> atob (map b64_char (b64_groups s)) = Some s.
Proof.
  intros Hs. destruct (encoded_shape s Hs) as (Hb & Hplain & Hws & _).
  destruct (b64_lengths s) as (q & r & Hg & Hr & _).
  unfold atob. rewrite filter_all.
  2:{ eapply Forall_impl; [exact Hws|]. intros c Hc. cbn. rewrite Hc. reflexivity. }
  assert (Hstrip : (if (length (map b64_char (b64_groups s)) mod 4 =? 0)%nat
                    then strip_padding (map b64_char (b64_groups s))
                    else map b64_char (b64_groups s))
                   = map b64_char (b64_groups s)).
  { destruct (_ =? _)%nat; [|reflexivity].
    rewrite <- (app_nil_r (map b64_char (b64_groups s))) at 1.
    apply strip_padding_encoded; auto. }
  rewrite Hstrip, length_map, Hg.
  replace ((4 * q + r) mod 4)%nat with r.
  2:{ rewrite Nat.add_comm, Nat.mul_comm, Nat.Div0.mod_add.
      destruct Hr as [->|[->| ->]]; reflexivity. }
  replace (r =? 1)%nat with false
    by (destruct Hr as [->|[->| ->]]; reflexivity).
  rewrite (sextets_chars _ Hb). cbn [option_map].
  rewrite (b64_decode_groups s Hs). reflexivity.
Qed.

Lemma unpadded_encoded (s : jsstring) :
  latin1 s = true -> unpadded (b64_encode s) = map b64_char (b64_groups s).
Proof.
  intros Hs. destruct (encoded_shape s Hs) as (_ & Hplain & _ & Hpad).
  rewrite b64_encode_groups, unpadded_app. unfold unpadded at 1.
  rewrite filter_all.
  2:{ eapply Forall_impl; [exact Hplain|]. intros c Hc. cbn.
      destruct (N.eqb_spec c 61); [contradiction|reflexivity]. }
  destruct Hpad as [->|[->| ->]]; cbn; rewrite ?app_nil_r; reflexivity.
Qed.

(** X4.  The decoding of a token does not need the padding: a token that
    lost its trailing [=] characters decodes to the same value as the token
    itself, which is what [JSON.parse] makes of the encoded text. *)
Theorem decode_without_padding (v : json) (token : jsstring) :
  encode v = Some token ->
  decode (unpadded token) = decode token
  /\ decode token = JSON_parse (JSON_stringify v).
Proof.
  unfold encode. intros He. pose proof (atob_btoa _ _ He) as Ha.
  unfold btoa in He. destruct (latin1 (JSON_stringify v)) eqn:Hs; [|discriminate].
  inversion He; subst token; clear He.
  unfold decode. rewrite Ha, (unpadded_encoded _ Hs), (atob_unpadded _ Hs).
  split; reflexivity.
Qed.

(** X5.  Every token [btoa(JSON.stringify(v))] produces consists of
    characters of the base64 alphabet and of [=], and its length is a
    multiple of four. *)
Theorem token_alphabet (v : json) (token : jsstring) :
  encode v = Some token ->
  forallb is_token_char token = true
  /\ (length token mod 4 = 0)%nat.
Proof.
  unfold encode, btoa. destruct (latin1 (JSON_stringify v)) eqn:Hs; [|discriminate].
  intros He. inversion He; subst token; clear He.
  destruct (encoded_shape _ Hs) as (Hb & _ & _ & Hpad).
  destruct (b64_lengths (JSON_stringify v)) as (q & r & _ & _ & Hall).
  rewrite b64_encode_groups. split.
  - rewrite forallb_app. apply andb_true_iff. split.
    + apply forallb_forall. intros c Hc. apply in_map_iff in Hc as (x & <- & Hx).
      rewrite Forall_forall in Hb. apply list_elem_of_In, Hb in Hx.
      unfold is_token_char. rewrite (b64_value_char x Hx). reflexivity.
    + destruct Hpad as [->|[->| ->]]; reflexivity.
  - rewrite length_app, length_map, Hall, Nat.mul_comm. apply Nat.Div0.mod_mul.
Qed.

End CodecProperties.

Lemma offer_token_round_trip_witness :
  exists token payload,
    encode (OfferPayload_json protected_payload) = Some token
    /\ decode token = Some payload
    /\ payload = OfferPayload_json protected_payload
    /\ get_prop payload (js "sdp") = Some (Some (description_json example_offer))
    /\ get_prop payload (js "fileName") = Some (Some (JString (name recipe)))
    /\ get_prop payload (js "fileSize") = Some (Some (number_of_N 3))
    /\ get_prop payload (js "passwordHash")
       = Some (Some (JString (example_hashPassword (js "swordfish")))).
Proof.
  apply (offer_token_round_trip protected_payload).
  vm_compute. repeat split.
Defined.

Lemma decode_without_padding_witness :
  exists token,
    encode digest_only = Some token
    /\ decode (unpadded token) = decode token
    /\ decode token = JSON_parse (JSON_stringify digest_only).
Proof.
  eexists. split; [reflexivity|].
  apply (decode_without_padding digest_only). reflexivity.
Defined.

Lemma token_alphabet_witness :
  exists token,
    encode digest_only = Some token
    /\ forallb is_token_char token = true
    /\ (length token mod 4 = 0)%nat.
Proof.
  eexists. split; [reflexivity|].
  apply (token_alphabet digest_only). reflexivity.
Defined.

(** ** Runs the views allow *)

Lemma AppState_eqb_eq (a b : AppState.t) : AppState.eqb a b = true <-> a = b.
Proof. destruct a, b; cbn; split; congruence. Qed.

Lemma AppState_eqb_refl (a : AppState.t) : AppState.eqb a a = true.
Proof. destruct a; reflexivity. Qed.

Lemma render_memo (w : World) :
  appState (memo (render w)) = appState (store (render w))
  /\ file (memo (render w)) = file (store (render w))
  /\ password (memo (render w)) = password (store (render w)).
Proof.
  unfold render.
  destruct (AppState.eqb _ _) eqn:E1; cbn [andb]; [|repeat split].
  destruct (bool_decide (file (memo w) = file (store w))) eqn:E2; cbn [andb];
    [|repeat split].
  destruct (bool_decide (password (memo w) = password (store w))) eqn:E3;
    [|repeat split].
  apply AppState_eqb_eq in E1. apply bool_decide_eq_true in E2, E3. auto.
Qed.

Lemma render_idem (w : World) : render (render w) = render w.
Proof.
  destruct (render_memo w) as (H1 & H2 & H3).
  unfold render at 1. rewrite H1, H2, H3, AppState_eqb_refl.
  rewrite !bool_decide_eq_true_2 by reflexivity. reflexivity.
Qed.

Lemma render_no_token (w : World) : no_token w -> no_token (render w).
Proof.
  unfold no_token, render.
  destruct (AppState.eqb _ _ && _ && _); auto.
Qed.

Section SessionInvariant.

Variable hashPassword : jsstring -> jsstring.
Variable createOffer : option RTCSessionDescription.
Variable answerOffer : jsvalue -> option RTCSessionDescription.
Variable acceptAnswer : json -> bool.
Variable ToNumber : jsvalue -> float.

Local Abbreviation handle' :=
  (handle hashPassword createOffer answerOffer acceptAnswer ToNumber).
Local Abbreviation step' :=
  (step hashPassword createOffer answerOffer acceptAnswer ToNumber).
Local Abbreviation run' :=
  (run hashPassword createOffer answerOffer acceptAnswer ToNumber).
Local Abbreviation session' :=
  (session hashPassword createOffer answerOffer acceptAnswer ToNumber).

(** [processOffer] creates its connection in the memoised render. *)
Lemma processOffer_no_token (payload : json) (w : World) :
  no_token w ->
  appState (memo w) = AppState.idle \/ appState (memo w) = AppState.awaitingPassword ->
  no_token (processOffer answerOffer payload w).
Proof.
  intros (Ho & _ & _ & Hpc) Hm. unfold processOffer, processOffer_failed, no_token.
  destruct (get_prop payload (js "fileName"));
    [|cbn; repeat split; auto; discriminate].
  destruct (get_prop payload (js "fileSize"));
    [|cbn; repeat split; auto; discriminate].
  destruct (get_prop payload (js "sdp"));
    [|cbn; repeat split; auto; discriminate].
  destruct (answerOffer _); cbn; repeat split; auto; discriminate.
Qed.

Lemma handle_no_token (ev : Event) (w : World) :
  no_token w ->
  appState (memo w) = appState (store w) ->
  offered ev (store w) = true ->
  no_token (handle' ev w).
Proof.
  intros (Ho & Ha & Hc & Hpc) Hm Hev. unfold no_token.
  destruct ev; cbn [handle offered] in *.
  - (* Effect *)
    unfold useEffect.
    destruct (negb _ && AppState.eqb _ _) eqn:E; [|repeat split; assumption].
    apply andb_true_iff in E as [_ E]. apply AppState_eqb_eq in E.
    destruct (decode _) as [payload|]; [|cbn; repeat split; auto; discriminate].
    destruct (get_prop payload (js "passwordHash")) as [h|];
      [|cbn; repeat split; auto; discriminate].
    destruct (truthy h); [cbn; repeat split; auto; discriminate|].
    apply processOffer_no_token; [|left; cbn; congruence].
    cbn. repeat split; auto; discriminate.
  - (* FileChange *)
    destruct selectedFile; [|repeat split; assumption].
    cbn. repeat split; assumption.
  - cbn. repeat split; assumption.
  - (* CreateLink *)
    apply andb_true_iff in Hev as [E Hf]. apply AppState_eqb_eq in E.
    unfold handleCreateLink.
    destruct (file (store w)); [|cbn; repeat split; assumption].
    destruct createOffer; unfold andThen, createPeerConnection; cbn;
      repeat split; auto; try discriminate; left; congruence.
  - (* Connect *)
    apply andb_true_iff in Hev as [E _]. apply AppState_eqb_eq in E. contradiction.
  - (* PasswordSubmit *)
    apply andb_true_iff in Hev as [E _]. apply AppState_eqb_eq in E.
    unfold handlePasswordSubmit.
    destruct (localStorage w !! offerPayload_key) as [[|c r]|];
      [cbn; repeat split; auto; discriminate| |cbn; repeat split; auto; discriminate].
    destruct (JSON_parse _) as [payload|]; [|repeat split; assumption].
    destruct (get_prop payload (js "passwordHash")) as [h|]; [|repeat split; assumption].
    destruct (strict_eq_string _ _); [|cbn; repeat split; assumption].
    apply processOffer_no_token; [|right; cbn; congruence].
    cbn. repeat split; auto; congruence.
  - (* Reset *)
    cbn. repeat split; auto; discriminate.
  - (* IceGatheringComplete *)
    unfold onicecandidate.
    destruct (peerConnection w) as [pc|] eqn:Epc; [|repeat split; try assumption; rewrite Epc; exact I].
    assert (Hw : no_token w) by (repeat split; try assumption; rewrite Epc; exact Hpc).
    unfold no_token in Hw.
    destruct (localDescription pc); [|exact Hw].
    destruct Hpc as [-> | ->]; exact Hw.
  - (* ConnectionStateChange *)
    destruct (peerConnection w) as [pc|] eqn:Epc; [|repeat split; try assumption; rewrite Epc; exact I].
    destruct st; cbn; rewrite ?Epc; repeat split; auto; discriminate.
  - (* DataChannel *)
    unfold ondatachannel.
    destruct (peerConnection w) as [pc|] eqn:Epc; [|repeat split; try assumption; rewrite Epc; exact I].
    cbn. rewrite Epc. repeat split; assumption.
  - (* ChannelOpen *)
    destruct (dataChannel w) as [ch|] eqn:Edc; [|repeat split; assumption].
    unfold onopen, set_dc_open. rewrite Edc.
    destruct (file (dc_env ch)) as [f|] eqn:Ef; [|cbn; repeat split; assumption].
    unfold sendFileInChunks, andThen. rewrite Ef. cbn. repeat split; auto; discriminate.
  - (* ChannelClose *)
    unfold set_dc_open. destruct (dataChannel w); cbn; repeat split; assumption.
  - (* ChannelMessage *)
    destruct (dataChannel w) as [ch|] eqn:Edc; [|repeat split; assumption].
    destruct data as [s|b].
    + rewrite onmessage_text. destruct (is_control s); [|repeat split; assumption].
      cbn. repeat split; auto; discriminate.
    + unfold onmessage. destruct (receivedFileInfo (dc_env ch)); cbn; repeat split; assumption.
  - (* FileReaderLoad *)
    unfold onload.
    destruct (fileReader w) as [fr|]; [|repeat split; assumption].
    destruct (fr_reading fr) as [chunk|]; [|repeat split; assumption].
    cbn [dataChannel set_fileReader].
    destruct (dataChannel w) as [ch|] eqn:Edc; [|cbn; repeat split; assumption].
    destruct (dc_open ch); [|cbn; repeat split; assumption].
    destruct (_ <? _)%Z; unfold andThen, send, readSlice; cbn; rewrite Edc; cbn;
      repeat split; auto; discriminate.
Qed.

Lemma session_no_token (evs : list Event) :
  forall w w' : World,
  no_token w ->
  appState (memo w) = appState (store w) ->
  session' evs w = Some w' ->
  no_token w' /\ appState (memo w') = appState (store w').
Proof.
  induction evs as [|ev evs IH]; intros w w' Hw Hm Hs.
  - inversion Hs; subst. auto.
  - cbn [session] in Hs. destruct (offered ev (store w)) eqn:Hev; [|discriminate].
    apply (IH _ _ (render_no_token _ (handle_no_token ev w Hw Hm Hev))
                   (proj1 (render_memo _)) Hs).
Qed.

(** X6.  In every run that starts on a freshly loaded page (whatever its
    fragment and local storage) and in which the user only uses the controls
    the current view offers, no handshake token is ever produced: [offer]
    stays [null], and the states [awaitingAnswer] and [connecting] are never
    entered.  The handlers of a connection are those of the memoised
    [createPeerConnection], created by a render in [idle] or
    [awaitingPassword]; its [onicecandidate] compares that render's
    [appState] with [generatingOffer] and [generatingAnswer]. *)
Theorem handshake_token_never_set (hash : jsstring) (ls : gmap jsstring jsstring)
  (evs : list Event) (w : World) :
  session' evs (page_load hash ls) = Some w ->
  offer (store w) = None
  /\ appState (store w) <> AppState.awaitingAnswer
  /\ appState (store w) <> AppState.connecting.
Proof.
  intros Hs.
  destruct (session_no_token evs (page_load hash ls) w) as ((H1 & H2 & H3 & _) & _);
    auto.
  repeat split; auto; discriminate.
Qed.

End SessionInvariant.

Lemma handshake_token_never_set_witness :
  match example_session
          [FileChange (Some recipe); PasswordChange (js "swordfish"); CreateLink;
           IceGatheringComplete; ConnectionStateChange cs_failed; Reset; Effect]
          (page_load [] ∅) with
  | Some w =>
      offer (store w) = None
      /\ appState (store w) <> AppState.awaitingAnswer
      /\ appState (store w) <> AppState.connecting
  | None => False
  end.
Proof.
  destruct (example_session _ _) as [w|] eqn:E.
  - exact (handshake_token_never_set example_hashPassword (Some example_offer)
             accepting_answerOffer accepting_acceptAnswer integer_ToNumber
             [] ∅ _ w E).
  - vm_compute in E. discriminate E.
Defined.

(** ** The handshake of the two peers *)

Section FlowProperties.

Variable hashPassword : jsstring -> jsstring.
Variable createOffer : option RTCSessionDescription.
Variable answerOffer : jsvalue -> option RTCSessionDescription.
Variable acceptAnswer : json -> bool.
Variable ToNumber : jsvalue -> float.

Local Abbreviation handle' :=
  (handle hashPassword createOffer answerOffer acceptAnswer ToNumber).
Local Abbreviation step' :=
  (step hashPassword createOffer answerOffer acceptAnswer ToNumber).
Local Abbreviation run' :=
  (run hashPassword createOffer answerOffer acceptAnswer ToNumber).

Lemma render_changed (w : World) :
  appState (memo w) <> appState (store w) -> render w = set_memo (store w) w.
Proof.
  intros H. unfold render.
  destruct (AppState.eqb _ _) eqn:E; [|reflexivity].
  apply AppState_eqb_eq in E. contradiction.
Qed.

Lemma render_same (w : World) :
  appState (memo w) = appState (store w) ->
  file (memo w) = file (store w) ->
  password (memo w) = password (store w) ->
  render w = w.
Proof.
  intros H1 H2 H3. unfold render. rewrite H1, H2, H3, AppState_eqb_refl.
  rewrite !bool_decide_eq_true_2 by reflexivity. reflexivity.
Qed.

(** The end of candidate gathering on a connection whose handlers were
    created by a render in neither [generatingOffer] nor [generatingAnswer]. *)
Lemma onicecandidate_stale (w : World) (pc : RTCPeerConnection) :
  peerConnection w = Some pc ->
  appState (pc_env pc) <> AppState.generatingOffer ->
  appState (pc_env pc) <> AppState.generatingAnswer ->
  onicecandidate hashPassword w = w.
Proof.
  intros Hpc H1 H2. unfold onicecandidate. rewrite Hpc.
  destruct (localDescription pc); [|reflexivity].
  destruct (AppState.eqb _ AppState.generatingOffer) eqn:E1.
  { apply AppState_eqb_eq in E1. contradiction. }
  destruct (AppState.eqb _ AppState.generatingAnswer) eqn:E2.
  { apply AppState_eqb_eq in E2. contradiction. }
  reflexivity.
Qed.

(** X7.  A sender asks for a link in a view whose memoised callbacks were
    created in [idle], with a file selected: the state becomes
    [generatingOffer], the connection holds the local description the
    transport produced, and the end of candidate gathering changes nothing:
    no offer is stored and the state stays [generatingOffer]. *)
Theorem sender_link_never_shown (w : World) (f : File) :
  appState (memo w) = AppState.idle ->
  file (store w) = Some f ->
  let w1 := step' CreateLink w in
  appState (store w1) = AppState.generatingOffer
  /\ offer (store w1) = offer (store w)
  /\ peerConnection w1
     = Some {| pc_env := memo w; localDescription := createOffer |}
  /\ step' IceGatheringComplete w1 = w1.
Proof.
  intros Hm Hf w1.
  assert (Hh : handle' CreateLink w
               = set_peerConnection
                   (Some {| pc_env := memo w; localDescription := createOffer |})
                   (set_dataChannel
                      (Some {| dc_env := store w; dc_open := false; dc_sent := [] |})
                      (setAppState AppState.generatingOffer w))).
  { cbn [handle]. unfold handleCreateLink. rewrite Hf.
    destruct createOffer; reflexivity. }
  assert (H1 : w1 = set_memo (store (handle' CreateLink w)) (handle' CreateLink w)).
  { unfold w1, step. apply render_changed. rewrite Hh. cbn. rewrite Hm. discriminate. }
  assert (Hpc : peerConnection w1
                = Some {| pc_env := memo w; localDescription := createOffer |}).
  { rewrite H1, Hh. reflexivity. }
  split; [rewrite H1, Hh; reflexivity|].
  split; [rewrite H1, Hh; reflexivity|].
  split; [exact Hpc|].
  unfold step at 1. cbn [handle].
  rewrite (onicecandidate_stale w1 _ Hpc).
  - unfold w1, step. apply render_idem.
  - cbn. rewrite Hm. discriminate.
  - cbn. rewrite Hm. discriminate.
Qed.

(** ** The effect *)

Lemma processOffer_not_idle (payload : json) (w : World) :
  appState (store (processOffer answerOffer payload w)) <> AppState.idle.
Proof.
  unfold processOffer, processOffer_failed.
  destruct (get_prop payload (js "fileName")); [|discriminate].
  destruct (get_prop payload (js "fileSize")); [|discriminate].
  destruct (get_prop payload (js "sdp")); [|discriminate].
  destruct (answerOffer _); [|discriminate].
  unfold andThen, setLocalDescription, createPeerConnection. cbn. discriminate.
Qed.

Lemma useEffect_not_idle (env : Store) (w : World) :
  skipn 1 (location_hash w) <> [] ->
  appState env = AppState.idle ->
  appState (store (useEffect answerOffer env w)) <> AppState.idle.
Proof.
  intros Hh He. unfold useEffect. rewrite He.
  rewrite bool_decide_eq_false_2 by exact Hh. cbn [negb andb AppState.eqb].
  destruct (decode _) as [payload|]; [|discriminate].
  destruct (get_prop payload (js "passwordHash")) as [h|]; [|discriminate].
  destruct (truthy h); [discriminate|]. apply processOffer_not_idle.
Qed.

Lemma useEffect_skip (env : Store) (w : World) :
  skipn 1 (location_hash w) = [] \/ appState env <> AppState.idle ->
  useEffect answerOffer env w = w.
Proof.
  intros H. unfold useEffect.
  destruct (negb _ && AppState.eqb _ _) eqn:E; [|reflexivity].
  apply andb_true_iff in E as [E1 E2].
  apply negb_true_iff, bool_decide_eq_false in E1. apply AppState_eqb_eq in E2.
  destruct H; contradiction.
Qed.

(** X8.  The effect processes a fragment at most once: running it again
    after it has run changes nothing, since it acts in [idle] only and never
    leaves the state [idle] when it acts. *)
Theorem effect_runs_once (w : World) :
  step' Effect (step' Effect w) = step' Effect w.
Proof.
  unfold step. cbn [handle].
  set (w1 := useEffect answerOffer (store w) w).
  destruct (render_fields w1) as (Rs & _ & _ & _ & _ & _ & Rh).
  rewrite useEffect_skip; [apply render_idem|].
  rewrite Rs, Rh.
  destruct (decide (skipn 1 (location_hash w) = [])) as [Hh|Hh].
  - left. unfold w1. rewrite useEffect_skip by auto. exact Hh.
  - destruct (AppState.eqb (appState (store w)) AppState.idle) eqn:Hi.
    + apply AppState_eqb_eq in Hi. right. apply useEffect_not_idle; assumption.
    + assert (Hn : appState (store w) <> AppState.idle).
      { intros E. apply AppState_eqb_eq in E. congruence. }
      unfold w1. rewrite useEffect_skip by auto. auto.
Qed.

Lemma resetState_fixed (x : World) :
  store x = initial_store -> downloadUrl x = None -> peerConnection x = None ->
  dataChannel x = None -> location_hash x = [] ->
  resetState x = x.
Proof.
  destruct x as [s m u pc dc fr ls h]. cbn [store downloadUrl peerConnection
    dataChannel location_hash]. intros -> -> -> -> ->. reflexivity.
Qed.

(** X15.  After the reset the effect does not process the link again, the
    fragment being empty, and a second reset changes nothing: the reset
    leaves the component where a further reset or a re-run of the effect
    would leave it. *)
Theorem reset_ends_session (w : World) :
  let w1 := step' Reset w in
  step' Effect w1 = w1 /\ step' Reset w1 = w1.
Proof.
  intros w1.
  assert (Hr : render w1 = w1) by apply render_idem.
  destruct (render_fields (resetState w)) as (Rs & Ru & Rpc & Rdc & _ & _ & Rh).
  assert (Hh : location_hash w1 = []) by exact Rh.
  split; unfold step; cbn [handle].
  - rewrite useEffect_skip; [exact Hr|]. left. rewrite Hh. reflexivity.
  - rewrite resetState_fixed; [exact Hr|exact Rs|exact Ru|exact Rpc|exact Rdc|exact Rh].
Qed.

(** ** A link without digest *)

Lemma effect_on_link (token : jsstring) (ls : gmap jsstring jsstring)
  (payload : json) (h : jsvalue) :
  token <> [] ->
  decode token = Some payload ->
  get_prop payload (js "passwordHash") = Some h ->
  handle' Effect (page_load (35%N :: token) ls)
  = if truthy h
    then (set_localStorage (<[offerPayload_key := JSON_stringify payload]> ls)
          ;> setAppState AppState.awaitingPassword)
           (setAppState AppState.processingOffer (page_load (35%N :: token) ls))
    else processOffer answerOffer payload
           (setAppState AppState.processingOffer (page_load (35%N :: token) ls)).
Proof.
  intros Hne Hd Hh. cbn [handle]. unfold useEffect.
  cbn [page_load location_hash store appState initial_store].
  change (skipn 1 (35%N :: token)) with token.
  rewrite bool_decide_eq_false_2 by exact Hne. cbn [negb andb AppState.eqb].
  rewrite Hd, Hh. reflexivity.
Qed.

(** X9.  A link whose payload has Latin-1 strings and no digest (or an
    empty one) is processed without asking for a secret: the file metadata
    of the payload is stored, nothing is written to the local storage, and
    with a transport that accepts the descriptor the responder is in
    [generatingAnswer] with the answer as local description; when the
    transport throws it is in [error] with the failure message.  In both
    cases the connection was created by the render in [idle], no
    counter-signal is stored, and the end of candidate gathering changes
    nothing. *)
Theorem link_without_digest (p : OfferPayload) (ls : gmap jsstring jsstring) :
  latin1_payload p ->
  match passwordHash p with Some h => h = [] | None => True end ->
  exists token,
    encode (OfferPayload_json p) = Some token
    /\ let w := step' Effect (page_load (35%N :: token) ls) in
       receivedFileInfo (store w) = Some (info_of p)
       /\ localStorage w = ls
       /\ offer (store w) = None
       /\ step' IceGatheringComplete w = w
       /\ match answerOffer (Some (description_json (sdp p))) with
          | Some answer =>
              appState (store w) = AppState.generatingAnswer
              /\ error (store w) = None
              /\ peerConnection w
                 = Some {| pc_env := initial_store; localDescription := Some answer |}
          | None =>
              appState (store w) = AppState.error
              /\ error (store w)
                 = Some (js "Failed to process transmission. The link might be invalid.")
              /\ peerConnection w
                 = Some {| pc_env := initial_store; localDescription := None |}
          end.
Proof.
  intros Hp Hh. destruct (payload_token p Hp) as (token & He & Hne & Hd).
  exists token. split; [exact He|]. intros w.
  destruct (OfferPayload_fields p) as (Fs & Fn & Fz & Fh).
  assert (Htr : truthy (option_map JString (passwordHash p)) = false).
  { destruct (passwordHash p) as [h|]; [subst h|]; reflexivity. }
  pose proof (effect_on_link token ls _ _ Hne Hd Fh) as Hw. rewrite Htr in Hw.
  unfold processOffer in Hw. rewrite Fs, Fn, Fz in Hw.
  unfold w, step. rewrite Hw. clear Hw.
  destruct (answerOffer (Some (description_json (sdp p)))) as [answer|].
  - set (x := (setLocalDescription answer ;> setAppState AppState.generatingAnswer) _).
    assert (Hx : render x = set_memo (store x) x).
    { apply render_changed. unfold x. cbn. discriminate. }
    assert (Hpc : peerConnection (render x)
                  = Some {| pc_env := initial_store; localDescription := Some answer |}).
    { rewrite Hx. reflexivity. }
    split; [rewrite Hx; reflexivity|].
    split; [rewrite Hx; reflexivity|].
    split; [rewrite Hx; reflexivity|].
    split.
    { unfold step. cbn [handle].
      rewrite (onicecandidate_stale _ _ Hpc); [apply render_idem|..]; discriminate. }
    split; [rewrite Hx; reflexivity|].
    split; [rewrite Hx; reflexivity|exact Hpc].
  - set (x := processOffer_failed _).
    assert (Hx : render x = set_memo (store x) x).
    { apply render_changed. unfold x. cbn. discriminate. }
    assert (Hpc : peerConnection (render x)
                  = Some {| pc_env := initial_store; localDescription := None |}).
    { rewrite Hx. reflexivity. }
    split; [rewrite Hx; reflexivity|].
    split; [rewrite Hx; reflexivity|].
    split; [rewrite Hx; reflexivity|].
    split.
    { unfold step. cbn [handle].
      rewrite (onicecandidate_stale _ _ Hpc); [apply render_idem|..]; discriminate. }
    split; [rewrite Hx; reflexivity|].
    split; [rewrite Hx; reflexivity|exact Hpc].
Qed.

(** ** A protected link *)

Lemma stringify_payload_parse (p : OfferPayload) (ls : gmap jsstring jsstring) :
  latin1_payload p ->
  exists c r,
    (<[offerPayload_key := JSON_stringify (OfferPayload_json p)]> ls)
      !! offerPayload_key = Some (c :: r)
    /\ JSON_parse (c :: r) = Some (OfferPayload_json p).
Proof.
  intros Hp. destruct (stringify_payload_cons p) as [r Hr].
  exists 123%N, r. rewrite lookup_insert_eq, <- Hr.
  split; [reflexivity|]. apply JSON_parse_stringify_payload. exact Hp.
Qed.

(** A secret whose digest is not the stored one: the message is set and the
    responder keeps waiting. *)
Lemma wrong_secret_step (p : OfferPayload) (h pass : jsstring)
  (e : option jsstring) (hash : jsstring) (ls : gmap jsstring jsstring) :
  latin1_payload p ->
  passwordHash p = Some h ->
  hashPassword pass <> h ->
  let ls' := <[offerPayload_key := JSON_stringify (OfferPayload_json p)]> ls in
  step' (PasswordSubmit pass) (awaiting_world e hash ls')
  = awaiting_world (Some (js "Incorrect secret code.")) hash ls'.
Proof.
  intros Hp Hh Hne ls'. unfold step. cbn [handle]. unfold handlePasswordSubmit.
  destruct (stringify_payload_parse p ls Hp) as (c & r & Hl & Hj). fold ls' in Hl.
  cbn [awaiting_world localStorage]. rewrite Hl, Hj.
  destruct (OfferPayload_fields p) as (_ & _ & _ & Fh). rewrite Fh, Hh.
  cbn [option_map strict_eq_string]. unfold jsstring_eqb.
  rewrite bool_decide_eq_false_2 by congruence.
  apply render_same; reflexivity.
Qed.

Lemma wrong_secrets_run (p : OfferPayload) (h : jsstring) (hash : jsstring)
  (ls : gmap jsstring jsstring) (wrong : list jsstring) :
  latin1_payload p ->
  passwordHash p = Some h ->
  Forall (fun pass => hashPassword pass <> h) wrong ->
  forall e,
  let ls' := <[offerPayload_key := JSON_stringify (OfferPayload_json p)]> ls in
  run' (map PasswordSubmit wrong) (awaiting_world e hash ls')
  = awaiting_world
      (match wrong with [] => e | _ => Some (js "Incorrect secret code.") end)
      hash ls'.
Proof.
  intros Hp Hh Hw. cbv zeta.
  induction Hw as [|pass wrong Hpass _ IH]; intros e.
  - reflexivity.
  - cbn [map]. change (run' (?ev :: ?evs) ?w) with (run' evs (step' ev w)).
    rewrite (wrong_secret_step p h pass e hash ls Hp Hh Hpass).
    rewrite IH. destruct wrong; reflexivity.
Qed.

(** X10.  A link whose payload has Latin-1 strings and a non-empty digest,
    on a freshly loaded page: the effect stores the payload text in the
    local slot and waits for the secret, creating no connection; any number
    of secrets with another digest leave the responder waiting, with the
    incorrect-secret message once one was tried and the slot untouched; the
    secret with the stored digest then removes the slot, stores the file
    metadata of the payload and, the transport accepting the descriptor,
    enters [generatingAnswer].  The connection was created by the render in
    [awaitingPassword]: no counter-signal is stored, and the end of candidate
    gathering changes nothing. *)
Theorem protected_link_flow (p : OfferPayload) (h : jsstring)
  (ls : gmap jsstring jsstring) (wrong : list jsstring) (right : jsstring)
  (answer : RTCSessionDescription) :
  latin1_payload p ->
  passwordHash p = Some h ->
  h <> [] ->
  Forall (fun pass => hashPassword pass <> h) wrong ->
  hashPassword right = h ->
  answerOffer (Some (description_json (sdp p))) = Some answer ->
  exists token,
    encode (OfferPayload_json p) = Some token
    /\ let hash := 35%N :: token in
       let ls' := <[offerPayload_key := JSON_stringify (OfferPayload_json p)]> ls in
       let w1 := step' Effect (page_load hash ls) in
       let w2 := run' (map PasswordSubmit wrong) w1 in
       let w3 := step' (PasswordSubmit right) w2 in
       w1 = awaiting_world None hash ls'
       /\ w2 = awaiting_world
                 (match wrong with
                  | [] => None
                  | _ => Some (js "Incorrect secret code.")
                  end) hash ls'
       /\ appState (store w3) = AppState.generatingAnswer
       /\ receivedFileInfo (store w3) = Some (info_of p)
       /\ localStorage w3 = delete offerPayload_key ls
       /\ peerConnection w3
          = Some {| pc_env := awaiting_store None; localDescription := Some answer |}
       /\ offer (store w3) = None
       /\ step' IceGatheringComplete w3 = w3.
Proof.
  intros Hp Hh Hne Hwrong Hright Hans.
  destruct (payload_token p Hp) as (token & He & Htok & Hd).
  exists token. split; [exact He|]. intros hash ls' w1 w2 w3.
  subst hash. set (hash := 35%N :: token) in *.
  destruct (OfferPayload_fields p) as (Fs & Fn & Fz & Fh).
  rewrite Hh in Fh. cbn [option_map] in Fh.
  assert (H1 : w1 = awaiting_world None hash ls').
  { unfold w1, step, hash. rewrite (effect_on_link token ls _ _ Htok Hd Fh).
    cbn [truthy]. rewrite bool_decide_eq_false_2 by exact Hne. cbn [negb].
    reflexivity. }
  assert (H2 : w2 = awaiting_world
                      (match wrong with
                       | [] => None
                       | _ => Some (js "Incorrect secret code.")
                       end) hash ls').
  { unfold w2. rewrite H1. apply (wrong_secrets_run p h hash ls wrong Hp Hh Hwrong). }
  split; [exact H1|]. split; [exact H2|].
  set (e := match wrong with [] => None | _ => Some (js "Incorrect secret code.") end) in *.
  destruct (stringify_payload_parse p ls Hp) as (c & r & Hl & Hj). fold ls' in Hl.
  assert (H3 : handle' (PasswordSubmit right) w2
               = (setReceivedFileInfo (Some (info_of p))
                  ;> createPeerConnection
                  ;> setLocalDescription answer
                  ;> setAppState AppState.generatingAnswer)
                   (set_localStorage (delete offerPayload_key ls')
                      (awaiting_world e hash ls'))).
  { rewrite H2. cbn [handle]. unfold handlePasswordSubmit.
    cbn [awaiting_world localStorage]. rewrite Hl, Hj, Fh.
    cbn [strict_eq_string]. unfold jsstring_eqb.
    rewrite bool_decide_eq_true_2 by congruence.
    unfold andThen at 1.
    apply (processOffer_accepted answerOffer _ _ _ _ _ answer Fn Fz Fs Hans). }
  assert (Hx : w3 = set_memo (store (handle' (PasswordSubmit right) w2))
                             (handle' (PasswordSubmit right) w2)).
  { unfold w3, step. apply render_changed. rewrite H3. cbn. discriminate. }
  assert (Hpc : peerConnection w3
                = Some {| pc_env := awaiting_store None;
                          localDescription := Some answer |}).
  { rewrite Hx, H3. reflexivity. }
  split; [rewrite Hx, H3; reflexivity|].
  split; [rewrite Hx, H3; reflexivity|].
  split; [rewrite Hx, H3; cbn; unfold ls'; apply delete_insert_eq|].
  split; [exact Hpc|].
  split; [rewrite Hx, H3; reflexivity|].
  unfold step at 1. cbn [handle].
  rewrite (onicecandidate_stale _ _ Hpc); [apply render_idem|..]; discriminate.
Qed.

(** X11.  The pending payload serves one successful authentication: the
    submit that matches removes it from the local slot, and a further submit
    of any secret finds no payload, sets the data-not-found message and
    enters [error], creating no connection and leaving the file metadata as
    it was. *)
Theorem pending_payload_used_once (w : World) (pass pass' payloadStr : jsstring)
  (payload : json) (h : jsvalue) :
  localStorage w !! offerPayload_key = Some payloadStr ->
  JSON_parse payloadStr = Some payload ->
  get_prop payload (js "passwordHash") = Some h ->
  strict_eq_string h (hashPassword pass) = true ->
  let w1 := step' (PasswordSubmit pass) w in
  let w2 := step' (PasswordSubmit pass') w1 in
  localStorage w1 = delete offerPayload_key (localStorage w)
  /\ appState (store w2) = AppState.error
  /\ error (store w2)
     = Some (js "Transmission data not found. Please use the original link.")
  /\ peerConnection w2 = peerConnection w1
  /\ receivedFileInfo (store w2) = receivedFileInfo (store w1).
Proof.
  intros Hl Hj Hh Heq w1 w2.
  assert (Hls : forall x, localStorage (processOffer answerOffer payload x) = localStorage x).
  { intros x. unfold processOffer, processOffer_failed.
    destruct (get_prop payload (js "fileName")); [|reflexivity].
    destruct (get_prop payload (js "fileSize")); [|reflexivity].
    destruct (get_prop payload (js "sdp")); [|reflexivity].
    destruct (answerOffer _); reflexivity. }
  assert (H1 : localStorage w1 = delete offerPayload_key (localStorage w)).
  { unfold w1, step.
    destruct (render_fields (handle' (PasswordSubmit pass) w)) as (_ & _ & _ & _ & _ & -> & _).
    cbn [handle]. unfold handlePasswordSubmit. rewrite Hl.
    destruct payloadStr as [|c r]; [rewrite JSON_parse_empty in Hj; discriminate|].
    rewrite Hj, Hh, Heq. unfold andThen. rewrite Hls. reflexivity. }
  split; [exact H1|].
  assert (H2 : handle' (PasswordSubmit pass') w1
               = (setError (Some (js "Transmission data not found. Please use the original link."))
                  ;> setAppState AppState.error) w1).
  { cbn [handle]. unfold handlePasswordSubmit. rewrite H1, lookup_delete_eq. reflexivity. }
  unfold w2, step.
  destruct (render_fields (handle' (PasswordSubmit pass') w1)) as (-> & _ & -> & _).
  rewrite H2. split; [reflexivity|]. split; [reflexivity|]. split; reflexivity.
Qed.

(** ** The counter-signal *)

(** X3.  A counter-signal pasted into the form with ASCII white space in it
    (tab, line feed, form feed, carriage return, space, wherever it stands):
    [handleConnect] does with it exactly what it does with the same string
    without that character, in every state and whatever the connection
    reference holds.  This is said of the string [handleConnect] is given,
    the value of the text area; the fragment of a link has been rewritten by
    the URL parser before the effect reads it and is not covered. *)
Theorem handleConnect_ignores_whitespace (a b : jsstring) (c : N) (w : World) :
  is_ascii_whitespace c = true ->
  handleConnect acceptAnswer (a ++ c :: b) w = handleConnect acceptAnswer (a ++ b) w.
Proof.
  intros Hc. unfold handleConnect.
  rewrite (decode_ignores_whitespace a b c Hc). reflexivity.
Qed.

(** X2.  The counter-signal of a responder.  For a local description whose
    strings are Latin-1, [btoa(JSON.stringify(pc.localDescription))] yields
    a token that [JSON.parse(atob(token))] turns back into the description;
    pasted into [handleConnect] while the connection reference is set, it
    leads to [connecting] when the transport accepts the description, and to
    the invalid-counter-signal message with the state unchanged when it
    throws. *)
Theorem answer_token_connects (d : RTCSessionDescription) (w : World)
  (pc : RTCPeerConnection) :
  latin1 (sd_type d) = true ->
  latin1 (sd_sdp d) = true ->
  peerConnection w = Some pc ->
  exists token,
    encode (description_json d) = Some token
    /\ decode token = Some (description_json d)
    /\ handleConnect acceptAnswer token w
       = if acceptAnswer (description_json d)
         then setAppState AppState.connecting w
         else setError (Some (js "Invalid counter-signal format. Please try again.")) w.
Proof.
  intros Ht Hs Hpc. destruct (description_token d Ht Hs) as (token & He & Hd).
  exists token. split; [exact He|]. split; [exact Hd|].
  unfold handleConnect. rewrite Hd, Hpc. reflexivity.
Qed.

End FlowProperties.

Lemma sender_link_never_shown_witness :
  let w1 := example_step CreateLink sender_idle in
  appState (store w1) = AppState.generatingOffer
  /\ offer (store w1) = offer (store sender_idle)
  /\ peerConnection w1
     = Some {| pc_env := memo sender_idle; localDescription := Some example_offer |}
  /\ example_step IceGatheringComplete w1 = w1.
Proof.
  apply (sender_link_never_shown example_hashPassword (Some example_offer)
           accepting_answerOffer accepting_acceptAnswer integer_ToNumber
           sender_idle recipe); vm_compute; reflexivity.
Defined.

Lemma link_without_digest_witness :
  exists token,
    encode (OfferPayload_json open_payload) = Some token
    /\ let w := example_step Effect (page_load (35%N :: token) ∅) in
       receivedFileInfo (store w) = Some (info_of open_payload)
       /\ localStorage w = ∅
       /\ offer (store w) = None
       /\ example_step IceGatheringComplete w = w
       /\ appState (store w) = AppState.generatingAnswer
       /\ error (store w) = None
       /\ peerConnection w = Some responder_connection.
Proof.
  apply (link_without_digest example_hashPassword (Some example_offer)
           accepting_answerOffer accepting_acceptAnswer integer_ToNumber
           open_payload ∅).
  - vm_compute. repeat split.
  - exact I.
Defined.

Lemma protected_link_flow_witness :
  exists token,
    encode (OfferPayload_json protected_payload) = Some token
    /\ let hash := 35%N :: token in
       let ls' := <[offerPayload_key := JSON_stringify (OfferPayload_json protected_payload)]> ∅ in
       let w1 := example_step Effect (page_load hash ∅) in
       let w2 := example_run accepting_answerOffer
                   (map PasswordSubmit [js "hunter2"; js "sword"]) w1 in
       let w3 := example_step (PasswordSubmit (js "swordfish")) w2 in
       w1 = awaiting_world None hash ls'
       /\ w2 = awaiting_world (Some (js "Incorrect secret code.")) hash ls'
       /\ appState (store w3) = AppState.generatingAnswer
       /\ receivedFileInfo (store w3) = Some (info_of protected_payload)
       /\ localStorage w3 = delete offerPayload_key ∅
       /\ peerConnection w3
          = Some {| pc_env := awaiting_store None;
                    localDescription := Some example_answer |}
       /\ offer (store w3) = None
       /\ example_step IceGatheringComplete w3 = w3.
Proof.
  apply (protected_link_flow example_hashPassword (Some example_offer)
           accepting_answerOffer accepting_acceptAnswer integer_ToNumber
           protected_payload (example_hashPassword (js "swordfish")) ∅
           [js "hunter2"; js "sword"] (js "swordfish") example_answer).
  - vm_compute. repeat split.
  - reflexivity.
  - vm_compute. discriminate.
  - repeat constructor; vm_compute; discriminate.
  - reflexivity.
  - reflexivity.
Defined.

Lemma pending_payload_used_once_witness :
  let w1 := example_step (PasswordSubmit (js "swordfish")) gated_world in
  let w2 := example_step (PasswordSubmit (js "swordfish")) w1 in
  localStorage w1 = delete offerPayload_key (localStorage gated_world)
  /\ appState (store w2) = AppState.error
  /\ error (store w2)
     = Some (js "Transmission data not found. Please use the original link.")
  /\ peerConnection w2 = peerConnection w1
  /\ receivedFileInfo (store w2) = receivedFileInfo (store w1).
Proof.
  apply (pending_payload_used_once example_hashPassword (Some example_offer)
           accepting_answerOffer accepting_acceptAnswer integer_ToNumber
           gated_world (js "swordfish") (js "swordfish")
           (JSON_stringify gated_payload) gated_payload
           (Some (JString (example_hashPassword (js "swordfish")))));
    vm_compute; reflexivity.
Defined.

Lemma handleConnect_ignores_whitespace_witness :
  let w := set_peerConnection (Some responder_connection) (page_load [] ∅) in
  handleConnect accepting_acceptAnswer
    (js "eyJ0eXBlIjoi" ++ 10%N :: js "ZG9uZSJ9") w
  = handleConnect accepting_acceptAnswer (js "eyJ0eXBlIjoi" ++ js "ZG9uZSJ9") w.
Proof.
  apply (handleConnect_ignores_whitespace accepting_acceptAnswer
           (js "eyJ0eXBlIjoi") (js "ZG9uZSJ9") 10%N).
  reflexivity.
Defined.

Lemma answer_token_connects_witness :
  exists token,
    encode (description_json example_answer) = Some token
    /\ decode token = Some (description_json example_answer)
    /\ handleConnect accepting_acceptAnswer token
         (set_peerConnection (Some responder_connection) (page_load [] ∅))
       = setAppState AppState.connecting
           (set_peerConnection (Some responder_connection) (page_load [] ∅)).
Proof.
  exact (answer_token_connects accepting_acceptAnswer example_answer
           (set_peerConnection (Some responder_connection) (page_load [] ∅))
           responder_connection eq_refl eq_refl eq_refl).
Defined.

(** ** The transfer *)

Section TransferProperties.
Local Open Scope Z_scope.

Variable hashPassword : jsstring -> jsstring.
Variable createOffer : option RTCSessionDescription.
Variable answerOffer : jsvalue -> option RTCSessionDescription.
Variable acceptAnswer : json -> bool.
Variable ToNumber : jsvalue -> float.

Local Abbreviation handle' :=
  (handle hashPassword createOffer answerOffer acceptAnswer ToNumber).
Local Abbreviation step' :=
  (step hashPassword createOffer answerOffer acceptAnswer ToNumber).
Local Abbreviation run' :=
  (run hashPassword createOffer answerOffer acceptAnswer ToNumber).
Local Abbreviation run_reader' :=
  (run_reader hashPassword createOffer answerOffer acceptAnswer ToNumber).

(** ** The sender without an open channel *)

(** X12.  When a read completes while the channel reference is null or the
    channel is not open, the sender sends nothing and requests no further
    read: the loop ends with the state, the counters and the channel as they
    were, no control message sent and no error raised. *)
Theorem sender_stops_without_open_channel (w : World) (fuel : nat) :
  match dataChannel w with Some ch => dc_open ch = false | None => True end ->
  let w' := run_reader' (S fuel) w in
  store w' = store w
  /\ dataChannel w' = dataChannel w
  /\ match fileReader w' with Some fr => fr_reading fr = None | None => True end.
Proof.
  intros Hch. cbn [run_reader].
  destruct (fileReader w) as [fr|] eqn:Efr; [|rewrite Efr; auto].
  destruct (fr_reading fr) as [chunk|] eqn:Er; [|rewrite Efr, Er; auto].
  assert (Hload : onload w
                  = set_fileReader
                      (Some {| fr_file := fr_file fr; fr_offset := fr_offset fr;
                               fr_reading := None |}) w).
  { unfold onload. rewrite Efr, Er. cbn [dataChannel set_fileReader].
    destruct (dataChannel w) as [ch|]; [|reflexivity].
    rewrite Hch. reflexivity. }
  unfold step. cbn [handle]. rewrite Hload.
  set (x := set_fileReader _ w).
  destruct (render_fields x) as (Rs & _ & _ & Rdc & Rfr & _).
  rewrite (run_reader_idle hashPassword createOffer answerOffer acceptAnswer ToNumber
             fuel (render x) (fr_file fr) (fr_offset fr)) by (rewrite Rfr; reflexivity).
  rewrite Rs, Rdc, Rfr. cbv zeta. split; [reflexivity|]. split; reflexivity.
Qed.

(** ** Sequences of inbound messages *)

Lemma run_cons (ev : Event) (evs : list Event) (w : World) :
  run' (ev :: evs) w = run' evs (step' ev w).
Proof. reflexivity. Qed.

Lemma run_messages_fields (msgs : list MessageData) :
  forall (w : World) (ch : RTCDataChannel),
  dataChannel w = Some ch ->
  let w' := run' (map ChannelMessage msgs) w in
  dataChannel w' = Some ch
  /\ receivedFileChunks (store w')
     = receivedFileChunks (store w) ++ binary_payloads msgs
  /\ appState (store w')
     = (if has_control msgs then AppState.transferComplete else appState (store w))
  /\ error (store w') = error (store w)
  /\ offer (store w') = offer (store w)
  /\ peerConnection w' = peerConnection w
  /\ fileReader w' = fileReader w
  /\ localStorage w' = localStorage w.
Proof.
  induction msgs as [|m msgs IH]; intros w ch Hdc.
  - cbn. rewrite app_nil_r. repeat split; assumption.
  - cbn [map]. rewrite run_cons. cbv zeta.
    set (w1 := step' (ChannelMessage m) w).
    assert (H1 : dataChannel w1 = Some ch
                 /\ receivedFileChunks (store w1)
                    = receivedFileChunks (store w)
                      ++ match m with Binary b => [b] | Text _ => [] end
                 /\ appState (store w1)
                    = (if match m with Text s => is_control s | Binary _ => false end
                       then AppState.transferComplete else appState (store w))
                 /\ error (store w1) = error (store w)
                 /\ offer (store w1) = offer (store w)
                 /\ peerConnection w1 = peerConnection w
                 /\ fileReader w1 = fileReader w
                 /\ localStorage w1 = localStorage w).
    { unfold w1, step.
      destruct (render_fields (handle' (ChannelMessage m) w))
        as (Rs & _ & Rpc & Rdc & Rfr & Rls & _).
      rewrite Rs, Rpc, Rdc, Rfr, Rls. cbn [handle]. rewrite Hdc.
      destruct m as [s|b].
      - rewrite onmessage_text. destruct (is_control s).
        + unfold andThen. cbn. rewrite app_nil_r. repeat split. exact Hdc.
        + rewrite app_nil_r. repeat split. exact Hdc.
      - unfold onmessage.
        destruct (receivedFileInfo (dc_env ch)); unfold andThen; cbn;
          repeat split; exact Hdc. }
    destruct H1 as (D1 & C1 & A1 & E1 & O1 & P1 & F1 & L1).
    destruct (IH w1 ch D1) as (D2 & C2 & A2 & E2 & O2 & P2 & F2 & L2).
    cbv zeta in *.
    rewrite D2, C2, A2, E2, O2, P2, F2, L2, C1, A1, E1, O1, P1, F1, L1.
    change (binary_payloads (m :: msgs))
      with (match m with Binary b => [b] | Text _ => [] end ++ binary_payloads msgs).
    change (has_control (m :: msgs))
      with (match m with Text s => is_control s | Binary _ => false end
            || has_control msgs).
    rewrite <- app_assoc.
    split; [reflexivity|]. split; [reflexivity|].
    split; [|repeat split].
    destruct m as [s|b]; cbn [orb]; [|reflexivity].
    destruct (is_control s); cbn [orb]; [|reflexivity].
    destruct (has_control msgs); reflexivity.
Qed.

(** X13.  A sequence of inbound messages, from a state that is not
    [transferComplete]: the receiver ends in [transferComplete] if and only
    if one of the messages is a text whose decode carries the done tag; the
    stored frames are the ones held before followed by the binary messages
    in arrival order; no message raises an error, and nothing is sent
    back. *)
Theorem completion_needs_control_message (msgs : list MessageData) (w : World)
  (ch : RTCDataChannel) :
  dataChannel w = Some ch ->
  appState (store w) <> AppState.transferComplete ->
  let w' := run' (map ChannelMessage msgs) w in
  (appState (store w') = AppState.transferComplete
   <-> exists s, In (Text s) msgs /\ is_control s = true)
  /\ receivedFileChunks (store w')
     = receivedFileChunks (store w) ++ binary_payloads msgs
  /\ error (store w') = error (store w)
  /\ dataChannel w' = Some ch.
Proof.
  intros Hdc Hne w'.
  destruct (run_messages_fields msgs w ch Hdc) as (D & C & A & E & _).
  fold w' in D, C, A, E. split; [|auto].
  rewrite A. unfold has_control.
  destruct (existsb _ msgs) eqn:Ex.
  - split; [intros _|reflexivity].
    apply existsb_exists in Ex as (m & Hin & Hm).
    destruct m as [s|b]; [|discriminate]. exists s. auto.
  - split; [contradiction|]. intros (s & Hin & Hs).
    assert (existsb (fun m => match m with
                              | Text s => is_control s
                              | Binary _ => false
                              end) msgs = true) as Ht.
    { apply existsb_exists. exists (Text s). auto. }
    congruence.
Qed.

(** ** The sender from the interface *)

Lemma render_file_changed (w : World) :
  file (memo w) <> file (store w) -> render w = set_memo (store w) w.
Proof.
  intros H. unfold render.
  rewrite (bool_decide_eq_false_2 _ H), andb_false_r. reflexivity.
Qed.

(** The sender that selected [f] on a page without fragment and asked for a
    link, once its channel has opened: the first slice is being read. *)
Lemma sender_started (f : File) (ls : gmap jsstring jsstring) :
  let w := run' [FileChange (Some f); CreateLink; ChannelOpen] (page_load [] ls) in
  fileReader w
  = Some {| fr_file := f; fr_offset := 0;
            fr_reading := Some (slice (bytes f) 0 (0 + CHUNK_SIZE)) |}
  /\ dataChannel w
     = Some {| dc_env := selected_store f; dc_open := true; dc_sent := [] |}
  /\ offer (store w) = None
  /\ transferredBytes (store w) = 0.
Proof.
  intros w. unfold w. rewrite !run_cons.
  assert (H1 : step' (FileChange (Some f)) (page_load [] ls)
               = {| store := selected_store f; memo := selected_store f;
                    downloadUrl := None; peerConnection := None;
                    dataChannel := None; fileReader := None;
                    localStorage := ls; location_hash := [] |}).
  { unfold step. cbn [handle handleFileChange]. rewrite render_file_changed.
    - reflexivity.
    - cbn. discriminate. }
  rewrite H1. clear H1.
  set (w1 := {| store := selected_store f |}).
  assert (H2 : step' CreateLink w1
               = set_memo
                   (store (setAppState AppState.generatingOffer w1))
                   (set_peerConnection
                      (Some {| pc_env := selected_store f;
                               localDescription := createOffer |})
                      (set_dataChannel
                         (Some {| dc_env := selected_store f; dc_open := false;
                                  dc_sent := [] |})
                         (setAppState AppState.generatingOffer w1)))).
  { unfold step. cbn [handle]. unfold handleCreateLink.
    cbn [w1 store selected_store file].
    rewrite render_changed; [destruct createOffer; reflexivity|].
    destruct createOffer; cbn; discriminate. }
  rewrite H2. clear H2.
  set (w2 := set_memo _ _).
  unfold run. cbn [fold_left]. unfold step.
  destruct (render_fields (handle' ChannelOpen w2)) as (-> & _ & _ & -> & -> & _).
  cbn [handle]. repeat split.
Qed.

(** X16.  A transfer from the interface of the sender to the store of a
    receiver.  A sender selects a file on a page without fragment, asks for
    a link, and its channel opens; once the reads have completed it is in
    [transferComplete] with the size of the file as byte counter.  The
    messages it has put on the channel, delivered in order to a receiver
    that holds no frame, leave the receiver in [transferComplete] with
    frames in its store whose concatenation is the file, and raise no
    error. *)
Theorem transfer_end_to_end (f : File) (ls : gmap jsstring jsstring) (fuel : nat)
  (receiver : World) (ch : RTCDataChannel) :
  size f / CHUNK_SIZE < Z.of_nat fuel ->
  dataChannel receiver = Some ch ->
  receivedFileChunks (store receiver) = [] ->
  let sender :=
    run_reader' fuel
      (run' [FileChange (Some f); CreateLink; ChannelOpen] (page_load [] ls)) in
  exists msgs : list MessageData,
    option_map dc_sent (dataChannel sender) = Some msgs
    /\ appState (store sender) = AppState.transferComplete
    /\ transferredBytes (store sender) = size f
    /\ let receiver' := run' (map ChannelMessage msgs) receiver in
       concat (receivedFileChunks (store receiver')) = bytes f
       /\ appState (store receiver') = AppState.transferComplete
       /\ error (store receiver') = error (store receiver).
Proof.
  intros Hfuel Hdc Hempty sender.
  destruct (sender_started f ls) as (Sfr & Sdc & _ & _).
  destruct (run_reader_frames hashPassword createOffer answerOffer acceptAnswer
              ToNumber f [] fuel 0%nat _ _ Sfr Sdc eq_refl eq_refl)
    as (k & ch' & Edc & Esent & Hk & Hend & _ & Est & Etb).
  { right. reflexivity. }
  { rewrite Z.mul_0_r, Z.sub_0_r. exact Hfuel. }
  fold sender in Edc, Est, Etb.
  set (last := slice (bytes f) (CHUNK_SIZE * Z.of_nat k)
                     (CHUNK_SIZE * Z.of_nat k + CHUNK_SIZE)) in *.
  exists (map Binary (full_frames f k ++ [last]) ++ [Text done_message]).
  split; [rewrite Edc; cbn [option_map]; rewrite Esent; reflexivity|].
  split; [exact Est|]. split; [exact Etb|].
  intros receiver'.
  destruct (run_messages_fields
              (map Binary (full_frames f k ++ [last]) ++ [Text done_message])
              receiver ch Hdc) as (_ & C & A & E & _).
  fold receiver' in C, A, E.
  assert (Hb : forall l s, binary_payloads (map Binary l ++ [Text s]) = l).
  { intros l s. unfold binary_payloads. rewrite flat_map_app. cbn. rewrite app_nil_r.
    induction l as [|b l IH]; [reflexivity|]. cbn. rewrite IH. reflexivity. }
  assert (Hc : forall l, has_control (map Binary l ++ [Text done_message]) = true).
  { intros l. unfold has_control. rewrite existsb_app. cbn [existsb].
    rewrite is_control_done. cbn. apply orb_true_r. }
  rewrite Hb, Hempty in C. rewrite Hc in A.
  split; [|split; [exact A|exact E]].
  rewrite C. cbn [app]. rewrite concat_app, full_frames_concat. simpl.
  rewrite app_nil_r. unfold last. rewrite take_slice by (unfold CHUNK_SIZE; lia).
  apply take_ge. unfold CHUNK_SIZE, size in *. lia.
Qed.

End TransferProperties.

Lemma sender_stops_without_open_channel_witness :
  let w' := run_reader example_hashPassword (Some example_offer)
              accepting_answerOffer accepting_acceptAnswer integer_ToNumber
              3 sender_cut_off in
  store w' = store sender_cut_off
  /\ dataChannel w' = dataChannel sender_cut_off
  /\ match fileReader w' with Some fr => fr_reading fr = None | None => True end.
Proof.
  apply (sender_stops_without_open_channel example_hashPassword (Some example_offer)
           accepting_answerOffer accepting_acceptAnswer integer_ToNumber
           sender_cut_off 2).
  vm_compute. reflexivity.
Defined.

Lemma completion_needs_control_message_witness :
  let msgs := [Binary (bytes recipe); Text (js "hello"); Binary (bytes recipe)] in
  let w' := example_run accepting_answerOffer (map ChannelMessage msgs)
              responder_ready in
  (appState (store w') = AppState.transferComplete
   <-> exists s, In (Text s) msgs /\ is_control s = true)
  /\ receivedFileChunks (store w')
     = receivedFileChunks (store responder_ready) ++ binary_payloads msgs
  /\ error (store w') = error (store responder_ready)
  /\ dataChannel w' = Some responder_channel.
Proof.
  apply (completion_needs_control_message example_hashPassword (Some example_offer)
           accepting_answerOffer accepting_acceptAnswer integer_ToNumber
           [Binary (bytes recipe); Text (js "hello"); Binary (bytes recipe)]
           responder_ready responder_channel).
  - vm_compute. reflexivity.
  - vm_compute. discriminate.
Defined.

Lemma transfer_end_to_end_witness :
  let sender :=
    run_reader example_hashPassword (Some example_offer) accepting_answerOffer
      accepting_acceptAnswer integer_ToNumber 1
      (example_run accepting_answerOffer
         [FileChange (Some recipe); CreateLink; ChannelOpen] (page_load [] ∅)) in
  exists msgs : list MessageData,
    option_map dc_sent (dataChannel sender) = Some msgs
    /\ appState (store sender) = AppState.transferComplete
    /\ transferredBytes (store sender) = size recipe
    /\ let receiver' := example_run accepting_answerOffer (map ChannelMessage msgs)
                          responder_ready in
       concat (receivedFileChunks (store receiver')) = bytes recipe
       /\ appState (store receiver') = AppState.transferComplete
       /\ error (store receiver') = error (store responder_ready).
Proof.
  apply (transfer_end_to_end example_hashPassword (Some example_offer)
           accepting_answerOffer accepting_acceptAnswer integer_ToNumber
           recipe ∅ 1 responder_ready responder_channel).
  - vm_compute. reflexivity.
  - vm_compute. reflexivity.
  - vm_compute. reflexivity.
Defined.

(** ** The counter and the connection state *)

Section CounterProperties.
Local Open Scope Z_scope.

Variable hashPassword : jsstring -> jsstring.
Variable createOffer : option RTCSessionDescription.
Variable answerOffer : jsvalue -> option RTCSessionDescription.
Variable acceptAnswer : json -> bool.
Variable ToNumber : jsvalue -> float.

Local Abbreviation handle' :=
  (handle hashPassword createOffer answerOffer acceptAnswer ToNumber).
Local Abbreviation step' :=
  (step hashPassword createOffer answerOffer acceptAnswer ToNumber).
Local Abbreviation run' :=
  (run hashPassword createOffer answerOffer acceptAnswer ToNumber).

Lemma run_snoc (evs : list Event) (ev : Event) (w : World) :
  run' (evs ++ [ev]) w = step' ev (run' evs w).
Proof. unfold run. rewrite fold_left_app. reflexivity. Qed.

Lemma repeat_snoc {A : Type} (x : A) (n : nat) : repeat x (S n) = repeat x n ++ [x].
Proof. induction n as [|n IH]; [reflexivity|]. cbn [repeat app] in *. rewrite <- IH. reflexivity. Qed.

Lemma load_reading (f : File) (n : nat) (w : World) :
  reading_frame f n w ->
  let w' := step' FileReaderLoad w in
  (CHUNK_SIZE * Z.of_nat (S n) < size f -> reading_frame f (S n) w')
  /\ (size f <= CHUNK_SIZE * Z.of_nat (S n) -> reading_done f (S n) w').
Proof.
  intros (Hfr & (ch & Hdc & Hopen) & Hn & Htb) w'.
  set (o := CHUNK_SIZE * Z.of_nat n) in *.
  set (chunk := slice (bytes f) o (o + CHUNK_SIZE)) in *.
  assert (Hlen : byteLength chunk
                 = Z.min (o + CHUNK_SIZE) (size f) - Z.min o (size f)).
  { unfold chunk. apply slice_length. unfold o, CHUNK_SIZE. lia. }
  destruct (render_fields (onload w)) as (Rs & _ & _ & Rdc & Rfr & _).
  split; intros Hcmp.
  - assert (Hlt : o + byteLength chunk < size f).
    { unfold o, CHUNK_SIZE, size in *. lia. }
    destruct (onload_next w f o chunk ch Hfr Hdc Hopen Hlt) as (Efr & Edc & Etb & _).
    assert (Ho : o + byteLength chunk = CHUNK_SIZE * Z.of_nat (S n)).
    { unfold o, CHUNK_SIZE, size in *. lia. }
    cbv zeta in Efr, Etb. rewrite Ho in Efr, Etb.
    unfold reading_frame, w', step. cbn [handle]. rewrite Rfr, Rdc, Rs.
    split; [exact Efr|]. split; [eexists; split; [exact Edc|reflexivity]|].
    split; [left; exact Hcmp|]. intros _. exact Etb.
  - assert (Hge : size f <= o + byteLength chunk).
    { unfold o, CHUNK_SIZE, size in *. lia. }
    destruct (onload_last w f o chunk ch Hfr Hdc Hopen Hge) as (Efr & _ & Etb & _).
    assert (Ho : o + byteLength chunk = size f).
    { unfold o, CHUNK_SIZE, size in *. lia. }
    cbv zeta in Efr, Etb. rewrite Ho in Efr, Etb.
    unfold reading_done, w', step. cbn [handle]. rewrite Rfr, Rs.
    split; [exact Efr|]. split; [exact Hcmp|]. split; [discriminate|exact Etb].
Qed.

Lemma load_done (f : File) (n : nat) (w : World) :
  reading_done f n w -> reading_done f (S n) (step' FileReaderLoad w).
Proof.
  intros (Hfr & Hn & Hz & Htb). unfold step. cbn [handle].
  assert (Hl : onload w = w) by (unfold onload; rewrite Hfr; reflexivity).
  rewrite Hl. destruct (render_fields w) as (Rs & _ & _ & _ & Rfr & _).
  unfold reading_done. rewrite Rfr, Rs.
  split; [exact Hfr|]. split; [unfold CHUNK_SIZE in *; lia|].
  split; [discriminate|exact Htb].
Qed.

Lemma loads_state (f : File) (w : World) (n : nat) :
  reading_frame f 0 w ->
  let wn := run' (repeat FileReaderLoad n) w in
  (CHUNK_SIZE * Z.of_nat n < size f \/ n = 0%nat -> reading_frame f n wn)
  /\ (size f <= CHUNK_SIZE * Z.of_nat n -> n <> 0%nat -> reading_done f n wn).
Proof.
  intros H0. induction n as [|n IH].
  - cbn. split; [intros _; exact H0|]. intros _ Hn. contradiction.
  - cbv zeta in *. rewrite repeat_snoc, run_snoc.
    destruct IH as (IHr & IHd).
    destruct (Z.lt_ge_cases (CHUNK_SIZE * Z.of_nat n) (size f)) as [Hlt|Hge].
    + destruct (load_reading f n _ (IHr (or_introl Hlt))) as (L1 & L2).
      split; [intros [H|H]; [exact (L1 H)|discriminate]|].
      intros H _. exact (L2 H).
    + destruct n as [|n].
      * destruct (load_reading f 0 _ (IHr (or_intror eq_refl))) as (L1 & L2).
        split; [intros [H|H]; [exact (L1 H)|discriminate]|].
        intros H _. exact (L2 H).
      * pose proof (load_done f (S n) _ (IHd Hge ltac:(discriminate))) as Hd.
        split; [intros [H|H]; [unfold CHUNK_SIZE in *; lia|discriminate]|].
        intros _ _. exact Hd.
Qed.

(** X14.  The sender's byte counter.  After [n + 1] completed reads on an
    open channel the counter is the smaller of [(n + 1) * 16384] and the size
    of the file; from one read to the next it never decreases and never
    exceeds the size of the file. *)
Theorem sender_counter (env : Store) (w : World) (f : File) (ch : RTCDataChannel)
  (n : nat) :
  file env = Some f ->
  dataChannel w = Some ch ->
  dc_open ch = true ->
  let counter (k : nat) :=
    transferredBytes
      (store (run' (repeat FileReaderLoad k) (sendFileInChunks env w))) in
  counter (S n) = Z.min (CHUNK_SIZE * Z.of_nat (S n)) (size f)
  /\ counter (S n) <= counter (S (S n)) <= size f.
Proof.
  intros Hf Hdc Hopen counter.
  assert (H0 : reading_frame f 0 (sendFileInChunks env w)).
  { unfold sendFileInChunks. rewrite Hf, Hdc. unfold reading_frame.
    split; [reflexivity|]. split; [exists ch; auto|]. split; [right; reflexivity|].
    intros H. contradiction. }
  assert (Hc : forall k, counter (S k) = Z.min (CHUNK_SIZE * Z.of_nat (S k)) (size f)).
  { intros k. unfold counter.
    destruct (loads_state f _ (S k) H0) as (Hr & Hd).
    destruct (Z.lt_ge_cases (CHUNK_SIZE * Z.of_nat (S k)) (size f)) as [Hlt|Hge].
    - destruct (Hr (or_introl Hlt)) as (_ & _ & _ & Htb).
      rewrite Htb by discriminate. lia.
    - destruct (Hd Hge ltac:(discriminate)) as (_ & _ & _ & Htb).
      rewrite Htb. lia. }
  rewrite !Hc. unfold CHUNK_SIZE. split; lia.
Qed.

(** ** A disconnect after completion *)

(** X17.  The connection state handler does not look at the state of the
    transfer: a [disconnected] or [failed] connection puts the component in
    [error] with the connection-failed message from every state, also from
    [transferComplete]; the download URL and the received frames stay, but
    the view no longer offers the download. *)
Theorem disconnect_hides_download (w : World) (pc : RTCPeerConnection)
  (st : RTCPeerConnectionState) :
  peerConnection w = Some pc ->
  st = cs_disconnected \/ st = cs_failed ->
  let w' := step' (ConnectionStateChange st) w in
  appState (store w') = AppState.error
  /\ error (store w') = Some (js "Connection failed. Please try again.")
  /\ download_offered w' = false
  /\ downloadUrl w' = downloadUrl w
  /\ receivedFileChunks (store w') = receivedFileChunks (store w).
Proof.
  intros Hpc Hst w'. unfold w', step, download_offered.
  destruct (render_fields (handle' (ConnectionStateChange st) w))
    as (-> & -> & _).
  cbn [handle]. rewrite Hpc.
  destruct Hst as [-> | ->]; cbn; repeat split.
Qed.

End CounterProperties.

Lemma sender_counter_witness :
  let counter (k : nat) :=
    transferredBytes
      (store (example_run accepting_answerOffer (repeat FileReaderLoad k)
                (sendFileInChunks (selected_store two_frame_file)
                   (sender_ready two_frame_file)))) in
  counter 1%nat = Z.min (CHUNK_SIZE * Z.of_nat 1) (size two_frame_file)
  /\ (counter 1%nat <= counter 2%nat <= size two_frame_file)%Z.
Proof.
  apply (sender_counter example_hashPassword (Some example_offer)
           accepting_answerOffer accepting_acceptAnswer integer_ToNumber
           (selected_store two_frame_file) (sender_ready two_frame_file)
           two_frame_file
           {| dc_env := selected_store two_frame_file; dc_open := true;
              dc_sent := [] |} 0).
  - reflexivity.
  - vm_compute. reflexivity.
  - reflexivity.
Defined.

Lemma disconnect_hides_download_witness :
  download_offered responder_complete = true
  /\ let w' := example_step (ConnectionStateChange cs_disconnected)
                 responder_complete in
     appState (store w') = AppState.error
     /\ error (store w') = Some (js "Connection failed. Please try again.")
     /\ download_offered w' = false
     /\ downloadUrl w' = downloadUrl responder_complete
     /\ receivedFileChunks (store w') = receivedFileChunks (store responder_complete).
Proof.
  split; [vm_compute; reflexivity|].
  apply (disconnect_hides_download example_hashPassword (Some example_offer)
           accepting_answerOffer accepting_acceptAnswer integer_ToNumber
           responder_complete responder_connection cs_disconnected).
  - vm_compute. reflexivity.
  - left. reflexivity.
Defined.
